(** * tweb: state store, peer demand tracker, document registry and resource cache

    A shallow embedding of [AppStateManager] (lib/appManagers/appStateManager.ts)
    and [AppDocsManager] (lib/appManagers/appDocsManager.ts).

    - JavaScript objects used as dictionaries are [gmap]s, [Set]s are [gset]s.
    - Methods that mutate [this] are computations in a state-and-exception
      monad over the manager's fields; a thrown [TypeError] keeps the
      mutations done before the throw, as in JavaScript.
    - Promises live in an explicit promise heap; callbacks are defunctionalised
      into handler codes that are interpreted against the manager state when
      the reaction runs.
    - Collaborators outside these two files (sessionStorage, apiFileManager,
      rootScope, RichTextProcessor, URL) appear through what the managers
      send them and what they answer.

    Covered: [loadSavedState], [addLoadPromise], [getState], [pushToState],
    [setPeer], [requestPeer], [isPeerNeeded], [keepPeerSingle]; [saveDoc],
    [getDoc], [getMediaInputByID], [getInputByID], [getFileName],
    [downloadDoc], [downloadDocThumb], [hasDownloadedThumb].

    Not covered: [setByKey] (it rests on [setDeepProperty] of helpers/object)
    and [saveDocFile] (it rests on the writers of [FileManager]). *)

From Stdlib Require Import ZArith Ascii.
From stdpp Require Import gmap strings list fin_maps.

Set Warnings "-register-all".

Local Open Scope string_scope.
Local Open Scope list_scope.
Local Open Scope Z_scope.

(** ** Exceptions and the state-and-exception monad *)

Inductive js_error :=
  | TypeError (msg : string)
  | ValidationError (msg : string)
  | ExternalError (code : Z).

#[global] Instance js_error_eq_dec : EqDecision js_error.
Proof. solve_decision. Defined.

(** [M S A]: a method body running on fields [S]; [inr e] is [throw e]. *)
Definition M (S A : Type) : Type := S → (A + js_error) * S.

Definition ret {S A} (a : A) : M S A := λ s, (inl a, s).
Definition throw {S A} (e : js_error) : M S A := λ s, (inr e, s).
Definition bind {S A B} (c : M S A) (k : A → M S B) : M S B :=
  λ s, match c s with
       | (inl a, s') => k a s'
       | (inr e, s') => (inr e, s')
       end.
Definition get {S} : M S S := λ s, (inl s, s).
Definition modify {S} (f : S → S) : M S unit := λ s, (inl tt, f s).

(** A fallible pure step inside a method. *)
Definition lift {S A} (r : A + js_error) : M S A :=
  match r with inl a => ret a | inr e => throw e end.

(** [keeps proj c]: the method body [c] leaves the part [proj] of the
    fields as it found it, on normal return and on throw. *)
Definition keeps {St A X} (proj : St → X) (c : M St A) : Prop :=
  ∀ s r s', c s = (r, s') → proj s' = proj s.

Notation "x <- c ;; k" := (bind c (λ x, k))
  (at level 100, c at next level, right associativity) : stdpp_scope.
Notation "c ;;; k" := (bind c (λ _, k))
  (at level 100, right associativity) : stdpp_scope.

(** ** Peer demand tracker ([neededPeers], [singlePeerMap]) *)

Module PeerDemand.

(** Events sent through [dispatchEvent]. *)
Inductive signal :=
  | peerNeeded (peerId : Z)
  | peerUnneeded (peerId : Z).

#[global] Instance signal_eq_dec : EqDecision signal.
Proof. solve_decision. Defined.

Record tracker := Tracker {
  neededPeers : gmap Z (gset string);
  singlePeerMap : gmap string Z;
  dispatched : list signal      (* oldest first *)
}.

Definition empty : tracker := Tracker ∅ ∅ [].

Definition dispatchEvent (s : signal) : M tracker unit :=
  modify (λ t, Tracker (neededPeers t) (singlePeerMap t) (dispatched t ++ [s])).

Definition set_needed (f : gmap Z (gset string) → gmap Z (gset string)) : M tracker unit :=
  modify (λ t, Tracker (f (neededPeers t)) (singlePeerMap t) (dispatched t)).

Definition set_single (f : gmap string Z → gmap string Z) : M tracker unit :=
  modify (λ t, Tracker (neededPeers t) (f (singlePeerMap t)) (dispatched t)).

(** The first half of [keepPeerSingle]: release the tag of the previous
    slot holder.  [existsPeerId && existsPeerId !== peerId] is false for an
    absent holder and for the falsy peer id [0]. *)
Definition evictHolder (peerId : Z) (type : string) : M tracker unit :=
  t <- get ;;
  match singlePeerMap t !! type with
  | Some existsPeerId =>
      if bool_decide (existsPeerId ≠ 0) && bool_decide (existsPeerId ≠ peerId) then
        match neededPeers t !! existsPeerId with
        | None => throw (TypeError "Cannot read properties of undefined (reading 'delete')")
        | Some set =>
            let set' := set ∖ {[ type ]} in
            set_needed (<[ existsPeerId := set' ]>) ;;;
            if bool_decide (size set' = 0%nat) then
              set_needed (delete existsPeerId) ;;;
              dispatchEvent (peerUnneeded existsPeerId)
            else ret tt
        end
      else ret tt
  | None => ret tt
  end.

Definition keepPeerSingle (peerId : Z) (type : string) : M tracker unit :=
  evictHolder peerId type ;;;
  set_single (<[ type := peerId ]>).

Definition requestPeer (peerId : Z) (type : string) (limit : option Z) : M tracker unit :=
  t <- get ;;
  let set := neededPeers t !! peerId in
  if match set with Some s => bool_decide (type ∈ s) | None => false end then ret tt
  else
    set_needed (<[ peerId := default ∅ set ∪ {[ type ]} ]>) ;;;
    dispatchEvent (peerNeeded peerId) ;;;
    match limit with
    | Some _ => keepPeerSingle peerId type
    | None => ret tt
    end.

Definition isPeerNeeded (peerId : Z) (t : tracker) : bool :=
  bool_decide (is_Some (neededPeers t !! peerId)).

(** Every slot holder is in the demand map and carries the slot's tag. *)
Definition consistent (t : tracker) : Prop :=
  ∀ type peerId, singlePeerMap t !! type = Some peerId →
    ∃ set, neededPeers t !! peerId = Some set ∧ type ∈ set.

(** [neededPeers.get(peerId)] exists and has the tag. *)
Definition tagged (t : tracker) (peerId : Z) (type : string) : Prop :=
  ∃ set, neededPeers t !! peerId = Some set ∧ type ∈ set.

(** No entry of [neededPeers] holds an empty set. *)
Definition tidy (t : tracker) : Prop :=
  ∀ peerId set, neededPeers t !! peerId = Some set → set ≠ ∅.

(** A call of one of the two public methods that change the tracker. *)
Inductive call :=
  | Request (peerId : Z) (type : string) (limit : option Z)
  | KeepSingle (peerId : Z) (type : string).

Definition perform (c : call) : M tracker unit :=
  match c with
  | Request peerId type limit => requestPeer peerId type limit
  | KeepSingle peerId type => keepPeerSingle peerId type
  end.

(** Calls made one after the other on the same manager; a caller that
    catches the [TypeError] of one call goes on with the next. *)
Definition performAll (cs : list call) (t : tracker) : tracker :=
  foldl (λ t c, snd (perform c t)) t cs.

Record request := Req { req_peer : Z; req_type : string; req_limit : option Z }.

(** [requestPeer] for each request in turn; a throw ends the sequence. *)
Fixpoint requestAll (reqs : list request) : M tracker unit :=
  match reqs with
  | [] => ret tt
  | r :: rest => requestPeer (req_peer r) (req_type r) (req_limit r) ;;; requestAll rest
  end.

(** The peers a listener of [peerNeeded] / [peerUnneeded] holds to be
    needed after the given signals. *)
Definition heard (signals : list signal) : gset Z :=
  foldl (λ acc s, match s with
                  | peerNeeded peerId => acc ∪ {[ peerId ]}
                  | peerUnneeded peerId => acc ∖ {[ peerId ]}
                  end) ∅ signals.

End PeerDemand.

(** ** Versioned state container: the snapshot and its load sequence *)

Module StateStore.

(** Values whose shape is owned by other managers (dialogs, chats, users,
    messages, filters, drafts) are carried as uninterpreted payloads. *)
Inductive payload := Payload (json : string).

#[global] Instance payload_eq_dec : EqDecision payload.
Proof. solve_decision. Defined.

Inductive BackgroundType := bg_color | bg_image | bg_default.
Inductive ThemeName := day | night.
Inductive SendShortcut := enter | ctrlEnter.

#[global] Instance BackgroundType_eq_dec : EqDecision BackgroundType.
Proof. solve_decision. Defined.
#[global] Instance ThemeName_eq_dec : EqDecision ThemeName.
Proof. solve_decision. Defined.
#[global] Instance SendShortcut_eq_dec : EqDecision SendShortcut.
Proof. solve_decision. Defined.

Record Background := {
  bg_type : BackgroundType;
  blur : bool;
  highlightningColor : option string;
  color : option string;
  slug : option string
}.

Record Theme := { name : ThemeName; background : Background }.

Record AutoDownload := {
  ad_contacts : bool; ad_private : bool; ad_groups : bool; ad_channels : bool
}.

(** [themes], [theme], [background] and [nightTheme] are the properties whose
    presence the load sequence tests; [None] is a missing property. *)
Record Settings := {
  messagesTextSize : Z;
  sendShortcut : SendShortcut;
  animationsEnabled : bool;
  autoDownload : AutoDownload;
  autoPlay_gifs : bool;
  autoPlay_videos : bool;
  stickers_suggest : bool;
  stickers_loop : bool;
  settings_background : option Background;
  themes : option (list Theme);
  theme : option ThemeName;
  notifications_sound : bool;
  nightTheme : option bool
}.

Record Updates := { seq : option Z; pts : option Z; date : option Z }.

Record AuthState := { auth_tag : string; auth_rest : option payload }.

#[global] Instance Background_eq_dec : EqDecision Background.
Proof. solve_decision. Defined.
#[global] Instance Theme_eq_dec : EqDecision Theme.
Proof. solve_decision. Defined.
#[global] Instance AutoDownload_eq_dec : EqDecision AutoDownload.
Proof. solve_decision. Defined.
#[global] Instance Settings_eq_dec : EqDecision Settings.
Proof. solve_decision. Defined.
#[global] Instance Updates_eq_dec : EqDecision Updates.
Proof. solve_decision. Defined.
#[global] Instance AuthState_eq_dec : EqDecision AuthState.
Proof. solve_decision. Defined.

(** The legacy [user_auth] entry: a bare user id or an object with an [id]. *)
Inductive UserAuth := AuthNumber (id : Z) | AuthObject (id : Z).

(** The keys of [State]. *)
Inductive key :=
  | dialogs | allDialogsLoaded | chats | users | messages | contactsList
  | updates | filters | maxSeenMsgId | stateCreatedTime | recentEmoji
  | topPeers | recentSearch | version | authState | hiddenPinnedMessages
  | settings | keepSigned | drafts.

#[global] Instance key_eq_dec : EqDecision key.
Proof. solve_decision. Defined.

(** A record of peers keyed by peer id; a key can be present with the value
    [undefined] ([Some None] on lookup). *)
Abbreviation peers := (gmap Z (option payload)).

Definition ftype (k : key) : Type :=
  match k with
  | dialogs => list payload
  | allDialogsLoaded => gmap Z bool
  | chats => peers
  | users => peers
  | messages => list payload
  | contactsList => list Z
  | updates => Updates
  | filters => gmap Z payload
  | maxSeenMsgId => Z
  | stateCreatedTime => Z
  | recentEmoji => list string
  | topPeers => list Z
  | recentSearch => list Z
  | version => string
  | authState => AuthState
  | hiddenPinnedMessages => gmap Z Z
  | settings => Settings
  | keepSigned => bool
  | drafts => gmap Z payload
  end.

(** [State] is [Partial<{...}>]: every key may be missing. *)
Definition State : Type := ∀ k : key, option (ftype k).

(** [{}] *)
Definition empty_state : State := λ _, None.

(** [state[key] = value] *)
Definition assign (k : key) (value : option (ftype k)) (state : State) : State :=
  λ k', match decide (k = k') with
        | left e => eq_rect k (λ x, option (ftype x)) value k' e
        | right _ => state k'
        end.

(** [copy] (helpers/object) is a deep copy; on values it is the identity. *)
Definition copy {A} (a : A) : A := a.

Definition REFRESH_EVERY : Z := 24 * 60 * 60 * 1000.

Definition STATE_INIT (STATE_VERSION : string) (loadedAt : Z) : State :=
  λ k, Some
    match k return ftype k with
    | dialogs => []
    | allDialogsLoaded => ∅
    | chats => ∅
    | users => ∅
    | messages => []
    | contactsList => []
    | updates => {| seq := None; pts := None; date := None |}
    | filters => ∅
    | maxSeenMsgId => 0
    | stateCreatedTime => loadedAt          (* Date.now() when the module is evaluated *)
    | recentEmoji => []
    | topPeers => []
    | recentSearch => []
    | version => STATE_VERSION
    | authState => {| auth_tag := "authStateSignIn"; auth_rest := None |}
    | hiddenPinnedMessages => ∅
    | settings =>
        {| messagesTextSize := 16;
           sendShortcut := enter;
           animationsEnabled := true;
           autoDownload := {| ad_contacts := true; ad_private := true;
                              ad_groups := true; ad_channels := true |};
           autoPlay_gifs := true;
           autoPlay_videos := true;
           stickers_suggest := true;
           stickers_loop := true;
           settings_background := None;
           themes := Some [
             {| name := day;
                background := {| bg_type := bg_image; blur := false;
                                 highlightningColor := Some "hsla(85.5319, 36.9171%, 40.402%, 0.4)";
                                 color := None;
                                 slug := Some "ByxGo2lrMFAIAAAAmkJxZabh8eM" |} |};
             {| name := night;
                background := {| bg_type := bg_color; blur := false;
                                 highlightningColor := Some "hsla(0, 0%, 3.82353%, 0.4)";
                                 color := Some "#0f0f0f";
                                 slug := None |} |} ];
           theme := Some day;
           notifications_sound := false;
           nightTheme := None |}
    | keepSigned => true
    | drafts => ∅
    end.

Definition ALL_KEYS : list key :=
  [dialogs; allDialogsLoaded; chats; users; messages; contactsList; updates;
   filters; maxSeenMsgId; stateCreatedTime; recentEmoji; topPeers;
   recentSearch; version; authState; hiddenPinnedMessages; settings;
   keepSigned; drafts].

Definition REFRESH_KEYS : list key :=
  [dialogs; allDialogsLoaded; messages; contactsList; stateCreatedTime;
   updates; maxSeenMsgId; filters; topPeers].

(** What the reads of [ALL_KEYS.concat('user_auth')] resolved to: one value
    (or [undefined]) per key, and the [user_auth] entry last. *)
Record Stored := { arr : State; arr_last : option UserAuth }.

(** The [ALL_KEYS.forEach] of the load: stored value if not [undefined],
    else a copy of the default. *)
Definition hydrate (init : State) (arr : State) : State :=
  foldl (λ state key,
           match arr key with
           | Some value => assign key (Some value) state
           | None => assign key (copy (init key)) state
           end) empty_state ALL_KEYS.

(** [REFRESH_KEYS.forEach(key => state[key] = copy(STATE_INIT[key]))] *)
Definition resetRefreshKeys (init state : State) : State :=
  foldl (λ state key, assign key (copy (init key)) state) state REFRESH_KEYS.

(** [container[peerId]] on a possibly missing record. *)
Definition peerOf (container : option peers) (peerId : Z) : option payload + js_error :=
  match container with
  | Some m => inl (default None (m !! peerId))
  | None => inr (TypeError "Cannot read properties of undefined")
  end.

(** The [recentSearch.forEach] that rebuilds [users] and [chats]. *)
Fixpoint keepRecent (state : State) (recent : list Z) (acc : peers * peers)
  : peers * peers + js_error :=
  match recent with
  | [] => inl acc
  | peerId :: rest =>
      let '(users', chats') := acc in
      if bool_decide (peerId < 0) then
        match peerOf (state chats) peerId with
        | inl c => keepRecent state rest (users', <[ peerId := c ]> chats')
        | inr e => inr e
        end
      else
        match peerOf (state users) peerId with
        | inl u => keepRecent state rest (<[ peerId := u ]> users', chats')
        | inr e => inr e
        end
  end.

(** The body of the staleness branch (lines 207-221). *)
Definition refresh (init state : State) : State + js_error :=
  let state := resetRefreshKeys init state in
  match keepRecent state (default [] (state recentSearch)) (∅, ∅) with
  | inl (users', chats') => inl (assign chats (Some chats') (assign users (Some users') state))
  | inr e => inr e
  end.

(** [(state.stateCreatedTime + REFRESH_EVERY) < time]; a missing timestamp
    gives [NaN], and the comparison is false. *)
Definition isStale (state : State) (time : Z) : bool :=
  match state stateCreatedTime with
  | Some created => bool_decide (created + REFRESH_EVERY < time)
  | None => false
  end.

(** [themes.find(t => t.name === wanted)] followed by
    [theme.background = bg] on the element found. *)
Fixpoint setBackgroundOf (wanted : option ThemeName) (bg : Background) (l : list Theme)
  : list Theme :=
  match l with
  | [] => []
  | t :: rest =>
      if bool_decide (Some (name t) = wanted)
      then {| name := name t; background := bg |} :: rest
      else t :: setBackgroundOf wanted bg rest
  end.

Definition with_themes (s : Settings) (ts : option (list Theme)) : Settings :=
  {| messagesTextSize := messagesTextSize s; sendShortcut := sendShortcut s;
     animationsEnabled := animationsEnabled s; autoDownload := autoDownload s;
     autoPlay_gifs := autoPlay_gifs s; autoPlay_videos := autoPlay_videos s;
     stickers_suggest := stickers_suggest s; stickers_loop := stickers_loop s;
     settings_background := settings_background s; themes := ts;
     theme := theme s; notifications_sound := notifications_sound s;
     nightTheme := nightTheme s |}.

Definition with_theme (s : Settings) (t : option ThemeName) : Settings :=
  {| messagesTextSize := messagesTextSize s; sendShortcut := sendShortcut s;
     animationsEnabled := animationsEnabled s; autoDownload := autoDownload s;
     autoPlay_gifs := autoPlay_gifs s; autoPlay_videos := autoPlay_videos s;
     stickers_suggest := stickers_suggest s; stickers_loop := stickers_loop s;
     settings_background := settings_background s; themes := themes s;
     theme := t; notifications_sound := notifications_sound s;
     nightTheme := nightTheme s |}.

(** Legacy background (lines 224-229): writes into [STATE_INIT], not into
    [state]. Returns the new [STATE_INIT]. *)
Definition migrateBackground (init state : State) : State + js_error :=
  match state settings with
  | None => inr (TypeError "Cannot read properties of undefined (reading 'hasOwnProperty')")
  | Some st =>
      match themes st, settings_background st with
      | None, Some bg =>
          match init settings with
          | None => inr (TypeError "Cannot read properties of undefined (reading 'themes')")
          | Some ist =>
              match themes ist with
              | None => inr (TypeError "Cannot read properties of undefined (reading 'find')")
              | Some ts =>
                  inl (assign settings
                         (Some (with_themes ist (Some (setBackgroundOf (theme ist) (copy bg) ts))))
                         init)
              end
          end
      | _, _ => inl init
      end
  end.

(** Legacy night-theme flag (lines 231-233). Returns the new [state]. *)
Definition migrateTheme (state : State) : State + js_error :=
  match state settings with
  | None => inr (TypeError "Cannot read properties of undefined (reading 'hasOwnProperty')")
  | Some st =>
      match theme st, nightTheme st with
      | None, Some flag =>
          inl (assign settings (Some (with_theme st (Some (if flag then night else day)))) state)
      | _, _ => inl state
      end
  end.

(** Both migrations in source order, on the pair [(STATE_INIT, state)]. *)
Definition migrate (init state : State) : State * State + js_error :=
  match migrateBackground init state with
  | inr e => inr e
  | inl init' =>
      match migrateTheme state with
      | inr e => inr e
      | inl state' => inl (init', state')
      end
  end.

(** Modelled from the spec: [validateInitObject] of helpers/object is not
    among the sources.  "Validate the resulting snapshot against the canonical
    schema (every declared field present, recursively) - fatal if violated":
    every key the schema declares must be present in the snapshot, and so
    must the optional properties of [settings] that the schema declares. *)
Definition declaredIn {A} (schema value : option A) : bool :=
  match schema, value with
  | Some _, None => false
  | _, _ => true
  end.

Definition settingsComplete (schema value : option Settings) : bool :=
  match schema, value with
  | Some i, Some s =>
      declaredIn (themes i) (themes s) && declaredIn (theme i) (theme s)
      && declaredIn (settings_background i) (settings_background s)
      && declaredIn (nightTheme i) (nightTheme s)
  | _, _ => true
  end.

Definition validateInitObject (initObject currentObject : State) : unit + js_error :=
  if forallb (λ k, declaredIn (initObject k) (currentObject k)) ALL_KEYS
     && settingsComplete (initObject settings) (currentObject settings)
  then inl tt
  else inr (ValidationError "snapshot does not match the schema").

End StateStore.

(** ** Promises

    A promise is a cell of the promise heap.  Its [kind] records how it was
    made, which fixes who may settle it: a collaborator ([External]), the
    [resolve] function handed to an executor ([Deferred]), nobody
    ([Settled]: [Promise.resolve(v)] / [Promise.reject(v)]), or the reaction
    job of [then] / [Promise.all].  Reaction jobs are run by [react]; the
    order in which enabled jobs run is left to the caller, so every order the
    microtask queue can produce is covered.  Values are plain data: no
    promise is ever passed to [resolve] or returned from a callback here. *)

Module Promise.

Abbreviation pref := nat.

Inductive pstate (V : Type) :=
  | Pending
  | Fulfilled (v : V)
  | Rejected (reason : V).
Arguments Pending {V}.
Arguments Fulfilled {V} v.
Arguments Rejected {V} reason.

Inductive pkind (H : Type) :=
  | External
  | Deferred
  | Settled
  | Then (src : pref) (onFulfilled onRejected : option H)
  | All (srcs : list pref).
Arguments External {H}.
Arguments Deferred {H}.
Arguments Settled {H}.
Arguments Then {H} src onFulfilled onRejected.
Arguments All {H} srcs.

Record cell (V H : Type) := Cell { kind : pkind H; status : pstate V }.
Arguments Cell {V H} kind status.
Arguments kind {V H} c.
Arguments status {V H} c.

(** The fields of the owning object together with the promise heap. *)
Record world (S V H : Type) := World { fields : S; promises : list (cell V H) }.
Arguments World {S V H} fields promises.
Arguments fields {S V H} w.
Arguments promises {S V H} w.

(** What a program must supply: the meaning of its callbacks, and how a
    thrown error and the result array of [Promise.all] appear as values. *)
Class Handlers (S V H : Type) := {
  interp : H → V → M (world S V H) V;
  of_error : js_error → V;
  of_array : list V → V
}.

Section Machine.
Context {S V H : Type} `{!Handlers S V H}.

Definition status_of (h : list (cell V H)) (p : pref) : pstate V :=
  match h !! p with
  | Some c => status c
  | None => Pending
  end.

(** Running a method of the owning object. *)
Definition onFields {A} (c : M S A) : M (world S V H) A :=
  λ w, let '(r, s) := c (fields w) in (r, World s (promises w)).

Definition newPromise (k : pkind H) (st : pstate V) : M (world S V H) pref :=
  λ w, (inl (length (promises w)), World (fields w) (promises w ++ [Cell k st])).

(** A pending promise takes its final state; a settled one is left alone. *)
Definition settle (p : pref) (st : pstate V) (h : list (cell V H)) : list (cell V H) :=
  match h !! p with
  | Some (Cell k Pending) => <[ p := Cell k st ]> h
  | _ => h
  end.

Definition settleIn (p : pref) (st : pstate V) : M (world S V H) unit :=
  modify (λ w, World (fields w) (settle p st (promises w))).

(** [promise.then(onFulfilled, onRejected)], [Promise.all(srcs)],
    [Promise.resolve(v)], [Promise.reject(v)]. *)
Definition then_ (src : pref) (onFulfilled onRejected : option H) : M (world S V H) pref :=
  newPromise (Then src onFulfilled onRejected) Pending.
Definition all (srcs : list pref) : M (world S V H) pref :=
  newPromise (All srcs) Pending.
Definition resolved (v : V) : M (world S V H) pref := newPromise Settled (Fulfilled v).
Definition rejected (v : V) : M (world S V H) pref := newPromise Settled (Rejected v).

(** Calling the [resolve] function of the executor of promise [p]. *)
Definition resolveDeferred (p : pref) (v : V) : M (world S V H) unit :=
  λ w, match promises w !! p with
       | Some (Cell Deferred Pending) => settleIn p (Fulfilled v) w
       | _ => (inl tt, w)
       end.

(** A collaborator settles one of its promises. *)
Definition settleExternal (p : pref) (outcome : V + V) (w : world S V H) : world S V H :=
  match promises w !! p with
  | Some (Cell External Pending) =>
      World (fields w)
        (settle p (match outcome with inl v => Fulfilled v | inr e => Rejected e end)
           (promises w))
  | _ => w
  end.

Definition runReaction (p : pref) (h : H) (arg : V) (w : world S V H) : world S V H :=
  match interp h arg w with
  | (inl v, w') => World (fields w') (settle p (Fulfilled v) (promises w'))
  | (inr e, w') => World (fields w') (settle p (Rejected (of_error e)) (promises w'))
  end.

Fixpoint firstRejected (h : list (cell V H)) (srcs : list pref) : option V :=
  match srcs with
  | [] => None
  | p :: rest =>
      match status_of h p with
      | Rejected e => Some e
      | _ => firstRejected h rest
      end
  end.

Fixpoint allFulfilled (h : list (cell V H)) (srcs : list pref) : option (list V) :=
  match srcs with
  | [] => Some []
  | p :: rest =>
      match status_of h p, allFulfilled h rest with
      | Fulfilled v, Some vs => Some (v :: vs)
      | _, _ => None
      end
  end.

(** The reaction job that settles promise [p]; nothing happens when [p] is
    not a pending [then] / [Promise.all] promise whose source has settled.
    [Promise.all] rejects with the reason of a rejected source (the first in
    the list when the job finds several; the job can run between two
    rejections) and fulfils with the array of values once all are fulfilled. *)
Definition react (p : pref) (w : world S V H) : world S V H :=
  match promises w !! p with
  | Some (Cell (Then src onFulfilled onRejected) Pending) =>
      match status_of (promises w) src with
      | Pending => w
      | Fulfilled v =>
          match onFulfilled with
          | Some h => runReaction p h v w
          | None => World (fields w) (settle p (Fulfilled v) (promises w))
          end
      | Rejected e =>
          match onRejected with
          | Some h => runReaction p h e w
          | None => World (fields w) (settle p (Rejected e) (promises w))
          end
      end
  | Some (Cell (All srcs) Pending) =>
      match firstRejected (promises w) srcs with
      | Some e => World (fields w) (settle p (Rejected e) (promises w))
      | None =>
          match allFulfilled (promises w) srcs with
          | Some vs => World (fields w) (settle p (Fulfilled (of_array vs)) (promises w))
          | None => w
          end
      end
  | _ => w
  end.

Definition isRejected (st : pstate V) : bool :=
  match st with Rejected _ => true | _ => false end.

(** [extends h h']: the cells of [h] are still in [h'], with their kind. *)
Definition extends (h h' : list (cell V H)) : Prop :=
  ∀ q c, h !! q = Some c → ∃ c', h' !! q = Some c' ∧ kind c' = kind c.

End Machine.

End Promise.

(** ** AppStateManager *)

Module AppState.
Import StateStore Promise.

(** Values that travel through the promises of this manager. [VSnapshot] is
    the reference to the object held in [this.state]. *)
Inductive value :=
  | VUndefined
  | VSnapshot
  | VField (k : key) (v : ftype k)      (* what [sessionStorage.get(k)] found *)
  | VAuth (a : UserAuth)                (* what [sessionStorage.get('user_auth')] found *)
  | VError (e : js_error)
  | VArray (l : list value)
  | VOther (x : payload).

(** The callbacks of the manager. *)
Inductive handler :=
  | onStored (resolve : pref)     (* [(arr) => {...}] of [loadSavedState] *)
  | resolveWith (resolve : pref)  (* the [resolve] given to [.catch] *)
  | getSnapshot.                  (* [() => this.state] *)

Record manager := Manager {
  (* module scope and collaborators *)
  g_STATE_INIT : State;
  g_STATE_VERSION : string;
  now : Z;                                   (* what [Date.now()] returns *)
  rootScope_settings : option Settings;
  broadcasts : list (string * Z);            (* [rootScope.broadcast], oldest first *)
  (* fields *)
  loaded : option pref;
  loadPromises : list pref;
  loadAllPromise : option pref;
  state : option State;
  demand : PeerDemand.tracker                (* [neededPeers], [singlePeerMap] *)
}.

Definition set_init (i : State) (m : manager) : manager :=
  Manager i (g_STATE_VERSION m) (now m) (rootScope_settings m) (broadcasts m)
    (loaded m) (loadPromises m) (loadAllPromise m) (state m) (demand m).
Definition set_now (t : Z) (m : manager) : manager :=
  Manager (g_STATE_INIT m) (g_STATE_VERSION m) t (rootScope_settings m) (broadcasts m)
    (loaded m) (loadPromises m) (loadAllPromise m) (state m) (demand m).
Definition set_rootScope_settings (x : option Settings) (m : manager) : manager :=
  Manager (g_STATE_INIT m) (g_STATE_VERSION m) (now m) x (broadcasts m)
    (loaded m) (loadPromises m) (loadAllPromise m) (state m) (demand m).
Definition broadcast (ev : string) (arg : Z) (m : manager) : manager :=
  Manager (g_STATE_INIT m) (g_STATE_VERSION m) (now m) (rootScope_settings m)
    (broadcasts m ++ [(ev, arg)])
    (loaded m) (loadPromises m) (loadAllPromise m) (state m) (demand m).
Definition set_loaded (x : option pref) (m : manager) : manager :=
  Manager (g_STATE_INIT m) (g_STATE_VERSION m) (now m) (rootScope_settings m) (broadcasts m)
    x (loadPromises m) (loadAllPromise m) (state m) (demand m).
Definition set_loadPromises (x : list pref) (m : manager) : manager :=
  Manager (g_STATE_INIT m) (g_STATE_VERSION m) (now m) (rootScope_settings m) (broadcasts m)
    (loaded m) x (loadAllPromise m) (state m) (demand m).
Definition set_loadAllPromise (x : option pref) (m : manager) : manager :=
  Manager (g_STATE_INIT m) (g_STATE_VERSION m) (now m) (rootScope_settings m) (broadcasts m)
    (loaded m) (loadPromises m) x (state m) (demand m).
Definition set_state (x : option State) (m : manager) : manager :=
  Manager (g_STATE_INIT m) (g_STATE_VERSION m) (now m) (rootScope_settings m) (broadcasts m)
    (loaded m) (loadPromises m) (loadAllPromise m) x (demand m).
Definition set_demand (x : PeerDemand.tracker) (m : manager) : manager :=
  Manager (g_STATE_INIT m) (g_STATE_VERSION m) (now m) (rootScope_settings m) (broadcasts m)
    (loaded m) (loadPromises m) (loadAllPromise m) (state m) x.

(** Position of a key in [ALL_KEYS]. *)
Definition indexOf (k : key) : option nat :=
  fst <$> list_find (λ k', k' = k) ALL_KEYS.

(** [arr[idx]] read at the type of the key stored at [idx]. *)
Definition fieldOf (k : key) (v : value) : option (ftype k) :=
  match v with
  | VField k' x =>
      match decide (k' = k) with
      | left e => Some (eq_rect k' ftype x k e)
      | right _ => None
      end
  | _ => None
  end.

Definition authOf (v : value) : option UserAuth :=
  match v with VAuth a => Some a | _ => None end.

(** The array [Promise.all] resolved with, seen key by key; anything that
    is not the value stored under the key reads as [undefined]. *)
Definition storedOf (v : value) : Stored :=
  match v with
  | VArray l =>
      {| arr := λ k, idx ← indexOf k; x ← l !! idx; fieldOf k x;
         arr_last := x ← last l; authOf x |}
  | _ => {| arr := empty_state; arr_last := None |}
  end.

(** [if(auth)]: a user id of 0 is falsy, an object never is. *)
Definition authId (auth : option UserAuth) : option Z :=
  match auth with
  | Some (AuthNumber id) => if bool_decide (id = 0) then None else Some id
  | Some (AuthObject id) => Some id
  | None => None
  end.

(** The callback given to [Promise.all(...).then] in [loadSavedState],
    up to and including the write of [this.state] (lines 185-254). *)
Definition loadBody (stored : Stored) : M manager unit :=
  m <- get ;;
  let state := hydrate (g_STATE_INIT m) (arr stored) in
  let time := now m in
  state <- (if isStale state time then lift (refresh (g_STATE_INIT m) state)
            else ret state) ;;
  init' <- lift (migrateBackground (g_STATE_INIT m) state) ;;
  modify (set_init init') ;;;
  state <- lift (migrateTheme state) ;;
  lift (validateInitObject init' state) ;;;
  modify (set_state (Some state)) ;;;
  modify (set_state (Some (assign version (Some (g_STATE_VERSION m)) state))) ;;;
  modify (set_rootScope_settings (state settings)) ;;;
  match authId (arr_last stored) with
  | Some id =>
      modify (λ m', set_state
        (assign authState (Some {| auth_tag := "authStateSignedIn"; auth_rest := None |})
           <$> AppState.state m') m') ;;;
      modify (broadcast "user_auth" id)
  | None => ret tt
  end.

(** [this.state[k]] *)
Definition stateField (k : key) (m : manager) : option (ftype k) :=
  match AppState.state m with Some st => st k | None => None end.

Definition snapshotValue (m : manager) : value :=
  match state m with Some _ => VSnapshot | None => VUndefined end.

#[global] Instance handlers : Handlers manager value handler := {
  interp h arg :=
    match h with
    | onStored resolve =>
        onFields (loadBody (storedOf arg)) ;;;
        w <- get ;;
        resolveDeferred (H := handler) resolve (snapshotValue (fields w)) ;;;
        ret VUndefined
    | resolveWith resolve =>
        resolveDeferred (H := handler) resolve arg ;;;
        ret VUndefined
    | getSnapshot =>
        w <- get ;;
        ret (snapshotValue (fields w))
    end;
  of_error := VError;
  of_array := VArray
}.

Abbreviation world := (Promise.world manager value handler).

(** The tail of [addLoadPromise] (lines 269-271). *)
Definition pushLoadPromise (promise : pref) : M world pref :=
  onFields (modify (λ m, set_loadPromises (loadPromises m ++ [promise]) m)) ;;;
  w <- get ;;
  allp <- all (loadPromises (fields w)) ;;
  p <- then_ allp (Some getSnapshot) (Some getSnapshot) ;;
  onFields (modify (set_loadAllPromise (Some p))) ;;;
  ret p.

(** One [sessionStorage.get] per entry of [ALL_KEYS.concat('user_auth')]. *)
Fixpoint startReads (n : nat) : M world (list pref) :=
  match n with
  | O => ret []
  | S n' =>
      p <- newPromise External Pending ;;
      ps <- startReads n' ;;
      ret (p :: ps)
  end.

(** [loadSavedState].  Its last line calls [addLoadPromise(this.loaded)]
    with [this.loaded] just assigned, so that call is [pushLoadPromise]. *)
Definition loadSavedState : M world pref :=
  w <- get ;;
  match loadAllPromise (fields w) with
  | Some p => ret p
  | None =>
      loaded_p <- newPromise Deferred Pending ;;
      reads <- startReads (S (length ALL_KEYS)) ;;
      allp <- all reads ;;
      body <- then_ allp (Some (onStored loaded_p)) None ;;
      then_ body None (Some (resolveWith loaded_p)) ;;;
      onFields (modify (set_loaded (Some loaded_p))) ;;;
      pushLoadPromise loaded_p
  end.

Definition addLoadPromise (promise : pref) : M world pref :=
  w <- get ;;
  match loaded (fields w) with
  | None => loadSavedState
  | Some _ => pushLoadPromise promise
  end.

Definition getState : M world pref :=
  w <- get ;;
  match state (fields w) with
  | None => loadSavedState
  | Some _ => resolved VSnapshot
  end.

(** Everything that can happen to a manager: its methods are called,
    collaborators create and settle promises, reaction jobs run, time passes. *)
Inductive event :=
  | CallLoadSavedState
  | CallAddLoadPromise (promise : pref)
  | CallGetState
  | CallRequestPeer (peerId : Z) (type : string) (limit : option Z)
  | CallKeepPeerSingle (peerId : Z) (type : string)
  | NewExternal
  | Settle (p : pref) (outcome : value + value)
  | React (p : pref)
  | Tick (time : Z).

Definition onDemand {A} (c : M PeerDemand.tracker A) : M manager A :=
  λ m, let '(r, t) := c (demand m) in (r, set_demand t m).

Definition step (e : event) (w : world) : world :=
  match e with
  | CallLoadSavedState => snd (loadSavedState w)
  | CallAddLoadPromise promise => snd (addLoadPromise promise w)
  | CallGetState => snd (getState w)
  | CallRequestPeer peerId type limit =>
      snd (onFields (onDemand (PeerDemand.requestPeer peerId type limit)) w)
  | CallKeepPeerSingle peerId type =>
      snd (onFields (onDemand (PeerDemand.keepPeerSingle peerId type)) w)
  | NewExternal => snd (newPromise External Pending w)
  | Settle p outcome => settleExternal p outcome w
  | React p => react p w
  | Tick time => World (set_now time (fields w)) (promises w)
  end.

Definition run (tr : list event) (w : world) : world := foldl (λ w e, step e w) w tr.

(** Promises of these kinds are settled only by code of this manager that
    fulfils them: the [resolve] of the [loaded] executor, [Promise.resolve],
    and the two [() => this.state] handlers of [addLoadPromise]. *)
Definition neverRejecting (k : pkind handler) : bool :=
  match k with
  | Deferred | Settled => true
  | Then _ (Some getSnapshot) (Some getSnapshot) => true
  | _ => false
  end.

Definition settlesWell (c : cell value handler) : Prop :=
  neverRejecting (kind c) = true → isRejected (status c) = false.

(** The shape of a manager once constructed. *)
Definition wf (w : world) : Prop :=
  Forall settlesWell (promises w) ∧
  is_Some (loaded (fields w)) ∧
  ∃ p src st, loadAllPromise (fields w) = Some p ∧
              promises w !! p = Some (Cell (Then src (Some getSnapshot) (Some getSnapshot)) st).

(** The promise of the read of key [k] ([None]: of ['user_auth']) started by
    the constructor; the promises made by the constructor follow in order. *)
Definition readOf (k : option key) : pref :=
  match k with
  | Some k => S (default O (indexOf k))
  | None => S (length ALL_KEYS)
  end.
Definition reads : list pref := readOf <$> ((Some <$> ALL_KEYS) ++ [None]).
Definition loaded_p : pref := 0%nat.
Definition reads_p : pref := 21%nat.
Definition body_p : pref := 22%nat.
Definition catch_p : pref := 23%nat.
Definition loadAll_src : pref := 24%nat.
Definition loadAll_p : pref := 25%nat.

(** The manager before its constructor has run. *)
Definition blank (STATE_VERSION : string) (loadedAt : Z) : world :=
  World
    {| g_STATE_INIT := STATE_INIT STATE_VERSION loadedAt;
       g_STATE_VERSION := STATE_VERSION;
       now := loadedAt;
       rootScope_settings := None;
       broadcasts := [];
       loaded := None; loadPromises := []; loadAllPromise := None;
       state := None;
       demand := PeerDemand.empty |}
    [].

(** [new AppStateManager()]: the constructor calls [loadSavedState]. *)
Definition boot (STATE_VERSION : string) (loadedAt : Z) : world :=
  snd (loadSavedState (blank STATE_VERSION loadedAt)).

(** [setPeer(peerId, peer)] (lines 295-299): positive ids go to [users],
    all others to [chats].  [hasOwnProperty] is true also for an entry that
    holds [undefined]. *)
Definition setPeer (peerId : Z) (peer : option payload) : M manager unit :=
  m <- get ;;
  match state m with
  | None =>
      throw (TypeError (if bool_decide (0 < peerId)
                        then "Cannot read properties of undefined (reading 'users')"
                        else "Cannot read properties of undefined (reading 'chats')"))
  | Some st =>
      if bool_decide (0 < peerId) then
        match (st users : option peers) with
        | None => throw (TypeError "Cannot read properties of undefined (reading 'hasOwnProperty')")
        | Some container =>
            if bool_decide (is_Some (container !! peerId)) then ret tt
            else modify (set_state
                           (Some (assign users (Some (<[ peerId := peer ]> container)) st)))
        end
      else
        match (st chats : option peers) with
        | None => throw (TypeError "Cannot read properties of undefined (reading 'hasOwnProperty')")
        | Some container =>
            if bool_decide (is_Some (container !! peerId)) then ret tt
            else modify (set_state
                           (Some (assign chats (Some (<[ peerId := peer ]> container)) st)))
        end
  end.

(** The own property [peerId] of the record [setPeer] would write to;
    [Some None] is a property holding [undefined]. *)
Definition peerEntry (peerId : Z) (m : manager) : option (option payload) :=
  match state m with
  | Some st =>
      container ← (if bool_decide (0 < peerId) then st users else st chats : option peers);
      container !! peerId
  | None => None
  end.

(** One [sessionStorage.set({[key]: value})]. *)
Record stateEntry := StateEntry { entry_key : key; entry_value : option (ftype entry_key) }.

(** The manager together with the calls it made on [sessionStorage.set],
    oldest first. *)
Record session := Session { owner : manager; sessionStorage_set : list stateEntry }.

(** [pushToState(key, value)] (lines 287-293). *)
Definition pushToState (k : key) (value : option (ftype k)) : M session unit :=
  s <- get ;;
  match state (owner s) with
  | None => throw (TypeError "Cannot set properties of undefined")
  | Some st =>
      modify (λ s, Session (set_state (Some (assign k value st)) (owner s))
                     (sessionStorage_set s)) ;;;
      modify (λ s, Session (owner s) (sessionStorage_set s ++ [StateEntry k value]))
  end.

(** [pushToState] for each entry in turn; a throw ends the sequence. *)
Fixpoint pushAll (entries : list stateEntry) : M session unit :=
  match entries with
  | [] => ret tt
  | e :: rest => pushToState (entry_key e) (entry_value e) ;;; pushAll rest
  end.

(** The value of key [k] in an entry, if the entry is for [k]. *)
Definition entryFor (k : key) (e : stateEntry) : option (option (ftype k)) :=
  match decide (entry_key e = k) with
  | left eq => Some (eq_rect (entry_key e) (λ x, option (ftype x)) (entry_value e) k eq)
  | right _ => None
  end.

(** What [sessionStorage] was last told about key [k]. *)
Definition lastSet (k : key) (entries : list stateEntry) : option (option (ftype k)) :=
  last (omap (entryFor k) entries).

(** What the load callback publishes. *)
Definition published (m : manager)
  : option State * State * option Settings * list (string * Z) :=
  (state m, g_STATE_INIT m, rootScope_settings m, broadcasts m).

(** Promises whose reaction runs the load callback. *)
Definition storesState (k : pkind handler) : bool :=
  match k with
  | Then _ (Some (onStored _)) _ => true
  | Then _ _ (Some (onStored _)) => true
  | _ => false
  end.

End AppState.

(** ** Documents *)

(** A thumbnail entry ([photoSize], [photoCachedSize], [photoSizeEmpty], ...). *)
Module Photo.
Record PhotoSize := Make {
  tag : string;                       (* the [_] property *)
  type : string;                      (* the size letter *)
  location : string;
  bytes : option (list Byte.byte);
  size : option Z
}.
End Photo.
Abbreviation PhotoSize := Photo.PhotoSize.

Inductive stickerset :=
  | inputStickerSetEmpty
  | inputStickerSetID (id access_hash : string)
  | inputStickerSetShortName (short_name : string).

Inductive attribute :=
  | documentAttributeFilename (file_name : string)
  | documentAttributeAudio (duration : Z) (title performer : option string) (voice : bool)
  | documentAttributeVideo (duration w h : Z) (round_message : bool)
  | documentAttributeSticker (alt : option string) (stickerset : option stickerset)
  | documentAttributeImageSize (w h : Z)
  | documentAttributeAnimated
  | documentAttributeHasStickers.

Module Doc.
Record MTDocument := Make {
  tag : string;   (* the [_] property: ['document'] or ['documentEmpty'] *)
  id : string;
  access_hash : string;
  file_reference : string;
  dc_id : Z;
  size : Z;
  mime_type : option string;
  thumbs : option (list PhotoSize);
  thumb : option PhotoSize;   (* the legacy single thumbnail *)
  attributes : list attribute;
  file_name : option string;
  duration : option Z;
  audioTitle : option string;
  audioPerformer : option string;
  type : option string;
  w : option Z;
  h : option Z;
  stickerEmojiRaw : option string;
  stickerEmoji : option string;
  stickerSetInput : option stickerset;
  sticker : option Z;
  animated : option bool;
  downloaded : bool;
  url : option nat   (* an object URL handed out by [URL.createObjectURL] *)
}.

Definition set_mime_type (x : option string) (d : MTDocument) : MTDocument :=
  Make (tag d) (id d) (access_hash d) (file_reference d) (dc_id d) (size d) x (thumbs d)
    (thumb d) (attributes d) (file_name d) (duration d) (audioTitle d)
    (audioPerformer d) (type d) (w d) (h d) (stickerEmojiRaw d) (stickerEmoji d)
    (stickerSetInput d) (sticker d) (animated d) (downloaded d) (url d).
Definition set_thumbs (x : option (list PhotoSize)) (d : MTDocument) : MTDocument :=
  Make (tag d) (id d) (access_hash d) (file_reference d) (dc_id d) (size d)
    (mime_type d) x (thumb d) (attributes d) (file_name d) (duration d) (audioTitle d)
    (audioPerformer d) (type d) (w d) (h d) (stickerEmojiRaw d) (stickerEmoji d)
    (stickerSetInput d) (sticker d) (animated d) (downloaded d) (url d).
Definition set_thumb (x : option PhotoSize) (d : MTDocument) : MTDocument :=
  Make (tag d) (id d) (access_hash d) (file_reference d) (dc_id d) (size d)
    (mime_type d) (thumbs d) x (attributes d) (file_name d) (duration d) (audioTitle d)
    (audioPerformer d) (type d) (w d) (h d) (stickerEmojiRaw d) (stickerEmoji d)
    (stickerSetInput d) (sticker d) (animated d) (downloaded d) (url d).
Definition set_attributes (x : list attribute) (d : MTDocument) : MTDocument :=
  Make (tag d) (id d) (access_hash d) (file_reference d) (dc_id d) (size d)
    (mime_type d) (thumbs d) (thumb d) x (file_name d) (duration d) (audioTitle d)
    (audioPerformer d) (type d) (w d) (h d) (stickerEmojiRaw d) (stickerEmoji d)
    (stickerSetInput d) (sticker d) (animated d) (downloaded d) (url d).
Definition set_file_name (x : option string) (d : MTDocument) : MTDocument :=
  Make (tag d) (id d) (access_hash d) (file_reference d) (dc_id d) (size d)
    (mime_type d) (thumbs d) (thumb d) (attributes d) x (duration d) (audioTitle d)
    (audioPerformer d) (type d) (w d) (h d) (stickerEmojiRaw d) (stickerEmoji d)
    (stickerSetInput d) (sticker d) (animated d) (downloaded d) (url d).
Definition set_duration (x : option Z) (d : MTDocument) : MTDocument :=
  Make (tag d) (id d) (access_hash d) (file_reference d) (dc_id d) (size d)
    (mime_type d) (thumbs d) (thumb d) (attributes d) (file_name d) x (audioTitle d)
    (audioPerformer d) (type d) (w d) (h d) (stickerEmojiRaw d) (stickerEmoji d)
    (stickerSetInput d) (sticker d) (animated d) (downloaded d) (url d).
Definition set_audioTitle (x : option string) (d : MTDocument) : MTDocument :=
  Make (tag d) (id d) (access_hash d) (file_reference d) (dc_id d) (size d)
    (mime_type d) (thumbs d) (thumb d) (attributes d) (file_name d) (duration d) x
    (audioPerformer d) (type d) (w d) (h d) (stickerEmojiRaw d) (stickerEmoji d)
    (stickerSetInput d) (sticker d) (animated d) (downloaded d) (url d).
Definition set_audioPerformer (x : option string) (d : MTDocument) : MTDocument :=
  Make (tag d) (id d) (access_hash d) (file_reference d) (dc_id d) (size d)
    (mime_type d) (thumbs d) (thumb d) (attributes d) (file_name d) (duration d)
    (audioTitle d) x (type d) (w d) (h d) (stickerEmojiRaw d) (stickerEmoji d)
    (stickerSetInput d) (sticker d) (animated d) (downloaded d) (url d).
Definition set_type (x : option string) (d : MTDocument) : MTDocument :=
  Make (tag d) (id d) (access_hash d) (file_reference d) (dc_id d) (size d)
    (mime_type d) (thumbs d) (thumb d) (attributes d) (file_name d) (duration d)
    (audioTitle d) (audioPerformer d) x (w d) (h d) (stickerEmojiRaw d) (stickerEmoji d)
    (stickerSetInput d) (sticker d) (animated d) (downloaded d) (url d).
Definition set_w (x : option Z) (d : MTDocument) : MTDocument :=
  Make (tag d) (id d) (access_hash d) (file_reference d) (dc_id d) (size d)
    (mime_type d) (thumbs d) (thumb d) (attributes d) (file_name d) (duration d)
    (audioTitle d) (audioPerformer d) (type d) x (h d) (stickerEmojiRaw d)
    (stickerEmoji d) (stickerSetInput d) (sticker d) (animated d) (downloaded d) (url d).
Definition set_h (x : option Z) (d : MTDocument) : MTDocument :=
  Make (tag d) (id d) (access_hash d) (file_reference d) (dc_id d) (size d)
    (mime_type d) (thumbs d) (thumb d) (attributes d) (file_name d) (duration d)
    (audioTitle d) (audioPerformer d) (type d) (w d) x (stickerEmojiRaw d)
    (stickerEmoji d) (stickerSetInput d) (sticker d) (animated d) (downloaded d) (url d).
Definition set_stickerEmojiRaw (x : option string) (d : MTDocument) : MTDocument :=
  Make (tag d) (id d) (access_hash d) (file_reference d) (dc_id d) (size d)
    (mime_type d) (thumbs d) (thumb d) (attributes d) (file_name d) (duration d)
    (audioTitle d) (audioPerformer d) (type d) (w d) (h d) x (stickerEmoji d)
    (stickerSetInput d) (sticker d) (animated d) (downloaded d) (url d).
Definition set_stickerEmoji (x : option string) (d : MTDocument) : MTDocument :=
  Make (tag d) (id d) (access_hash d) (file_reference d) (dc_id d) (size d)
    (mime_type d) (thumbs d) (thumb d) (attributes d) (file_name d) (duration d)
    (audioTitle d) (audioPerformer d) (type d) (w d) (h d) (stickerEmojiRaw d) x
    (stickerSetInput d) (sticker d) (animated d) (downloaded d) (url d).
Definition set_stickerSetInput (x : option stickerset) (d : MTDocument) : MTDocument :=
  Make (tag d) (id d) (access_hash d) (file_reference d) (dc_id d) (size d)
    (mime_type d) (thumbs d) (thumb d) (attributes d) (file_name d) (duration d)
    (audioTitle d) (audioPerformer d) (type d) (w d) (h d) (stickerEmojiRaw d)
    (stickerEmoji d) x (sticker d) (animated d) (downloaded d) (url d).
Definition set_sticker (x : option Z) (d : MTDocument) : MTDocument :=
  Make (tag d) (id d) (access_hash d) (file_reference d) (dc_id d) (size d)
    (mime_type d) (thumbs d) (thumb d) (attributes d) (file_name d) (duration d)
    (audioTitle d) (audioPerformer d) (type d) (w d) (h d) (stickerEmojiRaw d)
    (stickerEmoji d) (stickerSetInput d) x (animated d) (downloaded d) (url d).
Definition set_animated (x : option bool) (d : MTDocument) : MTDocument :=
  Make (tag d) (id d) (access_hash d) (file_reference d) (dc_id d) (size d)
    (mime_type d) (thumbs d) (thumb d) (attributes d) (file_name d) (duration d)
    (audioTitle d) (audioPerformer d) (type d) (w d) (h d) (stickerEmojiRaw d)
    (stickerEmoji d) (stickerSetInput d) (sticker d) x (downloaded d) (url d).
Definition set_downloaded (x : bool) (d : MTDocument) : MTDocument :=
  Make (tag d) (id d) (access_hash d) (file_reference d) (dc_id d) (size d)
    (mime_type d) (thumbs d) (thumb d) (attributes d) (file_name d) (duration d)
    (audioTitle d) (audioPerformer d) (type d) (w d) (h d) (stickerEmojiRaw d)
    (stickerEmoji d) (stickerSetInput d) (sticker d) (animated d) x (url d).
Definition set_url (x : option nat) (d : MTDocument) : MTDocument :=
  Make (tag d) (id d) (access_hash d) (file_reference d) (dc_id d) (size d)
    (mime_type d) (thumbs d) (thumb d) (attributes d) (file_name d) (duration d)
    (audioTitle d) (audioPerformer d) (type d) (w d) (h d) (stickerEmojiRaw d)
    (stickerEmoji d) (stickerSetInput d) (sticker d) (animated d) (downloaded d) x.
Definition set_size (x : Z) (d : MTDocument) : MTDocument :=
  Make (tag d) (id d) (access_hash d) (file_reference d) (dc_id d) x (mime_type d)
    (thumbs d) (thumb d) (attributes d) (file_name d) (duration d) (audioTitle d)
    (audioPerformer d) (type d) (w d) (h d) (stickerEmojiRaw d) (stickerEmoji d)
    (stickerSetInput d) (sticker d) (animated d) (downloaded d) (url d).
End Doc.
Abbreviation MTDocument := Doc.MTDocument.

#[global] Instance stickerset_eq_dec : EqDecision stickerset.
Proof. solve_decision. Defined.
#[global] Instance attribute_eq_dec : EqDecision attribute.
Proof. solve_decision. Defined.

(** What the manager takes from outside: the text wrappers of
    [RichTextProcessor], and the shape of the optional [context] argument
    with the effect of [Object.assign(doc, context)]. *)
Class Environment := {
  wrapPlainText : string → string;
  wrapRichText : string → string;
  context : Type;
  assignContext : MTDocument → context → MTDocument
}.

(** ** AppDocsManager *)

Module AppDocs.
Import Promise.

Inductive Blob := MkBlob (data : list Byte.byte) (mimeType : string).

Inductive value :=
  | VUndefined
  | VNull
  | VBlob (b : Blob)
  | VUrl (u : nat)
  | VError (e : js_error)
  | VArray (l : list value).

(** References to document objects. *)
Abbreviation ref := nat.

(** The callbacks of the manager. *)
Inductive handler :=
  | onDownloaded (doc : ref)   (* [(blob) => {...; return blob}] of [downloadDoc] *)
  | onDownloadFailed           (* [(e) => console.log(...)] of [downloadDoc] *)
  | toObjectURL.               (* [(blob) => URL.createObjectURL(blob)] of [downloadDocThumb] *)

Record InputFileLocation := {
  loc_id : string; loc_access_hash : string; loc_file_reference : string;
  thumb_size : option string
}.


(** Calls made on [apiFileManager], with their arguments. *)
Inductive apiCall :=
  | saveSmallFile (location : string) (bytes : option (list Byte.byte))
  | downloadFile (dc_id : Z) (location : InputFileLocation) (size : Z)
      (mimeType : string) (toFileEntry : option string) (stickerType : option Z)
  | downloadSmallFile (input : InputFileLocation) (dcID : Z)
      (stickerType : option Z) (mimeType : option string).

Record manager := Manager {
  docs : gmap string ref;         (* [this.docs] *)
  thumbs : gmap string pref;      (* [this.thumbs] *)
  objects : list MTDocument;      (* the document objects, by reference *)
  calls : list apiCall;           (* calls made on [apiFileManager], oldest first *)
  objectURLs : nat                (* how many object URLs were created *)
}.

Definition set_docs (f : gmap string ref → gmap string ref) (m : manager) : manager :=
  Manager (f (docs m)) (thumbs m) (objects m) (calls m) (objectURLs m).
Definition set_thumbs (f : gmap string pref → gmap string pref) (m : manager) : manager :=
  Manager (docs m) (f (thumbs m)) (objects m) (calls m) (objectURLs m).
Definition set_objects (f : list MTDocument → list MTDocument) (m : manager) : manager :=
  Manager (docs m) (thumbs m) (f (objects m)) (calls m) (objectURLs m).
Definition log (c : apiCall) (m : manager) : manager :=
  Manager (docs m) (thumbs m) (objects m) (calls m ++ [c]) (objectURLs m).
Definition set_objectURLs (n : nat) (m : manager) : manager :=
  Manager (docs m) (thumbs m) (objects m) (calls m) n.

Definition undefinedError : js_error :=
  TypeError "Cannot read properties of undefined".

(** Reading and writing a document object through its reference. *)
Definition readObject (r : ref) : M manager MTDocument :=
  m <- get ;;
  match objects m !! r with
  | Some d => ret d
  | None => throw undefinedError
  end.

Definition writeObject (r : ref) (f : MTDocument → MTDocument) : M manager unit :=
  modify (set_objects (λ os, match os !! r with
                             | Some d => <[ r := f d ]> os
                             | None => os
                             end)).

(** JavaScript truthiness of an optional string / number. *)
Definition truthyString (s : option string) : bool :=
  match s with Some s => negb (bool_decide (s = "")) | None => false end.
Definition truthyNumber (n : option Z) : bool :=
  match n with Some n => negb (bool_decide (n = 0)) | None => false end.

Abbreviation world := (Promise.world manager value handler).

Section WithEnvironment.
Context {env : Environment}.

(** The thumbnail merge of the already-known branch (lines 17-22); [d] is
    the stored document. *)
Definition mergeThumbs (apiDoc d : MTDocument) : MTDocument + js_error :=
  match Doc.thumbs apiDoc with
  | Some athumbs =>
      match Doc.thumbs d with
      | None => inl (Doc.set_thumbs (Some athumbs) d)
      | Some dthumbs =>
          match athumbs with
          | [] => inr undefinedError                    (* [apiDoc.thumbs[0].bytes] *)
          | a0 :: _ =>
              if bool_decide (is_Some (Photo.bytes a0)) then
                match dthumbs with
                | [] => inr undefinedError              (* [d.thumbs[0].bytes] *)
                | d0 :: _ =>
                    if bool_decide (is_Some (Photo.bytes d0)) then inl d
                    else inl (Doc.set_thumbs (Some (a0 :: dthumbs)) d)
                end
              else inl d
          end
      end
  | None => inl d
  end.

(** Lines 33-45: the legacy [thumb].  [thumbCall] is the call to
    [saveSmallFile], made before anything is written. *)
Definition thumbCall (apiDoc : MTDocument) : option apiCall :=
  match Doc.thumb apiDoc with
  | Some th =>
      if bool_decide (Photo.tag th = "photoCachedSize")
      then Some (saveSmallFile (Photo.location th) (Photo.bytes th))
      else None
  | None => None
  end.

Definition normalizeThumb (apiDoc : MTDocument) : MTDocument + js_error :=
  match Doc.thumb apiDoc with
  | Some th =>
      if bool_decide (Photo.tag th = "photoCachedSize") then
        match Photo.bytes th with
        | None => inr undefinedError                    (* [apiDoc.thumb.bytes.length] *)
        | Some bs =>
            inl (Doc.set_thumb
                   (Some (Photo.Make "photoSize" (Photo.type th) (Photo.location th) None
                            (Some (Z.of_nat (length bs))))) apiDoc)
        end
      else if bool_decide (Photo.tag th = "photoSizeEmpty") then
        inl (Doc.set_thumb None apiDoc)
      else inl apiDoc
  | None => inl apiDoc
  end.

(** One turn of [apiDoc.attributes.forEach] (lines 47-104): the effect on
    the document. *)
Definition applyAttribute (apiDoc : MTDocument) (a : attribute) : MTDocument :=
  match a with
  | documentAttributeFilename file_name =>
      Doc.set_file_name (Some (wrapPlainText file_name)) apiDoc
  | documentAttributeAudio duration title performer voice =>
      Doc.set_type (Some (if voice then "voice" else "audio"))
        (Doc.set_audioPerformer performer
           (Doc.set_audioTitle title
              (Doc.set_duration (Some duration) apiDoc)))
  | documentAttributeVideo duration w h round_message =>
      let apiDoc := Doc.set_h (Some h) (Doc.set_w (Some w)
                      (Doc.set_duration (Some duration) apiDoc)) in
      if bool_decide (is_Some (Doc.thumbs apiDoc)) && round_message
      then Doc.set_type (Some "round") apiDoc
      else Doc.set_type (Some "video") apiDoc
  | documentAttributeSticker alt stickerset =>
      let apiDoc :=
        match alt with
        | Some alt => Doc.set_stickerEmoji (Some (wrapRichText alt))
                        (Doc.set_stickerEmojiRaw (Some alt) apiDoc)
        | None => apiDoc
        end in
      let apiDoc :=
        match stickerset with
        | Some (inputStickerSetID id access_hash) =>
            Doc.set_stickerSetInput (Some (inputStickerSetID id access_hash)) apiDoc
        | _ => apiDoc
        end in
      if bool_decide (Doc.mime_type apiDoc = Some "image/webp")
      then Doc.set_sticker (Some 1) (Doc.set_type (Some "sticker") apiDoc)
      else apiDoc
  | documentAttributeImageSize w h =>
      Doc.set_h (Some h) (Doc.set_w (Some w) apiDoc)
  | documentAttributeAnimated =>
      let apiDoc :=
        if (bool_decide (Doc.mime_type apiDoc = Some "image/gif")
            || bool_decide (Doc.mime_type apiDoc = Some "video/mp4"))
           && bool_decide (is_Some (Doc.thumbs apiDoc))
        then Doc.set_type (Some "gif") apiDoc
        else apiDoc in
      Doc.set_animated (Some true) apiDoc
  | documentAttributeHasStickers => apiDoc
  end.

(** The type an attribute writes, if it writes one, on a document with the
    given MIME type and thumbnails. *)
Definition typeGiven (mime_type : option string) (hasThumbs : bool) (a : attribute)
  : option string :=
  match a with
  | documentAttributeAudio _ _ _ voice => Some (if voice then "voice" else "audio")
  | documentAttributeVideo _ _ _ round_message =>
      Some (if hasThumbs && round_message then "round" else "video")
  | documentAttributeSticker _ _ =>
      if bool_decide (mime_type = Some "image/webp") then Some "sticker" else None
  | documentAttributeAnimated =>
      if (bool_decide (mime_type = Some "image/gif")
          || bool_decide (mime_type = Some "video/mp4")) && hasThumbs
      then Some "gif" else None
  | _ => None
  end.

(** The effect of a turn on the attribute itself:
    [delete attribute.stickerset] for an empty sticker set. *)
Definition attributeAfter (a : attribute) : attribute :=
  match a with
  | documentAttributeSticker alt (Some inputStickerSetEmpty) => documentAttributeSticker alt None
  | _ => a
  end.

Definition applyAttributes (apiDoc : MTDocument) : MTDocument :=
  Doc.set_attributes (attributeAfter <$> Doc.attributes apiDoc)
    (foldl applyAttribute apiDoc (Doc.attributes apiDoc)).

(** Lines 106-128. *)
Definition defaultMimeType (apiDoc : MTDocument) : MTDocument :=
  if truthyString (Doc.mime_type apiDoc) then apiDoc
  else
    Doc.set_mime_type
      (Some (match Doc.type apiDoc with
             | Some "gif" => "video/mp4"
             | Some "video" | Some "round" => "video/mp4"
             | Some "sticker" => "image/webp"
             | Some "audio" => "audio/mpeg"
             | Some "voice" => "audio/ogg"
             | _ => "application/octet-stream"
             end)) apiDoc.

(** Lines 130-142. *)
Definition finishDoc (apiDoc : MTDocument) : MTDocument :=
  let apiDoc :=
    if truthyString (Doc.file_name apiDoc) then apiDoc
    else Doc.set_file_name (Some "") apiDoc in
  let apiDoc :=
    if bool_decide (Doc.mime_type apiDoc = Some "application/x-tgsticker")
       && bool_decide (Doc.file_name apiDoc = Some "AnimatedSticker.tgs")
    then Doc.set_sticker (Some 2) (Doc.set_animated (Some true)
           (Doc.set_type (Some "sticker") apiDoc))
    else apiDoc in
  if bool_decide (Doc.tag apiDoc = "documentEmpty") then Doc.set_size 0 apiDoc
  else apiDoc.

(** [saveDoc(apiDoc, context)]; [apiDoc] is a reference to the caller's
    object, and the result is the reference of the stored object. *)
Definition saveDoc (apiDoc : ref) (ctx : option context) : M manager ref :=
  a <- readObject apiDoc ;;
  m <- get ;;
  match docs m !! Doc.id a with
  | Some dref =>
      d <- readObject dref ;;
      d' <- lift (mergeThumbs a d) ;;
      writeObject dref (λ _, d') ;;;
      match ctx with
      | Some c => writeObject dref (λ d, assignContext d c) ;;; ret dref
      | None => ret dref
      end
  | None =>
      match ctx with
      | Some c => writeObject apiDoc (λ d, assignContext d c)
      | None => ret tt
      end ;;;
      a <- readObject apiDoc ;;
      modify (set_docs (<[ Doc.id a := apiDoc ]>)) ;;;
      match thumbCall a with Some c => modify (log c) | None => ret tt end ;;;
      a <- lift (normalizeThumb a) ;;
      writeObject apiDoc (λ _, finishDoc (defaultMimeType (applyAttributes a))) ;;;
      ret apiDoc
  end.

(** The argument of [getDoc]: a document object or an id. *)
Inductive docArg := ByObject (doc : ref) | ById (docID : string).



(** [getDoc]: [None] is [undefined] (for an id that is not [inherited]). *)
Definition getDoc (docID : docArg) (m : manager) : option ref :=
  match docID with
  | ByObject doc => Some doc
  | ById docID => docs m !! docID
  end.

Definition getInputByID (doc : MTDocument) (thumbSize : option string) : InputFileLocation :=
  {| loc_id := Doc.id doc; loc_access_hash := Doc.access_hash doc;
     loc_file_reference := Doc.file_reference doc; thumb_size := thumbSize |}.

(** [getDoc] followed by the first property read of the result. *)
Definition resolveDoc (docID : docArg) : M world (ref * MTDocument) :=
  w <- get ;;
  match getDoc docID (fields w) with
  | Some r => d <- onFields (readObject r) ;; ret (r, d)
  | None => throw undefinedError
  end.

(** What [apiFileManager.downloadFile] / [downloadSmallFile] hand back: a
    promise they already hold ([Some p]) or a new one ([None]). *)
Definition transferPromise (answer : option pref) : M world pref :=
  match answer with
  | Some p => ret p
  | None => newPromise External Pending
  end.

(** Lines 212-251 of [downloadDoc]: the transfer is started, the
    bookkeeping callbacks are attached, and the transfer promise itself is
    returned. *)
Definition startDownload (r : ref) (doc : MTDocument) (toFileEntry : option string)
    (transfer : option pref) : M world pref :=
  onFields (modify (log (downloadFile (Doc.dc_id doc) (getInputByID doc None) (Doc.size doc)
                           (if truthyString (Doc.mime_type doc)
                            then default "" (Doc.mime_type doc)
                            else "application/octet-stream")
                           toFileEntry (Doc.sticker doc)))) ;;;
  downloadPromise <- transferPromise transfer ;;
  then_ downloadPromise (Some (onDownloaded r)) (Some onDownloadFailed) ;;;
  ret downloadPromise.

(** [downloadDoc(docID, toFileEntry)].  [cachedBlob] is what
    [apiFileManager.getCachedFile] answers and [transfer] what
    [apiFileManager.downloadFile] returns. *)
Definition downloadDoc (docID : docArg) (toFileEntry : option string)
    (cachedBlob : option Blob) (transfer : option pref) : M world pref :=
  found <- resolveDoc docID ;;
  let r := fst found in
  let doc := snd found in
  if bool_decide (Doc.tag doc = "documentEmpty") then rejected VUndefined
  else if Doc.downloaded doc && bool_decide (toFileEntry = None) then
    if bool_decide (is_Some (Doc.url doc)) then resolved VNull
    else
      match cachedBlob with
      | Some b => resolved (VBlob b)
      | None => startDownload r doc toFileEntry transfer
      end
  else startDownload r doc toFileEntry transfer.

(** [doc.id + '-' + thumbSize] *)
Definition thumbKey (id thumbSize : string) : string :=
  String.append id (String.append "-" thumbSize).

Definition downloadDocThumb (docID : docArg) (thumbSize : string)
    (transfer : option pref) : M world pref :=
  found <- resolveDoc docID ;;
  let doc := snd found in
  let key := thumbKey (Doc.id doc) thumbSize in
  w <- get ;;
  match thumbs (fields w) !! key with
  | Some p => ret p
  | None =>
      let input := getInputByID doc (Some thumbSize) in
      if bool_decide (Doc.tag doc = "documentEmpty") then rejected VUndefined
      else
        let mimeType := if truthyNumber (Doc.sticker doc) then Some "image/webp"
                        else Doc.mime_type doc in
        onFields (modify (log (downloadSmallFile input (Doc.dc_id doc)
                                 (if truthyNumber (Doc.sticker doc) then Some 1 else None)
                                 mimeType))) ;;;
        promise <- transferPromise transfer ;;
        p <- then_ promise (Some toObjectURL) None ;;
        onFields (modify (set_thumbs (<[ key := p ]>))) ;;;
        ret p
  end.

Definition hasDownloadedThumb (docID thumbSize : string) (m : manager) : bool :=
  bool_decide (is_Some (thumbs m !! thumbKey docID thumbSize)).


(** [s.split(sep)] for a one-character separator: the pieces between the
    separators, at least one. *)
Fixpoint splitOn (sep : Ascii.ascii) (s : string) : list string :=
  match s with
  | EmptyString => [EmptyString]
  | String c rest =>
      if bool_decide (c = sep) then EmptyString :: splitOn sep rest
      else match splitOn sep rest with
           | piece :: pieces => String c piece :: pieces
           | [] => [String c EmptyString]
           end
  end.

(** ['.' + doc.mime_type.split('/')[1]]; a missing second piece is
    [undefined], which the concatenation prints. *)
Definition mimeExt (mime_type : string) : string :=
  String.append "." (default "undefined" (splitOn "/"%char mime_type !! 1%nat)).

(** [getFileName(doc)] (lines 178-189). *)
Definition getFileName (doc : MTDocument) : string + js_error :=
  if truthyString (Doc.file_name doc) then inl (default "" (Doc.file_name doc))
  else
    match Doc.mime_type doc with
    | None => inr (TypeError "Cannot read properties of undefined (reading 'split')")
    | Some mime_type =>
        let fileExt := mimeExt mime_type in
        let fileExt := if bool_decide (fileExt = ".octet-stream") then "" else fileExt in
        inl (String.append "t_"
               (String.append (if truthyString (Doc.type doc)
                               then default "" (Doc.type doc) else "file")
                  (String.append (Doc.id doc) fileExt)))
    end.

(** [URL.createObjectURL(blob)]: a new URL for a blob, a [TypeError] for
    anything else. *)
Definition createObjectURL (v : value) : M manager nat :=
  match v with
  | VBlob _ =>
      m <- get ;;
      modify (set_objectURLs (S (objectURLs m))) ;;;
      ret (objectURLs m)
  | _ => throw (TypeError "Failed to execute 'createObjectURL' on 'URL'")
  end.

Definition truthy (v : value) : bool :=
  match v with VUndefined | VNull => false | _ => true end.

#[global] Instance handlers : Handlers manager value handler := {
  interp h arg :=
    match h with
    | onDownloaded doc =>
        (if truthy arg then
           onFields (writeObject doc (Doc.set_downloaded true)) ;;;
           d <- onFields (readObject doc) ;;
           if truthyString (Doc.type d) && negb (bool_decide (Doc.sticker d = Some 2)) then
             u <- onFields (createObjectURL arg) ;;
             onFields (writeObject doc (Doc.set_url (Some u)))
           else ret tt
         else ret tt) ;;;
        ret arg
    | onDownloadFailed => ret VUndefined
    | toObjectURL =>
        u <- onFields (createObjectURL arg) ;;
        ret (VUrl u)
    end;
  of_error := VError;
  of_array := VArray
}.

(** Everything that can happen to the manager. *)
Inductive event :=
  | NewObject (doc : MTDocument)            (* a caller builds a document object *)
  | CallSaveDoc (apiDoc : ref) (ctx : option context)
  | CallDownloadDoc (docID : docArg) (toFileEntry : option string)
      (cachedBlob : option Blob) (transfer : option pref)
  | CallDownloadDocThumb (docID : docArg) (thumbSize : string) (transfer : option pref)
  | Settle (p : pref) (outcome : value + value)
  | React (p : pref).

Definition step (e : event) (w : world) : world :=
  match e with
  | NewObject doc => World (set_objects (λ os, os ++ [doc]) (fields w)) (promises w)
  | CallSaveDoc apiDoc ctx => snd (onFields (saveDoc apiDoc ctx) w)
  | CallDownloadDoc docID toFileEntry cachedBlob transfer =>
      snd (downloadDoc docID toFileEntry cachedBlob transfer w)
  | CallDownloadDocThumb docID thumbSize transfer =>
      snd (downloadDocThumb docID thumbSize transfer w)
  | Settle p outcome => settleExternal p outcome w
  | React p => react p w
  end.

Definition run (tr : list event) (w : world) : world := foldl (λ w e, step e w) w tr.


End WithEnvironment.

(** [new AppDocsManager()] *)
Definition empty : world := World (Manager ∅ ∅ [] [] 0) [].


(** The character does not occur in the string. *)
Fixpoint free (c : Ascii.ascii) (s : string) : bool :=
  match s with
  | EmptyString => true
  | String c' rest => negb (bool_decide (c' = c)) && free c rest
  end.

End AppDocs.

(** ** Sample inputs used to replay the code *)

Module Samples.
Import StateStore.

(** A stored snapshot written at time 0 with two recent-search peers. *)
Definition stored_old : Stored :=
  {| arr := λ k,
       match k return option (ftype k) with
       | stateCreatedTime => Some 0
       | dialogs => Some [Payload "dialog 5"]
       | maxSeenMsgId => Some 77
       | topPeers => Some [5; 6]
       | recentSearch => Some [5; -3]
       | users => Some {[ 5 := Some (Payload "user 5"); 6 := Some (Payload "user 6") ]}
       | chats => Some {[ -3 := Some (Payload "chat 3"); -4 := Some (Payload "chat 4") ]}
       | _ => None
       end;
     arr_last := Some (AuthNumber 5) |}.

(** No rich-text decoration and no [context] argument. *)
#[global] Instance plain : Environment := {
  wrapPlainText s := s;
  wrapRichText s := s;
  context := Empty_set;
  assignContext d c := d
}.

Definition placeholder : PhotoSize := Photo.Make "photoStrippedSize" "i" "" None None.
Definition rich : PhotoSize :=
  Photo.Make "photoCachedSize" "m" "loc" (Some [Byte.x01; Byte.x02]) None.

Definition bare (id : string) (thumbs : option (list PhotoSize)) (attributes : list attribute)
  : MTDocument :=
  Doc.Make "document" id "hash" "ref" 2 1024 (Some "image/jpeg") thumbs None attributes
    None None None None None None None None None None None None false None.

(** Id 42 seen twice: first with a byte-less thumbnail only, then with a
    byte-carrying thumbnail and a file name. *)
Definition first42 : MTDocument := bare "42" (Some [placeholder]) [].
Definition second42 : MTDocument :=
  bare "42" (Some [rich]) [documentAttributeFilename "photo.jpg"].

Definition seenOnce : AppDocs.world :=
  AppDocs.run [AppDocs.NewObject first42; AppDocs.CallSaveDoc 0%nat None;
               AppDocs.NewObject second42] AppDocs.empty.
Definition seenTwice : AppDocs.world :=
  AppDocs.run [AppDocs.CallSaveDoc 1%nat None] seenOnce.

(** The same two attributes in both orders. *)
Definition audioThenVideo : list attribute :=
  [documentAttributeAudio 10 None None false; documentAttributeVideo 10 320 240 false].
Definition videoThenAudio : list attribute :=
  [documentAttributeVideo 10 320 240 false; documentAttributeAudio 10 None None false].

(** Document 42 registered, nothing fetched yet. *)
Definition registered42 : AppDocs.world :=
  AppDocs.run [AppDocs.NewObject first42; AppDocs.CallSaveDoc 0%nat None] AppDocs.empty.

Definition savedAlone (doc : MTDocument) : AppDocs.world :=
  AppDocs.run [AppDocs.NewObject doc; AppDocs.CallSaveDoc 0%nat None] AppDocs.empty.

Definition manager_at (time : Z) : AppState.manager :=
  Promise.fields (AppState.run [AppState.Tick time] (AppState.boot "0.4.0" 1000)).

(** Stored settings that lack the theme list and the theme name. *)
Definition incomplete_settings : Settings :=
  {| messagesTextSize := 14; sendShortcut := ctrlEnter; animationsEnabled := false;
     autoDownload := {| ad_contacts := true; ad_private := true;
                        ad_groups := false; ad_channels := false |};
     autoPlay_gifs := true; autoPlay_videos := false;
     stickers_suggest := true; stickers_loop := true;
     settings_background := None; themes := None; theme := None;
     notifications_sound := false; nightTheme := None |}.

Definition stored_incomplete : Stored :=
  {| arr := λ k,
       match k return option (ftype k) with
       | settings => Some incomplete_settings
       | keepSigned => Some false
       | _ => None
       end;
     arr_last := None |}.

(** Settings written by a version that had one background and a night flag. *)
Definition legacy_settings : Settings :=
  {| messagesTextSize := 16; sendShortcut := enter; animationsEnabled := true;
     autoDownload := {| ad_contacts := true; ad_private := true;
                        ad_groups := true; ad_channels := true |};
     autoPlay_gifs := true; autoPlay_videos := true;
     stickers_suggest := true; stickers_loop := true;
     settings_background :=
       Some {| bg_type := bg_color; blur := true; highlightningColor := None;
               color := Some "#112233"; slug := None |};
     themes := None; theme := None;
     notifications_sound := false; nightTheme := Some true |}.

Definition legacy_state : State :=
  assign settings (Some legacy_settings) (STATE_INIT "0.4.0" 1000).

(** A stored snapshot written at time 0 whose recent-search list names a
    user that the stored [users] record does not have. *)
Definition stored_pinned : Stored :=
  {| arr := λ k,
       match k return option (ftype k) with
       | stateCreatedTime => Some 0
       | recentSearch => Some [5; 8]
       | users => Some {[ 5 := Some (Payload "user 5") ]}
       | _ => None
       end;
     arr_last := None |}.

(** A descriptor whose legacy thumbnail claims cached bytes and has none. *)
Definition broken : MTDocument :=
  Doc.set_thumb (Some (Photo.Make "photoCachedSize" "s" "loc" None None)) (bare "9" None []).

(** A voice note that arrives without a MIME type, with a sticker attribute
    among its attributes. *)
Definition untyped : MTDocument :=
  Doc.set_mime_type None
    (bare "11" None [documentAttributeSticker (Some "x") None;
                     documentAttributeAudio 3 None None true;
                     documentAttributeAnimated]).

(** An empty document, as sent for a file that no longer exists. *)
Definition hollow : MTDocument :=
  Doc.Make "documentEmpty" "13" "" "" 0 77 None None None [] None None None None None None
    None None None None None None false None.

Definition blob : AppDocs.Blob := AppDocs.MkBlob [Byte.x01; Byte.x02; Byte.x03] "video/mp4".

(** A video registered on a new manager, nothing fetched yet. *)
Definition video7 : AppDocs.world := savedAlone (bare "7" None audioThenVideo).

End Samples.

(** * Properties *)

(** ** Method bodies that leave a field alone *)

Section Keeps.

Lemma keeps_bind {St A B X} (proj : St → X) (c : M St A) (k : A → M St B) :
  keeps proj c → (∀ a, keeps proj (k a)) → keeps proj (bind c k).
Proof.
  intros Hc Hk s r s'. unfold bind.
  destruct (c s) as [[a|e] s1] eqn:Hcs.
  - intros Hks. rewrite (Hk _ _ _ _ Hks). by eapply Hc.
  - intros [= <- <-]. by eapply Hc.
Qed.

Lemma keeps_ret {St A X} (proj : St → X) (a : A) : keeps proj (ret a).
Proof. by intros s r s' [= <- <-]. Qed.

Lemma keeps_get {St X} (proj : St → X) : keeps proj get.
Proof. by intros s r s' [= <- <-]. Qed.

Lemma keeps_lift {St A X} (proj : St → X) (x : A + js_error) : keeps proj (lift x).
Proof. destruct x; by intros s r s' [= <- <-]. Qed.

Lemma keeps_modify {St X} (proj : St → X) (f : St → St) :
  (∀ s, proj (f s) = proj s) → keeps proj (modify f).
Proof. intros Hf s r s' [= <- <-]. apply Hf. Qed.

Lemma keeps_throw {St A X} (proj : St → X) (e : js_error) : keeps proj (throw (A := A) e).
Proof. by intros s r s' [= <- <-]. Qed.

Lemma keeps_onFields {St V H A X} (proj : St → X) (c : M St A) :
  keeps proj c →
  keeps (λ w : Promise.world St V H, proj (Promise.fields w)) (Promise.onFields c).
Proof.
  intros Hc w r w'. unfold Promise.onFields.
  destruct (c (Promise.fields w)) as [r0 s] eqn:Hcs. intros [= <- <-]. simpl.
  by eapply Hc.
Qed.

Lemma keeps_newPromise {St V H X} (proj : St → X) k st :
  keeps (λ w : Promise.world St V H, proj (Promise.fields w)) (Promise.newPromise k st).
Proof. by intros w r w' [= <- <-]. Qed.

End Keeps.

Ltac keeps_steps :=
  repeat first
    [ apply keeps_bind; [|intros ?]
    | apply keeps_get
    | apply keeps_ret
    | apply keeps_throw
    | apply keeps_lift
    | apply keeps_newPromise
    | apply keeps_onFields
    | apply keeps_modify; intros ?; reflexivity
    | match goal with
      | |- keeps _ (match ?x with _ => _ end) => destruct x
      end ].


(** ** Peer demand tracker *)

Section PeerDemandFacts.
Import PeerDemand.

(** A repeated registration returns without touching any field. *)
Lemma requestPeer_registered peerId type limit t set :
  neededPeers t !! peerId = Some set → type ∈ set →
  requestPeer peerId type limit t = (inl tt, t).
Proof.
  intros Hset Hin. unfold requestPeer, bind, get. simpl.
  rewrite Hset. by rewrite bool_decide_eq_true_2.
Qed.

(** Eviction never touches the demand entry of the peer being registered. *)
Lemma evictHolder_keeps_self peerId type t r t' :
  evictHolder peerId type t = (r, t') →
  neededPeers t' !! peerId = neededPeers t !! peerId.
Proof.
  unfold evictHolder, bind, get, set_needed, dispatchEvent, modify, throw, ret. simpl.
  destruct (singlePeerMap t !! type) as [e|]; simpl; [|by intros [= _ <-]].
  destruct (decide (e ≠ 0)) as [H0|H0];
    [rewrite (bool_decide_eq_true_2 _ H0)|rewrite (bool_decide_eq_false_2 _ H0)];
    simpl; [|by intros [= _ <-]].
  destruct (decide (e ≠ peerId)) as [Hne|Hne];
    [rewrite (bool_decide_eq_true_2 _ Hne)|rewrite (bool_decide_eq_false_2 _ Hne)];
    simpl; [|by intros [= _ <-]].
  destruct (neededPeers t !! e) as [set|]; simpl; [|by intros [= _ <-]].
  destruct (bool_decide (size (set ∖ {[type]}) = 0%nat)); simpl; intros [= _ <-]; simpl.
  - rewrite lookup_delete_ne by done. by rewrite lookup_insert_ne.
  - by rewrite lookup_insert_ne.
Qed.

Lemma requestPeer_then_registered peerId type limit t r t' :
  requestPeer peerId type limit t = (r, t') →
  ∃ set, neededPeers t' !! peerId = Some set ∧ type ∈ set.
Proof.
  unfold requestPeer, bind, get. simpl.
  destruct (neededPeers t !! peerId) as [set|] eqn:Hset; simpl.
  - case_bool_decide as Hin.
    + intros [= _ <-]. eauto.
    + unfold set_needed, dispatchEvent, modify. simpl.
      destruct limit as [l|].
      * unfold keepPeerSingle, bind.
        destruct (evictHolder _ _ _) as [[[]|e] t1] eqn:Hev;
          apply evictHolder_keeps_self in Hev; simpl in Hev;
          rewrite lookup_insert_eq in Hev;
          intros [= _ <-]; simpl; exists (set ∪ {[type]}); split; [done|set_solver|done|set_solver].
      * intros [= _ <-]. simpl. rewrite lookup_insert_eq. eexists; split; [done|set_solver].
  - unfold set_needed, dispatchEvent, modify. simpl.
    destruct limit as [l|].
    + unfold keepPeerSingle, bind.
      destruct (evictHolder _ _ _) as [[[]|e] t1] eqn:Hev;
        apply evictHolder_keeps_self in Hev; simpl in Hev;
        rewrite lookup_insert_eq in Hev;
        intros [= _ <-]; simpl; exists (∅ ∪ {[type]}); split; [done|set_solver|done|set_solver].
    + intros [= _ <-]. simpl. rewrite lookup_insert_eq. eexists; split; [done|set_solver].
Qed.


(** With the holder registered, [keepPeerSingle] does not throw and leaves
    every slot holder registered. *)
Lemma keepPeerSingle_consistent peerId type t r t' :
  consistent t →
  (∃ set, neededPeers t !! peerId = Some set ∧ type ∈ set) →
  keepPeerSingle peerId type t = (r, t') →
  r = inl tt ∧ consistent t'.
Proof.
  intros Hcons (set0 & Hself & Hin0).
  unfold keepPeerSingle, evictHolder, bind, get, set_needed, set_single, dispatchEvent,
    modify, throw, ret. simpl.
  assert (Hplain : consistent
            (Tracker (neededPeers t) (<[type:=peerId]> (singlePeerMap t)) (dispatched t))).
  { intros ty q Hq. simpl in *.
    destruct (decide (type = ty)) as [<-|Hne].
    - rewrite lookup_insert_eq in Hq. injection Hq as <-. eauto.
    - rewrite lookup_insert_ne in Hq by done. by apply Hcons. }
  destruct (singlePeerMap t !! type) as [e|] eqn:He; simpl;
    [|by intros [= <- <-]].
  destruct (decide (e ≠ 0)) as [H0|H0];
    [rewrite (bool_decide_eq_true_2 _ H0)|rewrite (bool_decide_eq_false_2 _ H0)];
    simpl; [|by intros [= <- <-]].
  destruct (decide (e ≠ peerId)) as [Hne|Hne];
    [rewrite (bool_decide_eq_true_2 _ Hne)|rewrite (bool_decide_eq_false_2 _ Hne)];
    simpl; [|by intros [= <- <-]].
  destruct (Hcons _ _ He) as (set & Hset & Hin). rewrite Hset. simpl.
  assert (Hother : ∀ ty q, ty ≠ type → singlePeerMap t !! ty = Some q →
            q = e → ty ∈ set ∖ {[type]}).
  { intros ty q Hty Hq ->. destruct (Hcons _ _ Hq) as (set1 & Hset1 & Hin1).
    rewrite Hset in Hset1. injection Hset1 as <-.
    apply elem_of_difference. split; [done|]. by intros ?%elem_of_singleton. }
  destruct (decide (size (set ∖ {[type]}) = 0%nat)) as [Hsz|Hsz];
    [rewrite (bool_decide_eq_true_2 _ Hsz)|rewrite (bool_decide_eq_false_2 _ Hsz)];
    simpl; intros [= <- <-]; (split; [done|]); intros ty q Hq; simpl in *.
  - destruct (decide (type = ty)) as [<-|Hty].
    + rewrite lookup_insert_eq in Hq. injection Hq as <-.
      exists set0. by rewrite lookup_delete_ne, lookup_insert_ne.
    + rewrite lookup_insert_ne in Hq by done.
      destruct (decide (q = e)) as [->|Hqe].
      * apply size_empty_inv in Hsz.
        specialize (Hother ty e (not_eq_sym Hty) Hq eq_refl).
        apply Hsz in Hother. by apply not_elem_of_empty in Hother.
      * rewrite lookup_delete_ne, lookup_insert_ne by done. by apply Hcons.
  - destruct (decide (type = ty)) as [<-|Hty].
    + rewrite lookup_insert_eq in Hq. injection Hq as <-.
      exists set0. by rewrite lookup_insert_ne.
    + rewrite lookup_insert_ne in Hq by done.
      destruct (decide (q = e)) as [->|Hqe].
      * rewrite lookup_insert_eq. eexists. split; [done|].
        by apply (Hother ty e).
      * rewrite lookup_insert_ne by done. by apply Hcons.
Qed.

(** Through [requestPeer] alone no slot holder ever goes missing, and
    [requestPeer] never throws. *)
Lemma requestPeer_consistent peerId type limit t r t' :
  consistent t →
  requestPeer peerId type limit t = (r, t') →
  r = inl tt ∧ consistent t'.
Proof.
  intros Hcons. unfold requestPeer, bind, get. simpl.
  destruct (match neededPeers t !! peerId with
            | Some s => bool_decide (type ∈ s)
            | None => false
            end) eqn:Hreg; [by intros [= <- <-]|].
  unfold set_needed, dispatchEvent, modify. simpl.
  set (t1 := Tracker (<[peerId := default ∅ (neededPeers t !! peerId) ∪ {[type]}]>
                        (neededPeers t))
                     (singlePeerMap t) (dispatched t ++ [peerNeeded peerId])).
  assert (Hcons1 : consistent t1).
  { intros ty q Hq. simpl in *.
    destruct (Hcons _ _ Hq) as (set & Hset & Hin).
    destruct (decide (q = peerId)) as [->|Hne].
    - rewrite lookup_insert_eq. eexists. split; [done|].
      rewrite Hset. simpl. apply elem_of_union. by left.
    - rewrite lookup_insert_ne by done. eauto. }
  destruct limit as [l|]; [|by intros [= <- <-]].
  apply keepPeerSingle_consistent; [done|].
  eexists. split; [apply lookup_insert_eq|].
  apply elem_of_union. right. by apply elem_of_singleton.
Qed.

Ltac red_tracker :=
  cbv beta iota zeta delta [bind get modify ret throw set_needed set_single
    dispatchEvent neededPeers singlePeerMap dispatched default andb app].
Ltac run_tracker :=
  unfold requestPeer, keepPeerSingle, evictHolder, empty; red_tracker.

(** C5: a repeated [requestPeer] is a no-op that sends no second
    [peerNeeded]; under a limit the previous holder of the type's slot loses
    the tag, is dropped with a [peerUnneeded] once its tag set is empty, and
    only then the new peer is written to [singlePeerMap]. *)
Theorem requestPeer_dedup_and_single_slot (p q : Z) (type : string) (l1 l2 : Z) :
  p ≠ 0 → p ≠ q →
  let once := Tracker {[ p := {[ type ]} ]} ∅ [peerNeeded p] in
  let held := Tracker {[ p := {[ type ]} ]} {[ type := p ]} [peerNeeded p] in
  let asked := Tracker (<[ q := {[ type ]} ]> {[ p := {[ type ]} ]}) {[ type := p ]}
                 [peerNeeded p; peerNeeded q] in
  let evicted := Tracker {[ q := {[ type ]} ]} {[ type := p ]}
                   [peerNeeded p; peerNeeded q; peerUnneeded p] in
  let final := Tracker {[ q := {[ type ]} ]} {[ type := q ]}
                 [peerNeeded p; peerNeeded q; peerUnneeded p] in
  requestPeer p type None empty = (inl tt, once) ∧
  requestPeer p type None once = (inl tt, once) ∧
  requestPeer p type (Some l1) empty = (inl tt, held) ∧
  requestPeer q type (Some l2) held = (inl tt, final) ∧
  evictHolder q type asked = (inl tt, evicted) ∧
  keepPeerSingle q type asked = (inl tt, final) ∧
  isPeerNeeded p final = false ∧ isPeerNeeded q final = true.
Proof.
  intros Hp Hpq.
  assert (Hset : (∅ ∪ {[type]} : gset string) = {[type]}) by apply (left_id_L ∅ (∪)).
  assert (Hout : ({[type]} ∖ {[type]} : gset string) = ∅) by apply difference_diag_L.
  assert (Hev : evictHolder q type
      (Tracker (<[ q := {[ type ]} ]> {[ p := {[ type ]} ]}) {[ type := p ]}
         [peerNeeded p; peerNeeded q]) =
      (inl tt, Tracker {[ q := {[ type ]} ]} {[ type := p ]}
         [peerNeeded p; peerNeeded q; peerUnneeded p])).
  { run_tracker. rewrite lookup_singleton_eq. red_tracker.
    rewrite !bool_decide_eq_true_2 by done. red_tracker.
    rewrite lookup_insert_ne by done. rewrite lookup_singleton_eq. red_tracker.
    rewrite Hout, size_empty. rewrite bool_decide_eq_true_2 by done. red_tracker.
    do 2 f_equal.
    rewrite delete_insert_eq, delete_insert_ne by done.
    by rewrite delete_singleton_eq. }
  assert (Hkeep : keepPeerSingle q type
      (Tracker (<[ q := {[ type ]} ]> {[ p := {[ type ]} ]}) {[ type := p ]}
         [peerNeeded p; peerNeeded q]) =
      (inl tt, Tracker {[ q := {[ type ]} ]} {[ type := q ]}
         [peerNeeded p; peerNeeded q; peerUnneeded p])).
  { unfold keepPeerSingle, bind. rewrite Hev. red_tracker.
    by rewrite insert_singleton_eq. }
  repeat split.
  - run_tracker. rewrite lookup_empty. red_tracker. by rewrite Hset, insert_empty.
  - apply requestPeer_registered with (set := {[type]}).
    + apply lookup_singleton_eq.
    + by apply elem_of_singleton.
  - run_tracker. rewrite !lookup_empty. red_tracker.
    by rewrite Hset, !insert_empty.
  - unfold requestPeer. red_tracker.
    rewrite lookup_singleton_ne by done. red_tracker. rewrite Hset. exact Hkeep.
  - exact Hev.
  - exact Hkeep.
  - unfold isPeerNeeded. simpl. apply bool_decide_eq_false_2.
    rewrite lookup_singleton_ne by done. by intros [? ?].
  - unfold isPeerNeeded. simpl. apply bool_decide_eq_true_2.
    rewrite lookup_singleton_eq. eauto.
Qed.

Lemma requestPeer_dedup_and_single_slot_witness :
  5 ≠ 0 ∧ 5 ≠ 7 ∧
  requestPeer 7 "a" (Some 1) (Tracker {[ 5 := {[ "a" ]} ]} {[ "a" := 5 ]} [peerNeeded 5])
  = (inl tt, Tracker {[ 7 := {[ "a" ]} ]} {[ "a" := 7 ]}
               [peerNeeded 5; peerNeeded 7; peerUnneeded 5]).
Proof.
  split; [lia|]. split; [lia|].
  apply (requestPeer_dedup_and_single_slot 5 7 "a" 1 1); lia.
Defined.

(** C4: the slot map names a holder that has no entry in the demand map
    (reached through the public [keepPeerSingle]).  A limited [requestPeer]
    for another peer then throws on [set.delete] and leaves the old holder in
    [singlePeerMap]. *)
Theorem keepPeerSingle_missing_holder_throws :
  ∃ t0 msg t1,
    keepPeerSingle 5 "a" empty = (inl tt, t0) ∧
    singlePeerMap t0 !! "a" = Some 5 ∧ neededPeers t0 !! 5 = None ∧
    requestPeer 7 "a" (Some 1) t0 = (inr (TypeError msg), t1) ∧
    singlePeerMap t1 !! "a" = Some 5 ∧
    dispatched t1 = [peerNeeded 7].
Proof.
  eexists _, _, _. split; [reflexivity|].
  split; [reflexivity|]. split; [reflexivity|].
  split; [vm_compute; reflexivity|]. split; reflexivity.
Qed.

End PeerDemandFacts.

(** ** The snapshot: hydration, refresh and migrations *)

Section StateStoreFacts.
Import StateStore.

(** Closes decidable goals about concrete keys by evaluation. *)
Ltac decide_keys := apply (bool_decide_unpack _); vm_compute; exact I.

Lemma assign_eq k v (state : State) : assign k v state k = v.
Proof. by destruct k. Qed.

Lemma assign_ne k k' v (state : State) : k ≠ k' → assign k v state k' = state k'.
Proof. intros Hne. unfold assign. by destruct (decide (k = k')). Qed.

Lemma foldl_assign (g : State) keys (state : State) k :
  foldl (λ state key, assign key (g key) state) state keys k
  = if decide (k ∈ keys) then g k else state k.
Proof.
  revert state. induction keys as [|key keys IH]; intros state; simpl.
  - destruct (decide (k ∈ [])) as [Hin|]; [by apply elem_of_nil in Hin|done].
  - rewrite IH. destruct (decide (k ∈ keys)) as [Hin|Hnin].
    + rewrite decide_True; [done|by right].
    + destruct (decide (key = k)) as [->|Hne].
      * rewrite assign_eq. rewrite decide_True; [done|by left].
      * rewrite assign_ne by done. rewrite decide_False; [done|].
        intros [?|?]%elem_of_cons; congruence.
Qed.

Lemma foldl_step_ext {A B} (f g : A → B → A) (l : list B) (a : A) :
  (∀ a b, f a b = g a b) → foldl f a l = foldl g a l.
Proof.
  intros Hfg. revert a. induction l as [|b l IH]; intros a; simpl; [done|].
  by rewrite Hfg, IH.
Qed.

Lemma all_keys k : k ∈ ALL_KEYS.
Proof. destruct k; decide_keys. Qed.

(** After hydration every key holds the stored value if there is one, and
    the default otherwise. *)
Lemma hydrate_spec init arr k :
  hydrate init arr k = match arr k with Some value => Some value | None => init k end.
Proof.
  unfold hydrate.
  rewrite (foldl_step_ext _ (λ state key, assign key
             (match arr key with Some value => Some value | None => init key end) state)).
  - rewrite foldl_assign. rewrite decide_True; [done|apply all_keys].
  - intros state key. unfold copy. by destruct (arr key).
Qed.

Lemma resetRefreshKeys_spec init state k :
  resetRefreshKeys init state k = if decide (k ∈ REFRESH_KEYS) then init k else state k.
Proof. unfold resetRefreshKeys, copy. apply foldl_assign. Qed.


(** The rebuilt [users] / [chats] hold exactly the peers of the recent-search
    list, each with the value the old record had for it. *)
Lemma keepRecent_spec (state : State) recent acc_u acc_c users' chats' :
  keepRecent state recent (acc_u, acc_c) = inl (users', chats') →
  ∀ p : Z,
    users' !! p = (if decide (p ∈ recent ∧ 0 ≤ p)
                   then Some (default None (default ∅ (state users) !! p))
                   else acc_u !! p) ∧
    chats' !! p = (if decide (p ∈ recent ∧ p < 0)
                   then Some (default None (default ∅ (state chats) !! p))
                   else acc_c !! p).
Proof.
  revert acc_u acc_c. induction recent as [|q recent IH]; intros acc_u acc_c;
    cbn [keepRecent].
  - intros [= <- <-] p. split.
    + rewrite decide_False; [done|]. intros [Hin _]. by apply elem_of_nil in Hin.
    + rewrite decide_False; [done|]. intros [Hin _]. by apply elem_of_nil in Hin.
  - case_bool_decide as Hq.
    + destruct (state chats) as [cs|] eqn:Hcs; cbn [peerOf default]; [|done].
      intros Hk p. destruct (IH _ _ Hk p) as [Hu Hc]. split.
      * rewrite Hu. destruct (decide (p ∈ recent ∧ 0 ≤ p)) as [[Hin Hp]|Hn].
        -- rewrite decide_True; [done|]. split; [by right|done].
        -- rewrite decide_False; [done|].
           intros [[->|Hin]%elem_of_cons Hp]; [lia|by apply Hn].
      * rewrite Hc. destruct (decide (p ∈ recent ∧ p < 0)) as [[Hin Hp]|Hn].
        -- rewrite decide_True; [done|]. split; [by right|done].
        -- destruct (decide (p = q)) as [->|Hpq].
           ++ rewrite lookup_insert_eq. rewrite decide_True; [done|]. split; [by left|done].
           ++ rewrite lookup_insert_ne by done. rewrite decide_False; [done|].
              intros [[->|Hin]%elem_of_cons Hp]; [done|by apply Hn].
    + destruct (state users) as [us|] eqn:Hus; cbn [peerOf default]; [|done].
      intros Hk p. destruct (IH _ _ Hk p) as [Hu Hc]. split.
      * rewrite Hu. destruct (decide (p ∈ recent ∧ 0 ≤ p)) as [[Hin Hp]|Hn].
        -- rewrite decide_True; [done|]. split; [by right|done].
        -- destruct (decide (p = q)) as [->|Hpq].
           ++ rewrite lookup_insert_eq. rewrite decide_True; [done|]. split; [by left|lia].
           ++ rewrite lookup_insert_ne by done. rewrite decide_False; [done|].
              intros [[->|Hin]%elem_of_cons Hp]; [done|by apply Hn].
      * rewrite Hc. destruct (decide (p ∈ recent ∧ p < 0)) as [[Hin Hp]|Hn].
        -- rewrite decide_True; [done|]. split; [by right|done].
        -- rewrite decide_False; [done|].
           intros [[->|Hin]%elem_of_cons Hp]; [lia|by apply Hn].
Qed.

Lemma refresh_spec init (state state' : State) :
  refresh init state = inl state' →
  (∀ k, k ∈ REFRESH_KEYS → state' k = init k) ∧
  (∀ k, k ∉ REFRESH_KEYS → k ≠ users → k ≠ chats → state' k = state k) ∧
  ∃ users' chats' : peers,
    state' users = Some users' ∧ state' chats = Some chats' ∧
    ∀ p : Z,
      users' !! p = (if decide (p ∈ default [] (state recentSearch) ∧ 0 ≤ p)
                     then Some (default None (default ∅ (state users) !! p))
                     else None) ∧
      chats' !! p = (if decide (p ∈ default [] (state recentSearch) ∧ p < 0)
                     then Some (default None (default ∅ (state chats) !! p))
                     else None).
Proof.
  unfold refresh.
  destruct (keepRecent _ _ _) as [[users' chats']|e] eqn:Hk; [|done].
  intros [= <-]. pose proof (keepRecent_spec _ _ _ _ _ _ Hk) as Hspec. clear Hk.
  assert (Hsame : ∀ k, k ∉ REFRESH_KEYS → resetRefreshKeys init state k = state k).
  { intros k Hk. rewrite resetRefreshKeys_spec. by rewrite decide_False. }
  rewrite !Hsame in Hspec by decide_keys.
  split; [|split].
  - intros k Hin.
    rewrite !assign_ne by (intros <-; revert Hin; decide_keys).
    rewrite resetRefreshKeys_spec. by rewrite decide_True.
  - intros k Hnin Hu Hc. rewrite !assign_ne by done.
    rewrite resetRefreshKeys_spec. by rewrite decide_False.
  - exists users', chats'. split; [|split].
    + by rewrite assign_ne, assign_eq.
    + by rewrite assign_eq.
    + intros p. destruct (Hspec p) as [Hu Hc]. rewrite Hu, Hc.
      split; by destruct (decide _).
Qed.

Lemma migrateTheme_other (state state' : State) k :
  migrateTheme state = inl state' → k ≠ settings → state' k = state k.
Proof.
  unfold migrateTheme. intros Hm Hk.
  destruct (state settings) as [st|]; [|done].
  destruct (theme st), (nightTheme st); injection Hm as <-; try done.
  by rewrite assign_ne.
Qed.

(** What a normal return of the load callback went through. *)
Lemma loadBody_inv stored m m' :
  AppState.loadBody stored m = (inl tt, m') →
  let init := AppState.g_STATE_INIT m in
  let hyd := hydrate init (arr stored) in
  ∃ st0 init' st1,
    (if isStale hyd (AppState.now m) then refresh init hyd else inl hyd) = inl st0 ∧
    migrateBackground init st0 = inl init' ∧
    migrateTheme st0 = inl st1 ∧
    validateInitObject init' st1 = inl tt ∧
    AppState.g_STATE_INIT m' = init' ∧
    AppState.state m' =
      Some (match AppState.authId (arr_last stored) with
            | Some _ => assign authState
                          (Some {| auth_tag := "authStateSignedIn"; auth_rest := None |})
                          (assign version (Some (AppState.g_STATE_VERSION m)) st1)
            | None => assign version (Some (AppState.g_STATE_VERSION m)) st1
            end).
Proof.
  unfold AppState.loadBody, bind, get, modify, lift, ret, throw. simpl.
  intros Hrun.
  destruct (isStale _ _).
  - destruct (refresh _ _) as [st0|e] eqn:H0; simpl in Hrun; [|done].
    destruct (migrateBackground _ st0) as [init'|e] eqn:H1; simpl in Hrun; [|done].
    destruct (migrateTheme st0) as [st1|e] eqn:H2; simpl in Hrun; [|done].
    destruct (validateInitObject init' st1) as [[]|e] eqn:H3; simpl in Hrun; [|done].
    exists st0, init', st1.
    destruct (AppState.authId _); simpl in Hrun; injection Hrun as <-; done.
  - simpl in Hrun.
    destruct (migrateBackground _ _) as [init'|e] eqn:H1; simpl in Hrun; [|done].
    destruct (migrateTheme _) as [st1|e] eqn:H2; simpl in Hrun; [|done].
    destruct (validateInitObject init' st1) as [[]|e] eqn:H3; simpl in Hrun; [|done].
    eexists _, init', st1.
    destruct (AppState.authId _); simpl in Hrun; injection Hrun as <-; done.
Qed.

Lemma refresh_key_survives (st : State) ver auth k :
  k ∈ REFRESH_KEYS ∨ k = users ∨ k = chats →
  match auth : option Z with
  | Some _ => assign authState (Some {| auth_tag := "authStateSignedIn"; auth_rest := None |})
                (assign version (Some ver) st)
  | None => assign version (Some ver) st
  end k = st k.
Proof.
  intros Hk.
  assert (k ≠ authState ∧ k ≠ version) as [H1 H2].
  { split; intros ->; revert Hk; decide_keys. }
  destruct auth; by rewrite ?assign_ne.
Qed.

(** C7: when the load callback returns, a snapshot older than
    [REFRESH_EVERY] has every key of [REFRESH_KEYS] at its default and its
    [users] / [chats] rebuilt from the recent-search list; a snapshot created
    at the current time keeps the hydrated value of each of these keys. *)
Theorem refresh_policy stored m m' created :
  arr stored stateCreatedTime = Some created →
  AppState.loadBody stored m = (inl tt, m') →
  let init := AppState.g_STATE_INIT m in
  let hyd := hydrate init (arr stored) in
  ∃ st, AppState.state m' = Some st ∧
    (created + REFRESH_EVERY < AppState.now m →
       (∀ k, k ∈ REFRESH_KEYS → st k = init k) ∧
       ∃ users' chats' : peers,
         st users = Some users' ∧ st chats = Some chats' ∧
         ∀ p : Z,
           users' !! p = (if decide (p ∈ default [] (hyd recentSearch) ∧ 0 ≤ p)
                          then Some (default None (default ∅ (hyd users) !! p))
                          else None) ∧
           chats' !! p = (if decide (p ∈ default [] (hyd recentSearch) ∧ p < 0)
                          then Some (default None (default ∅ (hyd chats) !! p))
                          else None)) ∧
    (created = AppState.now m →
       ∀ k, k ∈ REFRESH_KEYS ∨ k = users ∨ k = chats →
         st k = match arr stored k with Some value => Some value | None => init k end).
Proof.
  intros Hcreated Hrun init hyd.
  destruct (loadBody_inv _ _ _ Hrun) as (st0 & init' & st1 & Hst0 & _ & Hth & _ & _ & Hstate).
  fold init in Hst0. fold hyd in Hst0.
  eexists. split; [exact Hstate|].
  assert (Hstamp : hyd stateCreatedTime = Some created).
  { unfold hyd. by rewrite hydrate_spec, Hcreated. }
  assert (Hsettings : ∀ k, k ∈ REFRESH_KEYS ∨ k = users ∨ k = chats → k ≠ settings).
  { intros k Hk ->. revert Hk. decide_keys. }
  split.
  - intros Hold.
    assert (Hstale : isStale hyd (AppState.now m) = true).
    { unfold isStale. rewrite Hstamp. by apply bool_decide_eq_true_2. }
    rewrite Hstale in Hst0. apply refresh_spec in Hst0 as (Hkeys & _ & Hpeers).
    split.
    + intros k Hk. rewrite refresh_key_survives by auto.
      rewrite (migrateTheme_other _ _ _ Hth) by auto. by apply Hkeys.
    + destruct Hpeers as (users' & chats' & Hu & Hc & Hp).
      exists users', chats'.
      rewrite !refresh_key_survives by auto.
      rewrite !(migrateTheme_other _ _ _ Hth) by done. done.
  - intros Hnow k Hk.
    assert (Hfresh : isStale hyd (AppState.now m) = false).
    { unfold isStale. rewrite Hstamp. apply bool_decide_eq_false_2.
      unfold REFRESH_EVERY. lia. }
    rewrite Hfresh in Hst0. injection Hst0 as <-.
    rewrite refresh_key_survives by done.
    rewrite (migrateTheme_other _ _ _ Hth) by auto.
    apply hydrate_spec.
Qed.

(** C8: on a snapshot whose settings already carry [themes] and [theme],
    both migrations leave [STATE_INIT] and the snapshot as they are. *)
Theorem migrate_migrated_noop (init state : State) st ts t :
  state settings = Some st → themes st = Some ts → theme st = Some t →
  migrate init state = inl (init, state).
Proof.
  intros Hst Hts Ht. unfold migrate, migrateBackground, migrateTheme.
  by rewrite Hst, Hts, Ht.
Qed.


Lemma setBackgroundOf_idem wanted bg l :
  setBackgroundOf wanted bg (setBackgroundOf wanted bg l) = setBackgroundOf wanted bg l.
Proof.
  induction l as [|t l IH]; [done|]. simpl.
  case_bool_decide as Ht; simpl.
  - by rewrite bool_decide_eq_true_2.
  - rewrite bool_decide_eq_false_2 by done. by rewrite IH.
Qed.

(** X10: running both migrations again on their own result changes neither
    [STATE_INIT] nor the snapshot, whatever the snapshot was. *)
Lemma migrate_idempotent (init state init1 state1 : State) :
  migrate init state = inl (init1, state1) →
  ∃ init2 state2,
    migrate init1 state1 = inl (init2, state2) ∧
    (∀ k, init2 k = init1 k) ∧ (∀ k, state2 k = state1 k).
Proof.
  unfold migrate.
  destruct (migrateBackground init state) as [i1|e] eqn:Hb; [|done].
  destruct (migrateTheme state) as [s1|e] eqn:Ht; [|done].
  intros [= <- <-].
  unfold migrateBackground in Hb. unfold migrateTheme in Ht.
  destruct (state settings) as [st|] eqn:Hst; [|done].
  assert (Hs1 : ∃ st1, s1 settings = Some st1 ∧ themes st1 = themes st ∧
                       settings_background st1 = settings_background st ∧
                       migrateTheme s1 = inl s1).
  { destruct (theme st) as [th|] eqn:Hth.
    - injection Ht as <-. exists st. repeat split; try done.
      all: unfold migrateTheme; by rewrite Hst, Hth.
    - destruct (nightTheme st) as [flag|] eqn:Hnt; injection Ht as <-.
      + eexists. rewrite assign_eq. repeat split; try done.
        all: unfold migrateTheme; by rewrite assign_eq.
      + exists st. repeat split; try done.
        all: unfold migrateTheme; by rewrite Hst, Hth, Hnt. }
  destruct Hs1 as (st1 & Hst1 & Hthemes & Hbg & Hagain).
  unfold migrateBackground at 1. rewrite Hst1, Hthemes, Hbg, Hagain.
  destruct (themes st) as [ts0|]; [injection Hb as <-; by eexists _, _|].
  destruct (settings_background st) as [bg|]; [|injection Hb as <-; by eexists _, _].
  destruct (init settings) as [ist|] eqn:Hist; [|done].
  destruct (themes ist) as [ts|] eqn:Hts; [|done].
  injection Hb as <-. rewrite assign_eq. cbn [themes with_themes theme].
  eexists _, _. split; [reflexivity|]. split; [|done].
  intros k. destruct (decide (settings = k)) as [<-|Hk].
  - rewrite !assign_eq. by rewrite setBackgroundOf_idem.
  - by rewrite !assign_ne.
Qed.

Lemma refresh_policy_witness :
  ∃ st, AppState.state (snd (AppState.loadBody Samples.stored_old
                               (Samples.manager_at (REFRESH_EVERY + 1)))) = Some st ∧
        st dialogs = Some [] ∧ st maxSeenMsgId = Some 0 ∧ st topPeers = Some [] ∧
        st stateCreatedTime = Some 1000.
Proof.
  destruct (refresh_policy Samples.stored_old (Samples.manager_at (REFRESH_EVERY + 1))
              (snd (AppState.loadBody Samples.stored_old
                      (Samples.manager_at (REFRESH_EVERY + 1)))) 0)
    as (st & Hst & Hold & _).
  - reflexivity.
  - vm_compute. reflexivity.
  - exists st. split; [exact Hst|].
    destruct Hold as [Hkeys _]; [vm_compute; reflexivity|].
    repeat split; rewrite Hkeys; try reflexivity; decide_keys.
Defined.

Lemma migrate_migrated_noop_witness :
  migrate (STATE_INIT "0.4.0" 1000) (hydrate (STATE_INIT "0.4.0" 1000) (arr Samples.stored_old))
  = inl (STATE_INIT "0.4.0" 1000,
         hydrate (STATE_INIT "0.4.0" 1000) (arr Samples.stored_old)).
Proof.
  eapply migrate_migrated_noop; reflexivity.
Defined.

(** Replaying the stale load on the sample: the rebuilt records. *)
Example refresh_sample_peers :
  let m' := snd (AppState.loadBody Samples.stored_old
                   (Samples.manager_at (REFRESH_EVERY + 1))) in
  AppState.stateField users m' = Some ({[ 5 := Some (Payload "user 5") ]} : peers) ∧
  AppState.stateField chats m' = Some ({[ -3 := Some (Payload "chat 3") ]} : peers) ∧
  AppState.stateField recentSearch m' = Some [5; -3] ∧
  AppState.stateField authState m'
    = Some {| auth_tag := "authStateSignedIn"; auth_rest := None |} ∧
  AppState.stateField version m' = Some "0.4.0" ∧
  AppState.broadcasts m' = [("user_auth", 5)].
Proof. vm_compute. repeat split. Qed.

End StateStoreFacts.

(** ** Promise heap: kinds are fixed, only pending cells change *)

Section PromiseFacts.
Import Promise.
Context {S V H : Type} `{!Handlers S V H}.
Implicit Types (h : list (cell V H)) (p q : pref) (st : pstate V).

Lemma settle_length p st h : length (settle p st h) = length h.
Proof.
  unfold settle. destruct (h !! p) as [[k []]|]; try done. apply length_insert.
Qed.

(** Every cell of the old heap is still there after [settle], with the same
    kind; its status changed only if it was the pending cell [p]. *)
Lemma settle_lookup p st h q c :
  h !! q = Some c →
  ∃ c', settle p st h !! q = Some c' ∧ kind c' = kind c ∧
        (status c' = status c ∨ (q = p ∧ status c = Pending ∧ status c' = st)).
Proof.
  intros Hq. unfold settle.
  destruct (h !! p) as [[k stp]|] eqn:Hp; [|by exists c; auto].
  destruct stp; [|by exists c; auto..].
  destruct (decide (p = q)) as [->|Hne].
  - rewrite Hq in Hp. injection Hp as ->.
    exists (Cell k st). rewrite list_lookup_insert_eq by (by eapply lookup_lt_Some).
    simpl. split; [done|]. split; [done|]. by right.
  - exists c. rewrite list_lookup_insert_ne by done. auto.
Qed.

Lemma settle_lookup_None p st h q : h !! q = None → settle p st h !! q = None.
Proof.
  intros Hq. apply lookup_ge_None. rewrite settle_length. by apply lookup_ge_None.
Qed.

Lemma settle_pending p st h k :
  h !! p = Some (Cell k Pending) → settle p st h !! p = Some (Cell k st).
Proof.
  intros Hp. unfold settle. rewrite Hp.
  apply list_lookup_insert_eq. by eapply lookup_lt_Some.
Qed.

Lemma status_of_settle_pending p st h k :
  h !! p = Some (Cell k Pending) → status_of (settle p st h) p = st.
Proof. intros Hp. unfold status_of. by rewrite (settle_pending _ _ _ _ Hp). Qed.


Lemma settle_lookup_ne p st h q : p ≠ q → settle p st h !! q = h !! q.
Proof.
  intros Hne. unfold settle.
  destruct (h !! p) as [[k []]|]; try done. by apply list_lookup_insert_ne.
Qed.

Lemma status_of_settle_ne p st h q :
  p ≠ q → status_of (settle p st h) q = status_of h q.
Proof. intros Hne. unfold status_of. by rewrite settle_lookup_ne. Qed.

Lemma firstRejected_elem h (srcs : list pref) p e :
  p ∈ srcs → status_of h p = Rejected e → is_Some (firstRejected h srcs).
Proof.
  intros Hin Hp. induction srcs as [|q srcs IH]; [by apply elem_of_nil in Hin|].
  simpl. destruct (status_of h q) eqn:Hq; try by eexists.
  - apply IH. apply elem_of_cons in Hin as [->|]; [congruence|done].
  - apply IH. apply elem_of_cons in Hin as [->|]; [congruence|done].
Qed.

End PromiseFacts.

(** ** AppStateManager: the promises it hands out never reject *)

Section AppStateFacts.
Import StateStore Promise AppState.
Arguments loadSavedState : simpl never.
Arguments pushLoadPromise : simpl never.
Arguments loadBody : simpl never.
Arguments react : simpl never.
Arguments settle : simpl never.
Implicit Types (w : world) (h : list (cell value handler)) (p q : pref).

Lemma extends_refl h : extends h h.
Proof. intros q c Hq. eauto. Qed.

Lemma extends_trans h1 h2 h3 : extends h1 h2 → extends h2 h3 → extends h1 h3.
Proof.
  intros H12 H23 q c Hq.
  destruct (H12 _ _ Hq) as (c2 & Hq2 & Hk2).
  destruct (H23 _ _ Hq2) as (c3 & Hq3 & Hk3).
  exists c3. split; [done|congruence].
Qed.

Lemma extends_app h cells : extends h (h ++ cells).
Proof. intros q c Hq. exists c. split; [|done]. by apply lookup_app_l_Some. Qed.

Lemma extends_settle p st h : extends h (settle p st h).
Proof.
  intros q c Hq. destruct (settle_lookup p st h q c Hq) as (c' & ? & ? & _). eauto.
Qed.

Lemma good_settle p st h :
  Forall settlesWell h →
  (∀ k, h !! p = Some (Cell k Pending) → settlesWell (Cell k st)) →
  Forall settlesWell (settle p st h).
Proof.
  intros Hgood Hp. unfold settle.
  destruct (h !! p) as [[k []]|] eqn:E; try done.
  apply Forall_insert; [done|]. by apply Hp.
Qed.

Lemma good_fulfil p v h : Forall settlesWell h → Forall settlesWell (settle p (Fulfilled v) h).
Proof. intros Hgood. apply good_settle; [done|]. by intros k _ _. Qed.

Lemma resolveDeferred_run p v w :
  resolveDeferred (H := handler) p v w = (inl tt, World (fields w) (promises w))
  ∨ resolveDeferred (H := handler) p v w
    = (inl tt, World (fields w) (settle p (Fulfilled v) (promises w))).
Proof.
  unfold resolveDeferred.
  destruct (promises w !! p) as [[[] []]|]; destruct w; auto.
Qed.

Lemma loadBody_fields stored :
  keeps (λ m, (loaded m, loadAllPromise m, loadPromises m)) (loadBody stored).
Proof. unfold loadBody. keeps_steps. Qed.

(** What running a callback can do: the fields it leaves alone, and the
    heap, which is the old one or the old one with one promise fulfilled. *)
Lemma interp_effect hd arg w r w' :
  interp hd arg w = (r, w') →
  loaded (fields w') = loaded (fields w) ∧
  loadAllPromise (fields w') = loadAllPromise (fields w) ∧
  loadPromises (fields w') = loadPromises (fields w) ∧
  (promises w' = promises w ∨ ∃ q v, promises w' = settle q (Fulfilled v) (promises w)).
Proof.
  destruct hd as [resolve|resolve|]; simpl; unfold bind, get, ret, onFields.
  - destruct (loadBody (storedOf arg) (fields w)) as [[[]|e] m'] eqn:Hb;
      apply loadBody_fields in Hb as [= ? ? ?].
    + cbn [fields]. destruct (resolveDeferred_run resolve
                  (snapshotValue m') (World m' (promises w))) as [-> | ->];
        simpl; intros [= <- <-]; simpl; eauto 10.
    + intros [= <- <-]. simpl. auto.
  - destruct (resolveDeferred_run resolve arg w) as [-> | ->];
      simpl; intros [= <- <-]; simpl; eauto 10.
  - intros [= <- <-]. auto.
Qed.

Lemma interp_getSnapshot arg w :
  interp getSnapshot arg w = (inl (snapshotValue (fields w)), w).
Proof. reflexivity. Qed.


Lemma pushLoadPromise_run promise w :
  let n := length (promises w) in
  pushLoadPromise promise w =
    (inl (S n),
     World (set_loadAllPromise (Some (S n))
              (set_loadPromises (loadPromises (fields w) ++ [promise]) (fields w)))
           (promises w ++
              [Cell (All (loadPromises (fields w) ++ [promise])) Pending;
               Cell (Then n (Some getSnapshot) (Some getSnapshot)) Pending])).
Proof.
  unfold pushLoadPromise, bind, get, onFields, modify, all, then_, newPromise, ret.
  simpl. rewrite length_app, Nat.add_1_r. simpl. by rewrite <- app_assoc.
Qed.

Lemma loadSavedState_again w p :
  loadAllPromise (fields w) = Some p → loadSavedState w = (inl p, w).
Proof. intros Hp. unfold loadSavedState, bind, get. cbv beta iota. by rewrite Hp. Qed.

Lemma wf_evolve w fs h' :
  wf w → Forall settlesWell h' → extends (promises w) h' →
  loaded fs = loaded (fields w) → loadAllPromise fs = loadAllPromise (fields w) →
  wf (World fs h').
Proof.
  intros (Hgood & Hloaded & p & src & st & Hp & Hcell) Hgood' Hext Hl Hla.
  split; [done|]. split; [simpl; by rewrite Hl|].
  destruct (Hext _ _ Hcell) as ([k st'] & Hcell' & Hk). simpl in Hk. subst k.
  exists p, src, st'. simpl. by rewrite Hla.
Qed.

Lemma settlesWell_fulfilled k v : settlesWell (Cell k (Fulfilled v)).
Proof. by intros _. Qed.

Lemma settlesWell_pending k : settlesWell (Cell k (@Pending value)).
Proof. by intros _. Qed.

(** Running the reaction of [p] keeps every never-rejecting promise
    unrejected. *)
Lemma react_good p w : Forall settlesWell (promises w) → Forall settlesWell (promises (react p w)).
Proof.
  intros Hgood. unfold react.
  destruct (promises w !! p) as [[k stp]|] eqn:Hp; [|done].
  destruct k as [| | |src onF onR|srcs]; try done; destruct stp; try done.
  - destruct (status_of (promises w) src) as [|v|e]; [done| |].
    + destruct onF as [hd|]; [|simpl; by apply good_fulfil].
      unfold runReaction.
      destruct (interp hd v w) as [[v'|e] w'] eqn:Hrun; simpl.
      * apply good_fulfil.
        apply interp_effect in Hrun as (_ & _ & _ & [-> | (q & x & ->)]);
          [done|by apply good_fulfil].
      * pose proof Hrun as Heff.
        apply interp_effect in Heff as (_ & _ & _ & Hheap).
        assert (Hgood' : Forall settlesWell (promises w')).
        { destruct Hheap as [-> | (q & x & ->)]; [done|by apply good_fulfil]. }
        apply good_settle; [done|]. intros k Hk.
        assert (k = Then src (Some hd) onR) as ->.
        { destruct Hheap as [Heq | (q & x & Heq)]; rewrite Heq in Hk.
          - rewrite Hp in Hk. by injection Hk.
          - destruct (settle_lookup q (Fulfilled x) _ _ _ Hp) as (c' & Hc' & Hkind & _).
            rewrite Hk in Hc'. injection Hc' as <-. done. }
        destruct hd; by intros [=].
    + destruct onR as [hd|].
      2:{ simpl. apply good_settle; [done|]. intros k Hk.
          rewrite Hp in Hk. injection Hk as <-.
          intros Hnr. simpl in Hnr. by destruct onF as [[]|]. }
      unfold runReaction.
      destruct (interp hd e w) as [[v'|e'] w'] eqn:Hrun; simpl.
      * apply good_fulfil.
        apply interp_effect in Hrun as (_ & _ & _ & [-> | (q & x & ->)]);
          [done|by apply good_fulfil].
      * pose proof Hrun as Heff.
        apply interp_effect in Heff as (_ & _ & _ & Hheap).
        assert (Hgood' : Forall settlesWell (promises w')).
        { destruct Hheap as [-> | (q & x & ->)]; [done|by apply good_fulfil]. }
        apply good_settle; [done|]. intros k Hk.
        assert (k = Then src onF (Some hd)) as ->.
        { destruct Hheap as [Heq | (q & x & Heq)]; rewrite Heq in Hk.
          - rewrite Hp in Hk. by injection Hk.
          - destruct (settle_lookup q (Fulfilled x) _ _ _ Hp) as (c' & Hc' & Hkind & _).
            rewrite Hk in Hc'. injection Hc' as <-. done. }
        destruct hd; intros Hnr; simpl in Hnr; by destruct onF as [[]|].
  - destruct (firstRejected _ _) as [e|]; simpl.
    + apply good_settle; [done|]. intros k Hk. rewrite Hp in Hk. by injection Hk as <-.
    + destruct (allFulfilled _ _); [simpl; by apply good_fulfil|done].
Qed.

Lemma react_extends p w : extends (promises w) (promises (react p w)).
Proof.
  assert (Hrun : ∀ hd arg, extends (promises w) (promises (runReaction p hd arg w))).
  { intros hd arg. unfold runReaction.
    destruct (interp hd arg w) as [[v'|e] w'] eqn:Hrun; simpl;
      (eapply extends_trans; [|apply extends_settle]);
      apply interp_effect in Hrun as (_ & _ & _ & [-> | (q & x & ->)]);
      auto using extends_refl, extends_settle. }
  unfold react.
  destruct (promises w !! p) as [[k stp]|] eqn:Hp; [|apply extends_refl].
  destruct k as [| | |src onF onR|srcs]; try apply extends_refl;
    destruct stp; try apply extends_refl.
  - destruct (status_of (promises w) src) as [|v|e]; [apply extends_refl| |].
    + destruct onF; [apply Hrun|apply extends_settle].
    + destruct onR; [apply Hrun|apply extends_settle].
  - destruct (firstRejected _ _); [apply extends_settle|].
    destruct (allFulfilled _ _); [apply extends_settle|apply extends_refl].
Qed.

Lemma react_fields p w :
  loaded (fields (react p w)) = loaded (fields w) ∧
  loadAllPromise (fields (react p w)) = loadAllPromise (fields w).
Proof.
  assert (Hrun : ∀ hd arg,
    loaded (fields (runReaction p hd arg w)) = loaded (fields w) ∧
    loadAllPromise (fields (runReaction p hd arg w)) = loadAllPromise (fields w)).
  { intros hd arg. unfold runReaction.
    destruct (interp hd arg w) as [[v'|e] w'] eqn:Hrun; simpl;
      by apply interp_effect in Hrun as (? & ? & _). }
  unfold react.
  destruct (promises w !! p) as [[k stp]|] eqn:Hp; [|done].
  destruct k as [| | |src onF onR|srcs]; try done; destruct stp; try done.
  - destruct (status_of (promises w) src) as [|v|e]; [done| |].
    + by destruct onF.
    + by destruct onR.
  - destruct (firstRejected _ _); [done|]. by destruct (allFulfilled _ _).
Qed.


Lemma wf_fields w fs :
  wf w → loaded fs = loaded (fields w) → loadAllPromise fs = loadAllPromise (fields w) →
  wf (World fs (promises w)).
Proof. intros Hwf. apply (wf_evolve w); [done|apply Hwf|apply extends_refl]. Qed.

Lemma step_wf e w : wf w → wf (step e w).
Proof.
  intros Hwf. pose proof Hwf as (Hgood & [l Hl] & pa & src & st & Hpa & Hcell).
  destruct e as [|promise| |peerId type limit|peerId type| |p outcome|p|time]; simpl.
  - by rewrite (loadSavedState_again _ _ Hpa).
  - unfold addLoadPromise, bind, get. simpl. rewrite Hl.
    rewrite pushLoadPromise_run. simpl.
    split; [|split].
    + simpl. apply Forall_app. split; [done|].
      by repeat constructor.
    + simpl. by rewrite Hl.
    + eexists _, _, _. split; [reflexivity|]. simpl.
      rewrite lookup_app_r by lia.
      by replace (S (length (promises w)) - length (promises w))%nat with 1%nat by lia.
  - unfold getState, bind, get. simpl.
    destruct (state (fields w)).
    + unfold resolved, newPromise. simpl.
      apply (wf_evolve w); [done| |apply extends_app|done|done].
      apply Forall_app. split; [done|]. by repeat constructor.
    + by rewrite (loadSavedState_again _ _ Hpa).
  - unfold onFields, onDemand.
    destruct (PeerDemand.requestPeer _ _ _ _). simpl. by apply (wf_fields w).
  - unfold onFields, onDemand.
    destruct (PeerDemand.keepPeerSingle _ _ _). simpl. by apply (wf_fields w).
  - apply (wf_evolve w); [done| |apply extends_app|done|done].
    apply Forall_app. split; [done|]. by repeat constructor.
  - unfold settleExternal.
    destruct (promises w !! p) as [[[] []]|] eqn:Hp; try done.
    apply (wf_evolve w); [done| |apply extends_settle|done|done].
    apply good_settle; [done|]. intros k Hk. rewrite Hp in Hk. by injection Hk as <-.
  - destruct (react_fields p w) as [Hl' Hpa'].
    destruct (react p w) as [fs h'] eqn:Hr.
    apply (wf_evolve w); [done| | |done|done].
    + pose proof (react_good p w Hgood) as Hg. by rewrite Hr in Hg.
    + pose proof (react_extends p w) as Hg. by rewrite Hr in Hg.
  - by apply (wf_fields w).
Qed.

Lemma step_extends e w : wf w → extends (promises w) (promises (step e w)).
Proof.
  intros (Hgood & [l Hl] & pa & src & st & Hpa & Hcell).
  destruct e as [|promise| |peerId type limit|peerId type| |p outcome|p|time]; simpl.
  - rewrite (loadSavedState_again _ _ Hpa). apply extends_refl.
  - unfold addLoadPromise, bind, get. simpl. rewrite Hl.
    rewrite pushLoadPromise_run. apply extends_app.
  - unfold getState, bind, get. simpl.
    destruct (state (fields w)).
    + apply extends_app.
    + rewrite (loadSavedState_again _ _ Hpa). apply extends_refl.
  - unfold onFields, onDemand.
    destruct (PeerDemand.requestPeer _ _ _ _). apply extends_refl.
  - unfold onFields, onDemand.
    destruct (PeerDemand.keepPeerSingle _ _ _). apply extends_refl.
  - apply extends_app.
  - unfold settleExternal.
    destruct (promises w !! p) as [[[] []]|]; try apply extends_refl.
    apply extends_settle.
  - apply react_extends.
  - apply extends_refl.
Qed.

Lemma run_snoc tr e w : run (tr ++ [e]) w = step e (run tr w).
Proof. unfold run. by rewrite foldl_app. Qed.

Lemma run_app tr1 tr2 w : run (tr1 ++ tr2) w = run tr2 (run tr1 w).
Proof. unfold run. by rewrite foldl_app. Qed.

Lemma run_wf tr w : wf w → wf (run tr w).
Proof.
  induction tr as [|e tr IH] using rev_ind; [done|].
  intros Hwf. rewrite run_snoc. by apply step_wf, IH.
Qed.

Lemma run_extends tr w : wf w → extends (promises w) (promises (run tr w)).
Proof.
  induction tr as [|e tr IH] using rev_ind; intros Hwf; [apply extends_refl|].
  rewrite run_snoc. eapply extends_trans; [by apply IH|].
  by apply step_extends, run_wf.
Qed.

Lemma boot_wf ver t : wf (boot ver t).
Proof.
  split; [|split].
  - assert (Hall : forallb (λ c, negb (neverRejecting (kind c)) || negb (isRejected (status c)))
                     (promises (boot ver t)) = true) by (vm_compute; reflexivity).
    apply Forall_forall. intros c Hc%list_elem_of_In.
    rewrite forallb_forall in Hall. specialize (Hall c Hc).
    intros Hk. rewrite Hk in Hall. simpl in Hall. by apply negb_true_iff in Hall.
  - exists loaded_p. vm_compute. reflexivity.
  - exists loadAll_p, loadAll_src, Pending. split; vm_compute; reflexivity.
Qed.

(** A never-rejecting promise of a constructed manager is not rejected in
    any future of that manager. *)
Lemma never_rejected w p c tr :
  wf w → promises w !! p = Some c → neverRejecting (kind c) = true →
  isRejected (status_of (promises (run tr w)) p) = false.
Proof.
  intros Hwf Hp Hk.
  destruct (run_extends tr w Hwf _ _ Hp) as (c' & Hp' & Hk').
  destruct (run_wf tr w Hwf) as (Hgood & _).
  unfold status_of. rewrite Hp'.
  eapply Forall_lookup_1 in Hgood; [|exact Hp'].
  apply Hgood. by rewrite Hk'.
Qed.






(** The reaction of an [addLoadPromise] promise: whichever way its
    [Promise.all] settled, it is fulfilled with [this.state]. *)
Lemma react_getSnapshot w p src :
  promises w !! p = Some (Cell (Then src (Some getSnapshot) (Some getSnapshot)) Pending) →
  status_of (promises w) src ≠ Pending →
  react p w = World (fields w) (settle p (Fulfilled (snapshotValue (fields w))) (promises w)).
Proof.
  intros Hp Hsrc. unfold react. rewrite Hp.
  destruct (status_of (promises w) src); [done| |];
    unfold runReaction; by rewrite interp_getSnapshot.
Qed.

(** The promise returned by [addLoadPromise] is [Promise.all] of the
    registered promises followed by two [() => this.state] handlers.  It is
    never rejected; once that [Promise.all] has settled, fulfilled or
    rejected, its reaction fulfils it with [this.state] as it is then, which
    is the snapshot only when the load callback has already written it; and a
    rejected dependency does reject the [Promise.all]. *)
Theorem addLoadPromise_swallows ver t tr dep :
  let w := run tr (boot ver t) in
  let src := length (promises w) in
  let p := S src in
  let w' := snd (addLoadPromise dep w) in
  fst (addLoadPromise dep w) = inl p ∧
  promises w' !! p = Some (Cell (Then src (Some getSnapshot) (Some getSnapshot)) Pending) ∧
  promises w' !! src = Some (Cell (All (loadPromises (fields w) ++ [dep])) Pending) ∧
  ∀ tr',
    let w2 := run tr' w' in
    isRejected (status_of (promises w2) p) = false ∧
    (status_of (promises w2) p = Pending →
     status_of (promises w2) src ≠ Pending →
     status_of (promises (react p w2)) p = Fulfilled (snapshotValue (fields w2)) ∧
     (is_Some (state (fields w2)) →
      status_of (promises (react p w2)) p = Fulfilled VSnapshot)) ∧
    (status_of (promises w2) src = Pending →
     (∃ e, status_of (promises w2) dep = Rejected e) →
     ∃ e, status_of (promises (react src w2)) src = Rejected e).
Proof.
  intros w src p w'.
  assert (Hwf : wf w) by apply run_wf, boot_wf.
  pose proof Hwf as (Hgood & [l Hl] & _).
  pose proof (step_wf (CallAddLoadPromise dep) w Hwf) as Hwf'.
  cbn [step] in Hwf'. fold w' in Hwf'.
  assert (Hadd : addLoadPromise dep w = pushLoadPromise dep w).
  { unfold addLoadPromise, bind, get. cbv beta iota. by rewrite Hl. }
  pose proof (pushLoadPromise_run dep w) as Hpush. cbv zeta in Hpush.
  rewrite <- Hadd in Hpush. fold src in Hpush.
  assert (Hw' : promises w' = promises w ++
              [Cell (All (loadPromises (fields w) ++ [dep])) Pending;
               Cell (Then src (Some getSnapshot) (Some getSnapshot)) Pending]).
  { unfold w'. by rewrite Hpush. }
  assert (Hp : promises w' !! p
               = Some (Cell (Then src (Some getSnapshot) (Some getSnapshot)) Pending)).
  { rewrite Hw'. rewrite lookup_app_r by (unfold p, src; lia).
    by replace (p - length (promises w))%nat with 1%nat by (unfold p, src; lia). }
  assert (Hsrc : promises w' !! src
                 = Some (Cell (All (loadPromises (fields w) ++ [dep])) Pending)).
  { rewrite Hw'. rewrite lookup_app_r by (unfold src; lia).
    by replace (src - length (promises w))%nat with 0%nat by (unfold src; lia). }
  split; [by rewrite Hpush|]. split; [done|]. split; [done|].
  intros tr' w2.
  pose proof (run_extends tr' _ Hwf') as Hext. fold w2 in Hext.
  split; [|split].
  - by eapply never_rejected.
  - intros Hpend Hsettled.
    destruct (Hext _ _ Hp) as ([k st] & Hp2 & Hk). simpl in Hk. subst k.
    unfold status_of in Hpend. rewrite Hp2 in Hpend. simpl in Hpend. subst st.
    rewrite (react_getSnapshot _ _ _ Hp2 Hsettled). cbn [promises].
    rewrite (status_of_settle_pending _ _ _ _ Hp2).
    split; [done|]. intros [st Hst]. unfold snapshotValue. by rewrite Hst.
  - intros Hpend [e He].
    destruct (Hext _ _ Hsrc) as ([k st] & Hs2 & Hk). simpl in Hk. subst k.
    unfold status_of in Hpend. rewrite Hs2 in Hpend. simpl in Hpend. subst st.
    destruct (firstRejected_elem (promises w2) (loadPromises (fields w) ++ [dep]) dep e)
      as [e' He']; [apply elem_of_app; right; by apply list_elem_of_singleton|done|].
    exists e'. unfold react. rewrite Hs2, He'. cbn [promises].
    by rewrite (status_of_settle_pending _ _ _ _ Hs2).
Qed.

(** A dependency created after the load has completed with nothing stored,
    registered, and then rejected: the returned promise is fulfilled with the
    snapshot. *)
Lemma addLoadPromise_swallows_witness :
  let w := run (((λ p, Settle p (inl VUndefined)) <$> reads) ++
                [React reads_p; React body_p; React catch_p;
                 React loadAll_src; React loadAll_p; NewExternal])%list
             (boot "0.4.0" 1000) in
  let dep := 26%nat in
  let w2 := run [Settle dep (inr (VError (ExternalError 7))); React 27%nat]
              (snd (addLoadPromise dep w)) in
  status_of (promises w2) 28%nat = Pending ∧
  status_of (promises w2) 27%nat ≠ Pending ∧
  status_of (promises (react 28%nat w2)) 28%nat = Fulfilled VSnapshot.
Proof.
  intros w dep w2.
  assert (H1 : status_of (promises w2) 28%nat = Pending) by (vm_compute; reflexivity).
  assert (H2 : status_of (promises w2) 27%nat ≠ Pending) by (vm_compute; discriminate).
  split; [exact H1|]. split; [exact H2|].
  destruct (addLoadPromise_swallows "0.4.0" 1000
              (((λ p, Settle p (inl VUndefined)) <$> reads) ++
               [React reads_p; React body_p; React catch_p;
                React loadAll_src; React loadAll_p; NewExternal])%list dep)
    as (_ & _ & _ & Hfuture).
  destruct (Hfuture [Settle dep (inr (VError (ExternalError 7))); React 27%nat])
    as (_ & Hreact & _).
  assert (Hlen : length (promises w) = 27%nat) by (vm_compute; reflexivity).
  fold w in Hreact. rewrite Hlen in Hreact. fold w2 in Hreact.
  destruct (Hreact H1 H2) as [_ Hloaded]. apply Hloaded.
  vm_compute. by eexists.
Defined.

(** C6: a dependency that fails before the load has finished.  [Promise.all]
    rejects at once, so the reject handler [() => this.state] runs while
    [this.state] is still [undefined]: the promise that [addLoadPromise]
    returned is fulfilled with [undefined], not with the snapshot.  It keeps
    that value after the load has completed and written the snapshot (the
    promise [loaded] carries it), and [loadSavedState] goes on returning it. *)
Theorem addLoadPromise_early_failure_undefined :
  let w := run [NewExternal; CallAddLoadPromise 26%nat;
                Settle 26%nat (inr (VError (ExternalError 7)));
                React 27%nat; React 28%nat]
             (boot "0.4.0" 1000) in
  let w' := run (((λ p, Settle p (inl VUndefined)) <$> reads) ++
                 [React reads_p; React body_p; React catch_p])%list w in
  status_of (promises w) 28%nat = Fulfilled VUndefined ∧
  status_of (promises w') loaded_p = Fulfilled VSnapshot ∧
  snapshotValue (fields w') = VSnapshot ∧
  fst (loadSavedState w') = inl 28%nat ∧
  status_of (promises w') 28%nat = Fulfilled VUndefined.
Proof. vm_compute. repeat split. Qed.

(** Replaying the constructor and a load with nothing stored. *)
Example boot_load_sample :
  let w := run (((λ p, Settle p (inl VUndefined)) <$> reads) ++
                [React reads_p; React body_p; React catch_p;
                 React loadAll_src; React loadAll_p])%list
             (boot "0.4.0" 1000) in
  status_of (promises w) loaded_p = Fulfilled VSnapshot ∧
  status_of (promises w) loadAll_p = Fulfilled VSnapshot ∧
  stateField version (fields w) = Some "0.4.0" ∧
  stateField stateCreatedTime (fields w) = Some 1000 ∧
  rootScope_settings (fields w) = STATE_INIT "0.4.0" 1000 settings.
Proof. vm_compute. repeat split. Qed.

(** A failed read: the load settles, but with [this.state] never written
    the promise of [loadSavedState] is fulfilled with [undefined]. *)
Example boot_load_failed_sample :
  let w := run [Settle (readOf (Some settings)) (inr (VError (ExternalError 7)));
                React reads_p; React body_p; React catch_p;
                React loadAll_src; React loadAll_p]
             (boot "0.4.0" 1000) in
  status_of (promises w) loaded_p = Fulfilled (VError (ExternalError 7)) ∧
  status_of (promises w) loadAll_p = Fulfilled VUndefined ∧
  stateField version (fields w) = None.
Proof. vm_compute. repeat split. Qed.

End AppStateFacts.

(** ** AppDocsManager: the registry *)

Section Registry.
Import Promise AppDocs.
Context {env : Environment}.

Lemma readObject_run r (m : manager) d :
  objects m !! r = Some d → readObject r m = (inl d, m).
Proof. intros Hr. unfold readObject, bind, get. simpl. by rewrite Hr. Qed.

Lemma writeObject_lookup r f (m : manager) d :
  objects m !! r = Some d →
  objects (snd (writeObject r f m)) !! r = Some (f d).
Proof.
  intros Hr. unfold writeObject, modify. simpl. rewrite Hr.
  apply list_lookup_insert_eq. by eapply lookup_lt_Some.
Qed.

(** C2: re-saving a known id reads only the thumbnails of the new
    descriptor.  A byte-carrying first thumbnail is put in front of a
    byte-less one; every other field of the stored descriptor, the file name
    among them, stays as the first save left it, and the registry still holds
    the first object. *)
Theorem saveDoc_merges_thumbs_only (m : manager) apiDoc a dref d a0 arest d0 drest bs :
  objects m !! apiDoc = Some a →
  docs m !! Doc.id a = Some dref →
  objects m !! dref = Some d →
  Doc.thumbs a = Some (a0 :: arest) → Photo.bytes a0 = Some bs →
  Doc.thumbs d = Some (d0 :: drest) → Photo.bytes d0 = None →
  ∃ m', saveDoc apiDoc None m = (inl dref, m') ∧
        docs m' = docs m ∧
        objects m' !! dref = Some (Doc.set_thumbs (Some (a0 :: d0 :: drest)) d) ∧
        Doc.file_name <$> objects m' !! dref = Some (Doc.file_name d) ∧
        Doc.type <$> objects m' !! dref = Some (Doc.type d).
Proof.
  intros Ha Hid Hd Hat Ha0 Hdt Hd0.
  unfold saveDoc, bind, get. rewrite (readObject_run _ _ _ Ha). cbv beta iota.
  rewrite Hid. rewrite (readObject_run _ _ _ Hd). cbv beta iota.
  unfold mergeThumbs. rewrite Hat, Hdt, Ha0, Hd0. cbn [lift bool_decide].
  rewrite bool_decide_eq_true_2 by by eexists.
  rewrite bool_decide_eq_false_2 by by intros [? ?].
  cbn [lift ret]. unfold writeObject at 1, modify, ret. cbv beta iota.
  eexists. split; [reflexivity|]. split; [reflexivity|].
  assert (Hl : objects (set_objects
             (λ os, match os !! dref with
                    | Some _ => <[dref:=Doc.set_thumbs (Some (a0 :: d0 :: drest)) d]> os
                    | None => os
                    end) m) !! dref
          = Some (Doc.set_thumbs (Some (a0 :: d0 :: drest)) d)).
  { simpl. rewrite Hd. apply list_lookup_insert_eq. by eapply lookup_lt_Some. }
  split; [exact Hl|]. by rewrite Hl.
Qed.


End Registry.

Section RegistrySamples.
Import Promise AppDocs.

Lemma saveDoc_merges_thumbs_only_witness :
  ∃ m', saveDoc 1%nat None (fields Samples.seenOnce) = (inl 0%nat, m') ∧
        Doc.thumbs <$> objects m' !! 0%nat = Some (Some [Samples.rich; Samples.placeholder]) ∧
        Doc.file_name <$> objects m' !! 0%nat = Some (Some "").
Proof.
  destruct (saveDoc_merges_thumbs_only (env := Samples.plain) (fields Samples.seenOnce) 1%nat
              Samples.second42 0%nat
              (Doc.set_file_name (Some "") Samples.first42)
              Samples.rich [] Samples.placeholder [] [Byte.x01; Byte.x02])
    as (m' & Hrun & _ & Hobj & Hname & _); try reflexivity.
  exists m'. split; [exact Hrun|]. split; [by rewrite Hobj|exact Hname].
Defined.

(** The two saves of id 42, replayed: the file name of the second
    descriptor does not reach the stored one. *)
Lemma saveDoc_merge_ignores_filename :
  let m := fields Samples.seenTwice in
  docs m !! "42" = Some 0%nat ∧
  Doc.thumbs <$> objects m !! 0%nat = Some (Some [Samples.rich; Samples.placeholder]) ∧
  Doc.file_name <$> objects m !! 0%nat = Some (Some "") ∧
  Doc.file_name <$> objects m !! 0%nat ≠ Some (Some (wrapPlainText (Environment := Samples.plain) "photo.jpg")).
Proof. vm_compute. repeat split. discriminate. Qed.

End RegistrySamples.

Section Classification.
Import Promise AppDocs.
Context {env : Environment}.

Lemma applyAttribute_keeps d a :
  Doc.mime_type (applyAttribute d a) = Doc.mime_type d ∧
  Doc.thumbs (applyAttribute d a) = Doc.thumbs d.
Proof. destruct a; cbn; repeat case_match; done. Qed.

Lemma applyAttribute_type d a :
  Doc.type (applyAttribute d a)
  = match typeGiven (Doc.mime_type d) (bool_decide (is_Some (Doc.thumbs d))) a with
    | Some t => Some t
    | None => Doc.type d
    end.
Proof.
  destruct a; cbn; repeat case_match; simplify_eq/=; try done; congruence.
Qed.

(** The attribute loop is last-writer-wins on [type]. *)
Lemma foldl_applyAttribute_type d attrs :
  Doc.mime_type (foldl applyAttribute d attrs) = Doc.mime_type d ∧
  Doc.thumbs (foldl applyAttribute d attrs) = Doc.thumbs d ∧
  Doc.type (foldl applyAttribute d attrs)
  = match last (omap (typeGiven (Doc.mime_type d) (bool_decide (is_Some (Doc.thumbs d))))
                  attrs) with
    | Some t => Some t
    | None => Doc.type d
    end.
Proof.
  induction attrs as [|a attrs IH] using rev_ind; [done|].
  destruct IH as (Hm & Ht & Hty).
  rewrite foldl_app. cbn [foldl].
  destruct (applyAttribute_keeps (foldl applyAttribute d attrs) a) as [Hm' Ht'].
  split; [congruence|]. split; [congruence|].
  rewrite applyAttribute_type, Hm, Ht, Hty.
  rewrite omap_app. simpl.
  destruct (typeGiven _ _ a) as [t|]; simpl.
  - by rewrite last_snoc.
  - by rewrite app_nil_r.
Qed.


Lemma normalizeThumb_keeps a a1 :
  normalizeThumb a = inl a1 →
  Doc.id a1 = Doc.id a ∧ Doc.mime_type a1 = Doc.mime_type a ∧
  Doc.thumbs a1 = Doc.thumbs a ∧ Doc.attributes a1 = Doc.attributes a ∧
  Doc.type a1 = Doc.type a.
Proof.
  unfold normalizeThumb. intros Hn.
  repeat case_match; simplify_eq/=; done.
Qed.

Lemma mergeThumbs_type a d d' : mergeThumbs a d = inl d' → Doc.type d' = Doc.type d.
Proof.
  unfold mergeThumbs. intros Hm. repeat case_match; simplify_eq/=; done.
Qed.

(** [finishDoc] touches [type] only for the animated-sticker file. *)
Lemma finishDoc_type d :
  Doc.type (finishDoc d)
  = if bool_decide (Doc.mime_type (finishDoc d) = Some "application/x-tgsticker")
       && bool_decide (Doc.file_name (finishDoc d) = Some "AnimatedSticker.tgs")
    then Some "sticker" else Doc.type d.
Proof.
  unfold finishDoc. repeat case_match; simplify_eq/=; try done; congruence.
Qed.

Lemma defaultMimeType_type d : Doc.type (defaultMimeType d) = Doc.type d.
Proof. unfold defaultMimeType. by case_match. Qed.

Lemma saveDoc_fresh (m : manager) apiDoc a a1 :
  objects m !! apiDoc = Some a →
  docs m !! Doc.id a = None →
  normalizeThumb a = inl a1 →
  ∃ m', saveDoc apiDoc None m = (inl apiDoc, m') ∧
        docs m' = <[ Doc.id a := apiDoc ]> (docs m) ∧
        objects m' = <[ apiDoc := finishDoc (defaultMimeType (applyAttributes a1)) ]> (objects m).
Proof.
  intros Ha Hid Hn.
  unfold saveDoc, bind, get. rewrite (readObject_run _ _ _ Ha). cbv beta iota.
  rewrite Hid. cbv beta iota. unfold ret at 1. cbv beta iota.
  rewrite (readObject_run _ _ _ Ha). cbv beta iota.
  unfold modify at 1. cbv beta iota.
  destruct (thumbCall a) as [c|]; unfold modify, ret, lift, writeObject;
    rewrite Hn; cbv beta iota; simpl;
    (eexists; split; [reflexivity|]; split; [reflexivity|]; simpl; by rewrite Ha).
Qed.

(** C3: [type] is written by the attribute loop, last writer wins, so it
    follows the order of the list; the only later change on the first
    insert is the animated-sticker file.  A later save of the same id does
    not touch it. *)
Theorem saveDoc_type_last_writer (m : manager) apiDoc a a1 :
  objects m !! apiDoc = Some a →
  normalizeThumb a = inl a1 →
  (docs m !! Doc.id a = None →
   ∃ m' a',
     saveDoc apiDoc None m = (inl apiDoc, m') ∧
     docs m' !! Doc.id a = Some apiDoc ∧
     objects m' !! apiDoc = Some a' ∧
     Doc.type a'
     = if bool_decide (Doc.mime_type a' = Some "application/x-tgsticker")
          && bool_decide (Doc.file_name a' = Some "AnimatedSticker.tgs")
       then Some "sticker"
       else match last (omap (typeGiven (Doc.mime_type a)
                                (bool_decide (is_Some (Doc.thumbs a))))
                          (Doc.attributes a)) with
            | Some t => Some t
            | None => Doc.type a
            end) ∧
  (∀ dref d r m',
     docs m !! Doc.id a = Some dref → objects m !! dref = Some d →
     saveDoc apiDoc None m = (r, m') →
     Doc.type <$> objects m' !! dref = Some (Doc.type d)).
Proof.
  intros Ha Hn. split.
  - intros Hid.
    destruct (saveDoc_fresh m apiDoc a a1 Ha Hid Hn) as (m' & Hrun & Hdocs & Hobjs).
    exists m', (finishDoc (defaultMimeType (applyAttributes a1))).
    split; [done|]. split; [by rewrite Hdocs, lookup_insert_eq|].
    split.
    { rewrite Hobjs. apply list_lookup_insert_eq. by eapply lookup_lt_Some. }
    rewrite finishDoc_type. case_match; [done|].
    rewrite defaultMimeType_type. unfold applyAttributes. cbn [Doc.type Doc.set_attributes].
    destruct (foldl_applyAttribute_type a1 (Doc.attributes a1)) as (_ & _ & ->).
    by destruct (normalizeThumb_keeps _ _ Hn) as (_ & -> & -> & -> & ->).
  - intros dref d r m' Hid Hd.
    unfold saveDoc, bind, get. rewrite (readObject_run _ _ _ Ha). cbv beta iota.
    rewrite Hid. rewrite (readObject_run _ _ _ Hd). cbv beta iota.
    destruct (mergeThumbs a d) as [d'|e] eqn:Hm; cbn [lift ret throw].
    + unfold writeObject, modify, ret. cbv beta iota. intros [= <- <-].
      simpl. rewrite Hd. rewrite list_lookup_insert_eq by (by eapply lookup_lt_Some).
      simpl. by rewrite (mergeThumbs_type _ _ _ Hm).
    + unfold throw. intros [= <- <-]. by rewrite Hd.
Qed.

End Classification.

Section ClassificationSamples.
Import Promise AppDocs.

Lemma saveDoc_type_last_writer_witness :
  ∃ m' a',
    saveDoc 0%nat None
      (fields (run [NewObject (Samples.bare "7" None Samples.audioThenVideo)] empty))
    = (inl 0%nat, m') ∧
    objects m' !! 0%nat = Some a' ∧ Doc.type a' = Some "video".
Proof.
  destruct (saveDoc_type_last_writer (env := Samples.plain)
              (fields (run [NewObject (Samples.bare "7" None Samples.audioThenVideo)] empty))
              0%nat (Samples.bare "7" None Samples.audioThenVideo)
              (Samples.bare "7" None Samples.audioThenVideo))
    as [Hfirst _]; try reflexivity.
  destruct Hfirst as (m' & a' & Hrun & _ & Hobj & Htype); [reflexivity|].
  exists m', a'. split; [exact Hrun|]. split; [exact Hobj|].
  rewrite Htype.
  assert (Hobj' : objects (snd (saveDoc (env := Samples.plain) 0%nat None
             (fields (run [NewObject (Samples.bare "7" None Samples.audioThenVideo)] empty))))
            !! 0%nat = Some a') by (by rewrite Hrun).
  vm_compute in Hobj'. injection Hobj' as <-. vm_compute. reflexivity.
Defined.

(** The same attributes in two orders give two types. *)
Lemma saveDoc_type_follows_order :
  Samples.audioThenVideo ≡ₚ Samples.videoThenAudio ∧
  Doc.type <$> objects (fields (Samples.savedAlone
                  (Samples.bare "7" None Samples.audioThenVideo))) !! 0%nat
  = Some (Some "video") ∧
  Doc.type <$> objects (fields (Samples.savedAlone
                  (Samples.bare "7" None Samples.videoThenAudio))) !! 0%nat
  = Some (Some "audio").
Proof.
  split; [apply perm_swap|]. split; vm_compute; reflexivity.
Qed.

End ClassificationSamples.

(** ** AppDocsManager: downloads *)

Section Downloads.
Import Promise AppDocs.
Context {env : Environment}.
Implicit Types (w : world) (p : pref) (r : ref).

Lemma resolveDoc_run w docID r doc :
  getDoc docID (fields w) = Some r →
  objects (fields w) !! r = Some doc →
  resolveDoc docID w = (inl (r, doc), w).
Proof.
  intros Hr Hd. unfold resolveDoc, bind, get. cbv beta iota. rewrite Hr.
  unfold onFields. rewrite (readObject_run _ _ _ Hd). by destruct w.
Qed.

(** C1: [downloadDoc] keeps no table of pending fetches.  For a
    non-empty document with no cached copy, every call makes its own call to
    [apiFileManager.downloadFile] and returns the promise that call hands
    back; a second call before anything settles makes a second transfer
    call.  Callers share a future only if the transfer collaborator returns
    the same one. *)
Theorem downloadDoc_one_transfer_per_call w docID toFileEntry cachedBlob transfer r doc :
  getDoc docID (fields w) = Some r →
  objects (fields w) !! r = Some doc →
  Doc.tag doc ≠ "documentEmpty" →
  Doc.downloaded doc && bool_decide (toFileEntry = None)
    && (bool_decide (is_Some (Doc.url doc)) || bool_decide (is_Some cachedBlob)) = false →
  let call := downloadFile (Doc.dc_id doc) (getInputByID doc None) (Doc.size doc)
                (if truthyString (Doc.mime_type doc) then default "" (Doc.mime_type doc)
                 else "application/octet-stream")
                toFileEntry (Doc.sticker doc) in
  let w1 := snd (downloadDoc docID toFileEntry cachedBlob transfer w) in
  fst (downloadDoc docID toFileEntry cachedBlob transfer w)
  = inl (default (length (promises w)) transfer) ∧
  calls (fields w1) = calls (fields w) ++ [call] ∧
  ∀ transfer2,
    let w2 := snd (downloadDoc docID toFileEntry cachedBlob transfer2 w1) in
    fst (downloadDoc docID toFileEntry cachedBlob transfer2 w1)
    = inl (default (length (promises w1)) transfer2) ∧
    calls (fields w2) = calls (fields w) ++ [call; call].
Proof.
  intros Hr Hd Htag Hcache call.
  assert (Hstart : ∀ w0 tr0,
    fst (startDownload r doc toFileEntry tr0 w0) = inl (default (length (promises w0)) tr0) ∧
    calls (fields (snd (startDownload r doc toFileEntry tr0 w0))) = calls (fields w0) ++ [call] ∧
    docs (fields (snd (startDownload r doc toFileEntry tr0 w0))) = docs (fields w0) ∧
    objects (fields (snd (startDownload r doc toFileEntry tr0 w0))) = objects (fields w0)).
  { intros w0 [p0|]; done. }
  assert (Hone : ∀ w0 tr0,
    getDoc docID (fields w0) = Some r → objects (fields w0) !! r = Some doc →
    downloadDoc docID toFileEntry cachedBlob tr0 w0 = startDownload r doc toFileEntry tr0 w0).
  { intros w0 tr0 Hr0 Hd0. unfold downloadDoc, bind.
    rewrite (resolveDoc_run _ _ _ _ Hr0 Hd0). cbn [fst snd].
    rewrite bool_decide_eq_false_2 by done.
    destruct (Doc.downloaded doc && bool_decide (toFileEntry = None)); [|done].
    simpl in Hcache. apply orb_false_iff in Hcache as [H1 H2].
    rewrite H1. destruct cachedBlob; [|done].
    apply bool_decide_eq_false_1 in H2. destruct H2. by eexists. }
  intros w1. unfold w1. rewrite (Hone w transfer Hr Hd).
  destruct (Hstart w transfer) as (Hp1 & Hc1 & Hdocs1 & Hobjs1).
  split; [done|]. split; [done|].
  intros transfer2. cbv zeta. rewrite Hone.
  - destruct (Hstart (snd (startDownload r doc toFileEntry transfer w)) transfer2)
      as (Hp2 & Hc2 & _).
    split; [done|]. rewrite Hc2, Hc1. by rewrite <- app_assoc.
  - destruct docID as [doc0|id0]; simpl in *; [done|]. by rewrite Hdocs1.
  - by rewrite Hobjs1.
Qed.










End Downloads.

Section DownloadSamples.
Import Promise AppDocs.

Lemma downloadDoc_one_transfer_per_call_witness :
  let first := downloadDoc (ById "42") None None None Samples.registered42 in
  fst first = inl 0%nat ∧
  ∃ call, calls (fields (snd first)) = [call] ∧
          calls (fields (snd (downloadDoc (ById "42") None None (Some 0%nat) (snd first))))
          = [call; call].
Proof.
  cbv zeta.
  destruct (downloadDoc_one_transfer_per_call Samples.registered42
              (ById "42") None None None 0%nat
              (Doc.set_file_name (Some "") Samples.first42))
    as (Hp & Hc & Hagain); try reflexivity; [done|].
  split; [exact Hp|]. eexists. split; [exact Hc|].
  by destruct (Hagain (Some 0%nat)) as [_ ->].
Defined.


(** Two calls for id 42 while nothing is cached and the first transfer is
    still pending: [downloadFile] is called twice, whether the collaborator
    answers with a new promise or with the pending one. *)
Lemma downloadDoc_second_call_transfers_again :
  let first := downloadDoc (ById "42") None None None Samples.registered42 in
  let fresh := downloadDoc (ById "42") None None None (snd first) in
  let shared := downloadDoc (ById "42") None None (Some 0%nat) (snd first) in
  fst first = inl 0%nat ∧
  status_of (promises (snd first)) 0%nat = Pending ∧
  fst fresh = inl 2%nat ∧
  length (calls (fields (snd first))) = 1%nat ∧
  length (calls (fields (snd fresh))) = 2%nat ∧
  fst shared = inl 0%nat ∧
  length (calls (fields (snd shared))) = 2%nat.
Proof. vm_compute. repeat split. Qed.

End DownloadSamples.

(** ** Peer demand tracker: sequences of calls *)


Section PeerDemandTraces.
Import PeerDemand.

(** What [evictHolder] can do: nothing (no holder to release), throw (the
    holder has no demand entry), or take the tag from the holder, dropping
    the holder when the tag was its last. *)
Lemma evictHolder_cases peerId type t r t' :
  evictHolder peerId type t = (r, t') →
  (r = inl tt ∧ t' = t ∧
   (singlePeerMap t !! type = None ∨ singlePeerMap t !! type = Some 0
    ∨ singlePeerMap t !! type = Some peerId)) ∨
  (∃ e msg, singlePeerMap t !! type = Some e ∧ e ≠ 0 ∧ e ≠ peerId ∧
            neededPeers t !! e = None ∧ r = inr (TypeError msg) ∧ t' = t) ∨
  (∃ e set, singlePeerMap t !! type = Some e ∧ e ≠ 0 ∧ e ≠ peerId ∧
            neededPeers t !! e = Some set ∧ r = inl tt ∧
            ((set ∖ {[ type ]} ≠ ∅ ∧
              t' = Tracker (<[ e := set ∖ {[ type ]} ]> (neededPeers t))
                     (singlePeerMap t) (dispatched t)) ∨
             (set ∖ {[ type ]} = ∅ ∧
              t' = Tracker (delete e (neededPeers t)) (singlePeerMap t)
                     (dispatched t ++ [peerUnneeded e])))).
Proof.
  unfold evictHolder, bind, get, set_needed, dispatchEvent, modify, throw, ret. simpl.
  destruct (singlePeerMap t !! type) as [e|] eqn:He; simpl;
    [|intros [= <- <-]; left; auto].
  destruct (decide (e ≠ 0)) as [H0|H0];
    [rewrite (bool_decide_eq_true_2 _ H0)|rewrite (bool_decide_eq_false_2 _ H0)]; simpl.
  2:{ intros [= <- <-]. left. split; [done|]. split; [done|].
      right. left. f_equal. destruct (decide (e = 0)); [done|]. by destruct H0. }
  destruct (decide (e ≠ peerId)) as [Hne|Hne];
    [rewrite (bool_decide_eq_true_2 _ Hne)|rewrite (bool_decide_eq_false_2 _ Hne)]; simpl.
  2:{ intros [= <- <-]. left. split; [done|]. split; [done|].
      right. right. f_equal. destruct (decide (e = peerId)); [done|]. by destruct Hne. }
  destruct (neededPeers t !! e) as [set|] eqn:Hset; simpl.
  2:{ intros [= <- <-]. right. left. by eexists _, _. }
  destruct (decide (size (set ∖ {[type]}) = 0%nat)) as [Hsz|Hsz];
    [rewrite (bool_decide_eq_true_2 _ Hsz)|rewrite (bool_decide_eq_false_2 _ Hsz)];
    simpl; intros [= <- <-]; right; right; exists e, set;
    (do 5 (split; [done|])).
  - right. split; [by apply leibniz_equiv, size_empty_inv|].
    by rewrite delete_insert_eq.
  - left. split; [|done]. intros Hempty. rewrite Hempty, size_empty in Hsz. done.
Qed.

Lemma keepPeerSingle_run peerId type t r t' :
  keepPeerSingle peerId type t = (r, t') →
  (∃ t1, evictHolder peerId type t = (inl tt, t1) ∧ r = inl tt ∧
         t' = Tracker (neededPeers t1) (<[ type := peerId ]> (singlePeerMap t1))
                (dispatched t1)) ∨
  (∃ e, evictHolder peerId type t = (inr e, t') ∧ r = inr e).
Proof.
  unfold keepPeerSingle, bind.
  destruct (evictHolder peerId type t) as [[[]|e] t1] eqn:Hev.
  - unfold set_single, modify. intros [= <- <-]. left. by exists t1.
  - intros [= <- <-]. right. by exists e.
Qed.

(** What [requestPeer] does: nothing for a registered tag; otherwise the
    tag is added, [peerNeeded] is sent, and with a limit [keepPeerSingle]
    runs on the result. *)
Lemma requestPeer_cases peerId type limit t r t' :
  requestPeer peerId type limit t = (r, t') →
  (tagged t peerId type ∧ r = inl tt ∧ t' = t) ∨
  (¬ tagged t peerId type ∧
   let t1 := Tracker (<[ peerId := default ∅ (neededPeers t !! peerId) ∪ {[ type ]} ]>
                        (neededPeers t))
               (singlePeerMap t) (dispatched t ++ [peerNeeded peerId]) in
   match limit with
   | None => r = inl tt ∧ t' = t1
   | Some _ => keepPeerSingle peerId type t1 = (r, t')
   end).
Proof.
  unfold requestPeer, bind, get. simpl.
  destruct (neededPeers t !! peerId) as [set|] eqn:Hset; simpl.
  - destruct (decide (type ∈ set)) as [Hin|Hin];
      [rewrite (bool_decide_eq_true_2 _ Hin)|rewrite (bool_decide_eq_false_2 _ Hin)].
    + intros [= <- <-]. left. split; [by exists set|done].
    + unfold set_needed, dispatchEvent, modify. simpl. intros Hrun. right.
      split; [intros (set' & Hs & Hin'); congruence|].
      destruct limit; [done|]. by injection Hrun as <- <-.
  - unfold set_needed, dispatchEvent, modify. simpl. intros Hrun. right.
    split; [intros (set' & Hs & Hin'); congruence|].
    destruct limit; [done|]. by injection Hrun as <- <-.
Qed.

(** The four ways the two public methods change a tracker. *)
Lemma perform_preserves (P : tracker → Prop) :
  (∀ t p ty, P t → ¬ tagged t p ty →
     P (Tracker (<[ p := default ∅ (neededPeers t !! p) ∪ {[ ty ]} ]> (neededPeers t))
          (singlePeerMap t) (dispatched t ++ [peerNeeded p]))) →
  (∀ t e set ty, P t → neededPeers t !! e = Some set → set ∖ {[ ty ]} ≠ ∅ →
     P (Tracker (<[ e := set ∖ {[ ty ]} ]> (neededPeers t)) (singlePeerMap t) (dispatched t))) →
  (∀ t e set ty, P t → neededPeers t !! e = Some set → set ∖ {[ ty ]} = ∅ →
     P (Tracker (delete e (neededPeers t)) (singlePeerMap t)
          (dispatched t ++ [peerUnneeded e]))) →
  (∀ t ty p, P t →
     P (Tracker (neededPeers t) (<[ ty := p ]> (singlePeerMap t)) (dispatched t))) →
  ∀ c t, P t → P (snd (perform c t)).
Proof.
  intros Hadd Htake Hdrop Hslot.
  assert (Hevict : ∀ p ty t r t', P t → evictHolder p ty t = (r, t') → P t').
  { intros p ty t r t' HP Hev.
    apply evictHolder_cases in Hev
      as [(_ & -> & _) | [(e & msg & _ & _ & _ & _ & _ & ->)
                         | (e & set & _ & _ & _ & Hset & _ & [[Hne ->] | [He ->]])]];
      eauto. }
  assert (Hkeep : ∀ p ty t r t', P t → keepPeerSingle p ty t = (r, t') → P t').
  { intros p ty t r t' HP Hk.
    apply keepPeerSingle_run in Hk as [(t1 & Hev & _ & ->) | (e & Hev & _)].
    - apply Hslot. by eapply Hevict.
    - by eapply Hevict. }
  intros [p ty limit|p ty] t HP; simpl.
  - destruct (requestPeer p ty limit t) as [r t'] eqn:Hreq. simpl.
    apply requestPeer_cases in Hreq as [(_ & _ & ->) | [Hnew Hrun]]; [done|].
    cbv zeta in Hrun. destruct limit as [l|].
    + eapply Hkeep; [|exact Hrun]. by apply Hadd.
    + destruct Hrun as [_ ->]. by apply Hadd.
  - destruct (keepPeerSingle p ty t) as [r t'] eqn:Hk. simpl. by eapply Hkeep.
Qed.

Lemma performAll_snoc cs c t : performAll (cs ++ [c]) t = snd (perform c (performAll cs t)).
Proof. unfold performAll. by rewrite foldl_app. Qed.

Lemma tidy_performAll cs : tidy (performAll cs empty).
Proof.
  induction cs as [|c cs IH] using rev_ind.
  - intros p set Hp. change ((∅ : gmap Z (gset string)) !! p = Some set) in Hp.
    by rewrite lookup_empty in Hp.
  - rewrite performAll_snoc. revert IH. generalize (performAll cs empty). clear cs.
    intros t Ht. revert c t Ht. apply perform_preserves; unfold tidy; simpl.
    + intros t p ty Ht _ q set.
      destruct (decide (p = q)) as [->|Hne].
      * rewrite lookup_insert_eq. intros [= <-] Hempty.
        assert (ty ∈ default ∅ (neededPeers t !! q) ∪ {[ty]}) as Hin
          by (apply elem_of_union; right; by apply elem_of_singleton).
        rewrite Hempty in Hin. by apply not_elem_of_empty in Hin.
      * rewrite lookup_insert_ne by done. apply Ht.
    + intros t e set ty Ht Hset Hne q set'.
      destruct (decide (e = q)) as [->|Hq].
      * rewrite lookup_insert_eq. by intros [= <-].
      * rewrite lookup_insert_ne by done. apply Ht.
    + intros t e set ty Ht Hset Hempty q set'.
      destruct (decide (e = q)) as [->|Hq].
      * by rewrite lookup_delete_eq.
      * rewrite lookup_delete_ne by done. apply Ht.
    + intros t ty p Ht. apply Ht.
Qed.

(** X2: after any sequence of [requestPeer] / [keepPeerSingle] calls on a
    new manager, [isPeerNeeded] is true exactly for the peers that carry at
    least one tag: an entry of [neededPeers] never holds an empty set. *)
Theorem isPeerNeeded_iff_tagged cs peerId :
  isPeerNeeded peerId (performAll cs empty) = true
  ↔ ∃ type, tagged (performAll cs empty) peerId type.
Proof.
  unfold isPeerNeeded. rewrite bool_decide_eq_true. split.
  - intros [set Hset].
    destruct (set_choose_L set) as [type Hin]; [by eapply tidy_performAll|].
    exists type, set. done.
  - intros (type & set & Hset & _). by exists set.
Qed.

Lemma heard_snoc signals s :
  heard (signals ++ [s])
  = match s with
    | peerNeeded p => heard signals ∪ {[ p ]}
    | peerUnneeded p => heard signals ∖ {[ p ]}
    end.
Proof. unfold heard. by rewrite foldl_app. Qed.

(** X3: a listener that adds a peer on [peerNeeded] and removes it on
    [peerUnneeded] holds exactly the peers of [neededPeers], after any
    sequence of calls, also when some of them threw. *)
Theorem signals_mirror_demand cs :
  dom (neededPeers (performAll cs empty)) = heard (dispatched (performAll cs empty)).
Proof.
  induction cs as [|c cs IH] using rev_ind.
  - apply dom_empty_L.
  - rewrite performAll_snoc. revert IH. generalize (performAll cs empty). clear cs.
    intros t Ht. revert c t Ht.
    apply (perform_preserves (λ t, dom (neededPeers t) = heard (dispatched t))); simpl.
    + intros t p ty Ht _. rewrite heard_snoc, dom_insert_L, Ht. apply (comm_L (∪)).
    + intros t e set ty Ht Hset _. rewrite dom_insert_L, <- Ht.
      apply subseteq_union_1_L, singleton_subseteq_l, elem_of_dom. by exists set.
    + intros t e set ty Ht Hset _. by rewrite heard_snoc, dom_delete_L, Ht.
    + done.
Qed.

Lemma requestAll_consistent reqs t :
  consistent t → ∃ t', requestAll reqs t = (inl tt, t') ∧ consistent t'.
Proof.
  revert t. induction reqs as [|r reqs IH]; intros t Ht; simpl.
  - by exists t.
  - unfold bind.
    destruct (requestPeer (req_peer r) (req_type r) (req_limit r) t) as [res t1] eqn:Hreq.
    destruct (requestPeer_consistent _ _ _ _ _ _ Ht Hreq) as [-> Ht1].
    by apply IH.
Qed.

(** X1: through [requestPeer] alone, whatever the peers, tags and limits,
    no call throws, and every holder of a single slot stays registered with
    the slot's tag. *)
Theorem requestPeer_sequence_safe reqs :
  ∃ t, requestAll reqs empty = (inl tt, t) ∧
       ∀ type peerId, singlePeerMap t !! type = Some peerId → tagged t peerId type.
Proof.
  destruct (requestAll_consistent reqs empty) as (t & Hrun & Hcons).
  - intros type peerId Hslot. change ((∅ : gmap string Z) !! type = Some peerId) in Hslot.
    by rewrite lookup_empty in Hslot.
  - exists t. split; [done|]. exact Hcons.
Qed.

(** Eviction only removes tags, and never touches the slot map. *)
Lemma evictHolder_tagged peerId type t r t' q ty :
  evictHolder peerId type t = (r, t') →
  singlePeerMap t' = singlePeerMap t ∧ (tagged t' q ty → tagged t q ty).
Proof.
  intros Hev.
  apply evictHolder_cases in Hev
    as [(_ & -> & _) | [(e & msg & _ & _ & _ & _ & _ & ->)
                       | (e & set & _ & _ & _ & Hset & _ & [[Hne ->] | [He ->]])]];
    simpl; (split; [done|]); try done.
  - intros (set' & Hq & Hin). simpl in Hq.
    destruct (decide (e = q)) as [->|Hne'].
    + rewrite lookup_insert_eq in Hq. injection Hq as <-.
      exists set. split; [done|]. by apply elem_of_difference in Hin as [? _].
    + rewrite lookup_insert_ne in Hq by done. by exists set'.
  - intros (set' & Hq & Hin). simpl in Hq.
    destruct (decide (e = q)) as [->|Hne'].
    + by rewrite lookup_delete_eq in Hq.
    + rewrite lookup_delete_ne in Hq by done. by exists set'.
Qed.

(** After a successful eviction for [type], the only tagged peers left are
    those that did not hold the slot. *)
Lemma evictHolder_released peerId type t t' q :
  evictHolder peerId type t = (inl tt, t') → tagged t' q type →
  singlePeerMap t !! type = Some q → q = 0 ∨ q = peerId.
Proof.
  intros Hev Htag Hslot.
  apply evictHolder_cases in Hev
    as [(_ & -> & Hno) | [(e & msg & _ & _ & _ & _ & [=] & _)
                         | (e & set & He & H0 & Hp & Hset & _ & Hres)]].
  - rewrite Hslot in Hno. destruct Hno as [[=] | [[= ->] | [= ->]]]; auto.
  - rewrite Hslot in He. injection He as <-.
    destruct Htag as (set' & Hq & Hin).
    destruct Hres as [[_ ->] | [_ ->]]; simpl in Hq.
    + rewrite lookup_insert_eq in Hq. injection Hq as <-.
      apply elem_of_difference in Hin as [_ Hin]. destruct Hin. by apply elem_of_singleton.
    + by rewrite lookup_delete_eq in Hq.
Qed.

Lemma requestPeer_exclusive peerId ty limit type t r t' :
  (ty = type → is_Some limit) →
  consistent t →
  (∀ q, q ≠ 0 → tagged t q type → singlePeerMap t !! type = Some q) →
  requestPeer peerId ty limit t = (r, t') →
  ∀ q, q ≠ 0 → tagged t' q type → singlePeerMap t' !! type = Some q.
Proof.
  intros Hlimit Hcons Hexcl Hreq q Hq Htag.
  destruct (requestPeer_consistent _ _ _ _ _ _ Hcons Hreq) as [-> _].
  apply requestPeer_cases in Hreq as [(_ & _ & ->) | [Hnew Hrun]]; [by apply Hexcl|].
  cbv zeta in Hrun.
  set (t1 := Tracker (<[peerId := default ∅ (neededPeers t !! peerId) ∪ {[ty]}]>
                        (neededPeers t))
               (singlePeerMap t) (dispatched t ++ [peerNeeded peerId])) in *.
  assert (Hadded : ∀ x T, tagged t1 x T → tagged t x T ∨ (x = peerId ∧ T = ty)).
  { intros x T (set & Hx & Hin). simpl in Hx.
    destruct (decide (peerId = x)) as [->|Hne].
    - rewrite lookup_insert_eq in Hx. injection Hx as <-.
      apply elem_of_union in Hin as [Hin|Hin].
      + left. destruct (neededPeers t !! x) as [set|] eqn:Hset; simpl in Hin.
        * by exists set.
        * by apply not_elem_of_empty in Hin.
      + right. split; [done|]. by apply elem_of_singleton in Hin.
    - rewrite lookup_insert_ne in Hx by done. left. by exists set. }
  destruct limit as [l|].
  - apply keepPeerSingle_run in Hrun as [(t2 & Hev & _ & ->) | (e & _ & [=])].
    destruct (evictHolder_tagged _ _ _ _ _ q type Hev) as [Hslot Hsub].
    simpl in *. rewrite Hslot.
    destruct (decide (ty = type)) as [->|Hty].
    + rewrite lookup_insert_eq. f_equal.
      destruct (Hadded q type (Hsub Htag)) as [Hold | [-> _]]; [|done].
      pose proof (Hexcl q Hq Hold) as Hholder.
      destruct (evictHolder_released _ _ _ _ q Hev Htag Hholder) as [->| ->]; done.
    + rewrite lookup_insert_ne by done.
      destruct (Hadded q type (Hsub Htag)) as [Hold | [_ ->]]; [|done].
      by apply Hexcl.
  - destruct Hrun as [_ ->]. simpl.
    destruct (Hadded q type Htag) as [Hold | [_ ->]]; [by apply Hexcl|].
    destruct (Hlimit eq_refl) as [? [=]].
Qed.

(** X4: when every [requestPeer] for a type passes a limit, at most one
    peer (other than the falsy id 0) carries that type at any time, and it is
    the one recorded in [singlePeerMap]; requests for other types, limited or
    not, do not disturb this. *)
Theorem limited_type_single_holder reqs type :
  Forall (λ r, req_type r = type → is_Some (req_limit r)) reqs →
  ∃ t, requestAll reqs empty = (inl tt, t) ∧
       ∀ peerId, peerId ≠ 0 → tagged t peerId type →
                 singlePeerMap t !! type = Some peerId.
Proof.
  intros Hlimited.
  assert (Hgen : ∀ t0, consistent t0 →
            (∀ q, q ≠ 0 → tagged t0 q type → singlePeerMap t0 !! type = Some q) →
            ∃ t, requestAll reqs t0 = (inl tt, t) ∧
                 ∀ q, q ≠ 0 → tagged t q type → singlePeerMap t !! type = Some q).
  { induction Hlimited as [|r reqs Hr _ IH]; intros t0 Hcons Hexcl; simpl.
    - by exists t0.
    - unfold bind.
      destruct (requestPeer (req_peer r) (req_type r) (req_limit r) t0) as [res t1] eqn:Hreq.
      pose proof (requestPeer_exclusive _ _ _ _ _ _ _ Hr Hcons Hexcl Hreq) as Hexcl1.
      destruct (requestPeer_consistent _ _ _ _ _ _ Hcons Hreq) as [-> Hcons1].
      by apply IH. }
  apply Hgen.
  - intros ty p Hslot. change ((∅ : gmap string Z) !! ty = Some p) in Hslot.
    by rewrite lookup_empty in Hslot.
  - intros q _ (set & Hset & _). change ((∅ : gmap Z (gset string)) !! q = Some set) in Hset.
    by rewrite lookup_empty in Hset.
Qed.

Lemma limited_type_single_holder_witness :
  ∃ t, requestAll [Req 5 "a" (Some 1); Req 5 "b" None; Req 7 "b" None; Req 7 "a" (Some 1)]
         empty = (inl tt, t) ∧
       singlePeerMap t !! "a" = Some 7 ∧ ¬ tagged t 5 "a" ∧ isPeerNeeded 5 t = true.
Proof.
  destruct (limited_type_single_holder
              [Req 5 "a" (Some 1); Req 5 "b" None; Req 7 "b" None; Req 7 "a" (Some 1)] "a")
    as (t & Hrun & Hone).
  - apply (bool_decide_unpack _). vm_compute. exact I.
  - exists t. split; [exact Hrun|].
    assert (Ht : t = snd (requestAll [Req 5 "a" (Some 1); Req 5 "b" None; Req 7 "b" None;
                                      Req 7 "a" (Some 1)] empty)) by (by rewrite Hrun).
    assert (Hslot : singlePeerMap t !! "a" = Some 7) by (rewrite Ht; vm_compute; reflexivity).
    split; [exact Hslot|]. split.
    + intros Htag. apply Hone in Htag; [|lia]. rewrite Hslot in Htag. discriminate Htag.
    + rewrite Ht. vm_compute. reflexivity.
Defined.

End PeerDemandTraces.

(** ** The load callback as a whole *)


Section LoadCallback.
Import StateStore.

Ltac decide_keys := apply (bool_decide_unpack _); vm_compute; exact I.

(** Everything a normal return of the load callback has done to the
    manager. *)
Lemma loadBody_returns stored m m' :
  AppState.loadBody stored m = (inl tt, m') →
  let init := AppState.g_STATE_INIT m in
  let hyd := hydrate init (arr stored) in
  ∃ st0 init' st1,
    (if isStale hyd (AppState.now m) then refresh init hyd else inl hyd) = inl st0 ∧
    migrateBackground init st0 = inl init' ∧
    migrateTheme st0 = inl st1 ∧
    m' = AppState.Manager init' (AppState.g_STATE_VERSION m) (AppState.now m)
           (st1 settings)
           (match AppState.authId (arr_last stored) with
            | Some id => AppState.broadcasts m ++ [("user_auth", id)]
            | None => AppState.broadcasts m
            end)
           (AppState.loaded m) (AppState.loadPromises m) (AppState.loadAllPromise m)
           (Some (match AppState.authId (arr_last stored) with
                  | Some _ =>
                      assign authState
                        (Some {| auth_tag := "authStateSignedIn"; auth_rest := None |})
                        (assign version (Some (AppState.g_STATE_VERSION m)) st1)
                  | None => assign version (Some (AppState.g_STATE_VERSION m)) st1
                  end))
           (AppState.demand m).
Proof.
  unfold AppState.loadBody, bind, get, modify, lift, ret, throw. simpl.
  intros Hrun.
  destruct (isStale _ _).
  - destruct (refresh _ _) as [st0|e] eqn:H0; simpl in Hrun; [|done].
    destruct (migrateBackground _ st0) as [init'|e] eqn:H1; simpl in Hrun; [|done].
    destruct (migrateTheme st0) as [st1|e] eqn:H2; simpl in Hrun; [|done].
    destruct (validateInitObject init' st1) as [[]|e] eqn:H3; simpl in Hrun; [|done].
    exists st0, init', st1.
    destruct (AppState.authId _); simpl in Hrun; injection Hrun as <-; done.
  - simpl in Hrun.
    destruct (migrateBackground _ _) as [init'|e] eqn:H1; simpl in Hrun; [|done].
    destruct (migrateTheme _) as [st1|e] eqn:H2; simpl in Hrun; [|done].
    destruct (validateInitObject init' st1) as [[]|e] eqn:H3; simpl in Hrun; [|done].
    eexists _, init', st1.
    destruct (AppState.authId _); simpl in Hrun; injection Hrun as <-; done.
Qed.

Lemma stamped_other (st : State) ver (auth : option Z) k :
  k ≠ version → k ≠ authState →
  match auth with
  | Some _ => assign authState (Some {| auth_tag := "authStateSignedIn"; auth_rest := None |})
                (assign version (Some ver) st)
  | None => assign version (Some ver) st
  end k = st k.
Proof. intros H1 H2. destruct auth; by rewrite ?assign_ne. Qed.

(** X5: a load that returns leaves the keys outside the refresh list
    (other than [users], [chats], [version], [authState] and [settings]) with
    the stored value, or the default when nothing was stored, whether or not
    the snapshot was old enough to be refreshed. *)
Theorem load_keeps_other_keys stored m m' k :
  AppState.loadBody stored m = (inl tt, m') →
  k ∈ [recentEmoji; recentSearch; hiddenPinnedMessages; keepSigned; drafts] →
  AppState.stateField k m'
  = match arr stored k with Some value => Some value | None => AppState.g_STATE_INIT m k end.
Proof.
  intros Hrun Hk.
  assert ((k ∉ REFRESH_KEYS) ∧ k ≠ users ∧ k ≠ chats ∧ k ≠ version ∧ k ≠ authState
          ∧ k ≠ settings) as (Hr & Hu & Hc & Hv & Ha & Hs).
  { repeat (apply elem_of_cons in Hk as [->|Hk]); [..|by apply elem_of_nil in Hk];
      repeat split; decide_keys. }
  destruct (loadBody_returns _ _ _ Hrun) as (st0 & init' & st1 & Hst0 & _ & Hth & ->).
  unfold AppState.stateField. cbn [AppState.state].
  rewrite stamped_other by done.
  rewrite (migrateTheme_other _ _ _ Hth) by done.
  rewrite <- hydrate_spec.
  destruct (isStale _ _).
  - apply refresh_spec in Hst0 as (_ & Hsame & _). by apply Hsame.
  - by injection Hst0 as <-.
Qed.

Lemma load_keeps_other_keys_witness :
  AppState.stateField recentSearch
    (snd (AppState.loadBody Samples.stored_old (Samples.manager_at (REFRESH_EVERY + 1))))
  = Some [5; -3].
Proof.
  apply (load_keeps_other_keys Samples.stored_old (Samples.manager_at (REFRESH_EVERY + 1))).
  - vm_compute. reflexivity.
  - decide_keys.
Defined.

(** X6: whatever version the stored snapshot carried, a load that returns
    stamps it with the running [STATE_VERSION], and [rootScope.settings] is
    the [settings] of the snapshot it published. *)
Theorem load_stamps_version stored m m' :
  AppState.loadBody stored m = (inl tt, m') →
  AppState.stateField version m' = Some (AppState.g_STATE_VERSION m) ∧
  AppState.rootScope_settings m' = AppState.stateField settings m'.
Proof.
  intros Hrun.
  destruct (loadBody_returns _ _ _ Hrun) as (st0 & init' & st1 & _ & _ & _ & ->).
  unfold AppState.stateField. cbn [AppState.state AppState.rootScope_settings].
  destruct (AppState.authId _).
  - rewrite assign_ne by done. rewrite assign_eq. by rewrite !assign_ne.
  - rewrite assign_eq. by rewrite assign_ne.
Qed.

(** X7: an object under [user_auth], or a non-zero number (the legacy
    form), makes the load publish the signed-in auth state and broadcast
    [user_auth] once with the user id; with nothing stored, or the falsy id 0,
    the auth state is the hydrated one and nothing is broadcast. *)
Theorem load_signs_in stored m m' :
  AppState.loadBody stored m = (inl tt, m') →
  let signedIn := {| auth_tag := "authStateSignedIn"; auth_rest := None |} in
  (∀ id, arr_last stored = Some (AuthObject id)
         ∨ (arr_last stored = Some (AuthNumber id) ∧ id ≠ 0) →
     AppState.stateField authState m' = Some signedIn ∧
     AppState.broadcasts m' = AppState.broadcasts m ++ [("user_auth", id)]) ∧
  (arr_last stored = None ∨ arr_last stored = Some (AuthNumber 0) →
     AppState.stateField authState m'
     = match arr stored authState with
       | Some value => Some value
       | None => AppState.g_STATE_INIT m authState
       end ∧
     AppState.broadcasts m' = AppState.broadcasts m).
Proof.
  intros Hrun signedIn.
  destruct (loadBody_returns _ _ _ Hrun) as (st0 & init' & st1 & Hst0 & _ & Hth & ->).
  unfold AppState.stateField. cbn [AppState.state AppState.broadcasts].
  split.
  - intros id Hauth.
    assert (AppState.authId (arr_last stored) = Some id) as ->.
    { destruct Hauth as [-> | [-> Hid]]; simpl; [done|].
      by rewrite bool_decide_eq_false_2. }
    by rewrite assign_eq.
  - intros Hauth.
    assert (AppState.authId (arr_last stored) = None) as ->.
    { by destruct Hauth as [-> | ->]. }
    split; [|done].
    rewrite assign_ne by done.
    rewrite (migrateTheme_other _ _ _ Hth) by done.
    rewrite <- hydrate_spec.
    destruct (isStale _ _).
    + apply refresh_spec in Hst0 as (_ & Hsame & _). apply Hsame; [decide_keys|done..].
    + by injection Hst0 as <-.
Qed.

Lemma load_signs_in_witness :
  let m' := snd (AppState.loadBody Samples.stored_old
                   (Samples.manager_at (REFRESH_EVERY + 1))) in
  AppState.stateField authState m'
  = Some {| auth_tag := "authStateSignedIn"; auth_rest := None |} ∧
  AppState.broadcasts m' = [("user_auth", 5)].
Proof.
  destruct (load_signs_in Samples.stored_old (Samples.manager_at (REFRESH_EVERY + 1))
              (snd (AppState.loadBody Samples.stored_old
                      (Samples.manager_at (REFRESH_EVERY + 1)))))
    as [Hin _].
  - vm_compute. reflexivity.
  - apply (Hin 5). right. split; [reflexivity|lia].
Defined.

Lemma load_stamps_version_witness :
  AppState.stateField version
    (snd (AppState.loadBody Samples.stored_old (Samples.manager_at (REFRESH_EVERY + 1))))
  = Some "0.4.0".
Proof.
  apply (load_stamps_version Samples.stored_old (Samples.manager_at (REFRESH_EVERY + 1))).
  vm_compute. reflexivity.
Defined.

(** X8: a load callback that throws has not published anything: [this.state],
    [rootScope.settings] and the broadcasts are as before the call; the
    promise fields are untouched as well.  Only [STATE_INIT] can differ, by
    the legacy background written into it before the throw. *)
Theorem load_failure_publishes_nothing stored m e m' :
  AppState.loadBody stored m = (inr e, m') →
  AppState.state m' = AppState.state m ∧
  AppState.rootScope_settings m' = AppState.rootScope_settings m ∧
  AppState.broadcasts m' = AppState.broadcasts m ∧
  (AppState.g_STATE_INIT m' = AppState.g_STATE_INIT m ∨
   ∃ st, migrateBackground (AppState.g_STATE_INIT m) st = inl (AppState.g_STATE_INIT m')).
Proof.
  unfold AppState.loadBody, bind, get, modify, lift, ret, throw. simpl.
  intros Hrun.
  destruct (isStale _ _).
  - destruct (refresh _ _) as [st0|e0] eqn:H0; simpl in Hrun;
      [|injection Hrun as <- <-; auto].
    destruct (migrateBackground _ st0) as [init'|e1] eqn:H1; simpl in Hrun;
      [|injection Hrun as <- <-; auto].
    destruct (migrateTheme st0) as [st1|e2] eqn:H2; simpl in Hrun;
      [|injection Hrun as <- <-; simpl; eauto 10].
    destruct (validateInitObject init' st1) as [[]|e3] eqn:H3; simpl in Hrun;
      [|injection Hrun as <- <-; simpl; eauto 10].
    by destruct (AppState.authId _).
  - simpl in Hrun.
    destruct (migrateBackground _ _) as [init'|e1] eqn:H1; simpl in Hrun;
      [|injection Hrun as <- <-; auto].
    destruct (migrateTheme _) as [st1|e2] eqn:H2; simpl in Hrun;
      [|injection Hrun as <- <-; simpl; eauto 10].
    destruct (validateInitObject init' st1) as [[]|e3] eqn:H3; simpl in Hrun;
      [|injection Hrun as <- <-; simpl; eauto 10].
    by destruct (AppState.authId _).
Qed.

Lemma load_failure_publishes_nothing_witness :
  ∃ e, fst (AppState.loadBody Samples.stored_incomplete (Samples.manager_at 2000)) = inr e ∧
       AppState.state (snd (AppState.loadBody Samples.stored_incomplete
                              (Samples.manager_at 2000))) = None.
Proof.
  exists (ValidationError "snapshot does not match the schema").
  split; [vm_compute; reflexivity|].
  apply (load_failure_publishes_nothing Samples.stored_incomplete (Samples.manager_at 2000)
           (ValidationError "snapshot does not match the schema")).
  vm_compute. reflexivity.
Defined.

(** X9: a snapshot that is not older than [REFRESH_EVERY] (exactly that old
    included: the comparison is strict) is published as hydrated: every key
    other than [version], [authState] and [settings] has the stored value, or
    the default when nothing was stored. *)
Theorem load_fresh_keeps_all stored m m' created k :
  arr stored stateCreatedTime = Some created →
  AppState.now m ≤ created + REFRESH_EVERY →
  AppState.loadBody stored m = (inl tt, m') →
  k ≠ version → k ≠ authState → k ≠ settings →
  AppState.stateField k m'
  = match arr stored k with Some value => Some value | None => AppState.g_STATE_INIT m k end.
Proof.
  intros Hcreated Hnow Hrun Hv Ha Hs.
  destruct (loadBody_returns _ _ _ Hrun) as (st0 & init' & st1 & Hst0 & _ & Hth & ->).
  unfold AppState.stateField. cbn [AppState.state].
  rewrite stamped_other by done.
  rewrite (migrateTheme_other _ _ _ Hth) by done.
  rewrite <- hydrate_spec.
  assert (Hfresh : isStale (hydrate (AppState.g_STATE_INIT m) (arr stored)) (AppState.now m)
                   = false).
  { unfold isStale. rewrite hydrate_spec, Hcreated. apply bool_decide_eq_false_2. lia. }
  rewrite Hfresh in Hst0. by injection Hst0 as <-.
Qed.

Lemma load_fresh_keeps_all_witness :
  AppState.stateField dialogs
    (snd (AppState.loadBody Samples.stored_old (Samples.manager_at REFRESH_EVERY)))
  = Some [Payload "dialog 5"].
Proof.
  apply (load_fresh_keeps_all Samples.stored_old (Samples.manager_at REFRESH_EVERY)
           (snd (AppState.loadBody Samples.stored_old (Samples.manager_at REFRESH_EVERY))) 0).
  - reflexivity.
  - vm_compute. discriminate.
  - vm_compute. reflexivity.
  - discriminate.
  - discriminate.
  - discriminate.
Defined.

Lemma migrate_idempotent_witness :
  let once := match migrate (STATE_INIT "0.4.0" 1000) Samples.legacy_state with
              | inl migrated => migrated
              | inr _ => (STATE_INIT "0.4.0" 1000, Samples.legacy_state)
              end in
  (theme <$> once.2 settings) = Some (Some night) ∧
  ∃ init2 state2,
    migrate once.1 once.2 = inl (init2, state2) ∧
    (∀ k, init2 k = once.1 k) ∧ (∀ k, state2 k = once.2 k).
Proof.
  intros once. split; [vm_compute; reflexivity|].
  apply (migrate_idempotent (STATE_INIT "0.4.0" 1000) Samples.legacy_state).
  reflexivity.
Defined.

End LoadCallback.

(** ** Writes to the snapshot: [setPeer] and [pushToState] *)


Section SnapshotWrites.
Import StateStore AppState.

Ltac decide_keys := apply (bool_decide_unpack _); vm_compute; exact I.

(** An own property for the peer id, whatever it holds, makes [setPeer]
    return at once. *)
Lemma setPeer_present m peerId peer x :
  peerEntry peerId m = Some x → setPeer peerId peer m = (inl tt, m).
Proof.
  unfold peerEntry, setPeer, bind, get. cbv beta iota.
  destruct (state m) as [st|]; [|done].
  destruct (bool_decide (0 < peerId)).
  - destruct (st users) as [container|]; [|done]. cbn [mbind option_bind ftype].
    intros Hx. rewrite bool_decide_eq_true_2; [done|by eexists].
  - destruct (st chats) as [container|]; [|done]. cbn [mbind option_bind ftype].
    intros Hx. rewrite bool_decide_eq_true_2; [done|by eexists].
Qed.

(** X11: [setPeer] never replaces an entry: the first value written for a
    peer id stays (an entry already there, even one holding [undefined],
    makes the call a no-op), a second call for the same id changes nothing,
    and no other peer and no other key of the snapshot is touched. *)
Theorem setPeer_first_wins m peerId a b m1 :
  setPeer peerId a m = (inl tt, m1) →
  peerEntry peerId m1 = Some (default a (peerEntry peerId m)) ∧
  setPeer peerId b m1 = (inl tt, m1) ∧
  (∀ q, q ≠ peerId → peerEntry q m1 = peerEntry q m) ∧
  (∀ k, k ≠ users → k ≠ chats → stateField k m1 = stateField k m).
Proof.
  intros Hrun.
  destruct (state m) as [st|] eqn:Hst.
  2:{ unfold setPeer, bind, get in Hrun. cbv beta iota in Hrun. by rewrite Hst in Hrun. }
  assert (Hdone : ∀ m2 st2, state m2 = Some st2 →
            (∃ container, (if bool_decide (0 < peerId) then st2 users else st2 chats)
                          = Some container ∧ is_Some (container !! peerId)) →
            setPeer peerId b m2 = (inl tt, m2)).
  { intros m2 st2 Hst2 (container & Hc & Hin).
    unfold setPeer, bind, get. cbv beta iota. rewrite Hst2.
    destruct (bool_decide (0 < peerId)); rewrite Hc;
      by rewrite (bool_decide_eq_true_2 _ Hin). }
  unfold setPeer, bind, get in Hrun. cbv beta iota in Hrun. rewrite Hst in Hrun.
  unfold peerEntry, stateField. rewrite Hst. cbn [ftype] in *.
  destruct (bool_decide (0 < peerId)) eqn:Hpos.
  - destruct (st users) as [container|] eqn:Hc; [|done]. cbn [ftype] in *.
    destruct (container !! peerId) as [x|] eqn:Hx.
    + rewrite bool_decide_eq_true_2 in Hrun by by eexists.
      injection Hrun as <-. rewrite Hst, ?Hc. cbn [mbind option_bind default ftype].
      rewrite Hx. split; [done|]. split; [|done].
      apply (Hdone m st Hst). exists container. by rewrite Hc, Hx.
    + rewrite bool_decide_eq_false_2 in Hrun by by intros [? ?].
      injection Hrun as <-. cbn [state set_state mbind option_bind default].
      rewrite assign_eq. cbn [mbind option_bind]. rewrite lookup_insert_eq, Hx.
      split; [done|]. split; [|split].
      * eapply Hdone; [reflexivity|]. eexists. rewrite assign_eq.
        split; [done|]. rewrite lookup_insert_eq. by eexists.
      * intros q Hq. destruct (bool_decide (0 < q)).
        -- cbn [mbind option_bind]. by rewrite lookup_insert_ne.
        -- by rewrite assign_ne.
      * intros k Hu _. by rewrite assign_ne.
  - destruct (st chats) as [container|] eqn:Hc; [|done]. cbn [ftype] in *.
    destruct (container !! peerId) as [x|] eqn:Hx.
    + rewrite bool_decide_eq_true_2 in Hrun by by eexists.
      injection Hrun as <-. rewrite Hst, ?Hc. cbn [mbind option_bind default ftype].
      rewrite Hx. split; [done|]. split; [|done].
      apply (Hdone m st Hst). exists container. by rewrite Hc, Hx.
    + rewrite bool_decide_eq_false_2 in Hrun by by intros [? ?].
      injection Hrun as <-. cbn [state set_state mbind option_bind default].
      rewrite assign_eq. cbn [mbind option_bind]. rewrite lookup_insert_eq, Hx.
      split; [done|]. split; [|split].
      * eapply Hdone; [reflexivity|]. eexists. rewrite assign_eq.
        split; [done|]. rewrite lookup_insert_eq. by eexists.
      * intros q Hq. destruct (bool_decide (0 < q)).
        -- by rewrite assign_ne.
        -- cbn [mbind option_bind]. by rewrite lookup_insert_ne.
      * intros k _ Hk. by rewrite assign_ne.
Qed.

Lemma setPeer_first_wins_witness :
  let m := snd (loadBody Samples.stored_old (Samples.manager_at 2000)) in
  let m1 := snd (setPeer 9 (Some (Payload "user 9")) m) in
  peerEntry 9 m1 = Some (Some (Payload "user 9")) ∧
  setPeer 9 (Some (Payload "another user 9")) m1 = (inl tt, m1).
Proof.
  intros m m1.
  destruct (setPeer_first_wins m 9 (Some (Payload "user 9"))
              (Some (Payload "another user 9")) m1) as (Hentry & Hagain & _).
  - vm_compute. reflexivity.
  - split; [|exact Hagain]. rewrite Hentry. vm_compute. reflexivity.
Defined.

(** X12: after a load that refreshed an old snapshot, every peer of the
    recent-search list (other than id 0) has an own property in the rebuilt
    [users] / [chats] record, holding [undefined] when the stored record did not
    have the peer; so [setPeer] for such a peer is a no-op and the entry keeps
    that value. *)
Theorem setPeer_after_refresh stored m m' created peerId peer :
  arr stored stateCreatedTime = Some created →
  created + REFRESH_EVERY < now m →
  loadBody stored m = (inl tt, m') →
  let hyd := hydrate (g_STATE_INIT m) (arr stored) in
  peerId ∈ default [] (hyd recentSearch) → peerId ≠ 0 →
  peerEntry peerId m'
  = Some (default None
            (default ∅ (if bool_decide (0 < peerId) then hyd users else hyd chats : option peers)
               !! peerId)) ∧
  setPeer peerId peer m' = (inl tt, m').
Proof.
  intros Hcreated Hold Hrun hyd Hrecent Hnz.
  assert (Hentry : peerEntry peerId m'
    = Some (default None
              (default ∅ (if bool_decide (0 < peerId) then hyd users else hyd chats
                          : option peers) !! peerId))).
  { destruct (loadBody_returns _ _ _ Hrun) as (st0 & init' & st1 & Hst0 & _ & Hth & ->).
    fold hyd in Hst0.
    assert (Hstale : isStale hyd (now m) = true).
    { unfold isStale, hyd. rewrite hydrate_spec, Hcreated. by apply bool_decide_eq_true_2. }
    rewrite Hstale in Hst0.
    apply refresh_spec in Hst0 as (_ & _ & users' & chats' & Hu & Hc & Hp).
    unfold peerEntry. cbn [state].
    rewrite !stamped_other by done.
    rewrite !(migrateTheme_other _ _ _ Hth) by done.
    rewrite Hu, Hc. destruct (Hp peerId) as [Hpu Hpc].
    destruct (decide (0 < peerId)) as [Hpos|Hpos];
      [rewrite !(bool_decide_eq_true_2 _ Hpos)|rewrite !(bool_decide_eq_false_2 _ Hpos)];
      cbn [mbind option_bind].
    - rewrite Hpu. rewrite decide_True; [done|]. split; [done|lia].
    - rewrite Hpc. rewrite decide_True; [done|]. split; [done|lia]. }
  split; [exact Hentry|]. by eapply setPeer_present.
Qed.

Lemma setPeer_after_refresh_witness :
  let m' := snd (loadBody Samples.stored_pinned (Samples.manager_at (REFRESH_EVERY + 1))) in
  peerEntry 8 m' = Some None ∧
  setPeer 8 (Some (Payload "user 8")) m' = (inl tt, m').
Proof.
  intros m'.
  destruct (setPeer_after_refresh Samples.stored_pinned
              (Samples.manager_at (REFRESH_EVERY + 1)) m' 0 8 (Some (Payload "user 8")))
    as [Hentry Hnoop].
  - reflexivity.
  - vm_compute. reflexivity.
  - vm_compute. reflexivity.
  - apply (bool_decide_unpack _). vm_compute. exact I.
  - lia.
  - split; [|exact Hnoop]. rewrite Hentry. vm_compute. reflexivity.
Defined.

Lemma entryFor_same k value : entryFor k (StateEntry k value) = Some value.
Proof.
  unfold entryFor. cbn [entry_key entry_value].
  destruct (decide (k = k)) as [e|]; [|done].
  by rewrite (proof_irrel e eq_refl).
Qed.

Lemma assign_entryFor k value (st : State) k' :
  assign k value st k'
  = match entryFor k' (StateEntry k value) with Some x => x | None => st k' end.
Proof. unfold assign, entryFor. cbn [entry_key entry_value]. by destruct (decide (k = k')). Qed.

Lemma lastSet_cons k e rest :
  lastSet k (e :: rest)
  = match lastSet k rest with Some value => Some value | None => entryFor k e end.
Proof.
  unfold lastSet. cbn [omap list_omap].
  destruct (entryFor k e) as [x|]; [|by destruct (last _)].
  apply last_cons.
Qed.

(** X13: on a manager whose snapshot exists, a sequence of [pushToState]
    calls never throws, sends [sessionStorage.set] one entry per call in call
    order, and leaves every key of the snapshot equal to the value last sent
    to storage for it (keys not pushed are unchanged): the snapshot and the
    storage writes cannot drift apart. *)
Theorem pushAll_mirrors entries s st :
  state (owner s) = Some st →
  ∃ s', pushAll entries s = (inl tt, s') ∧
        sessionStorage_set s' = sessionStorage_set s ++ entries ∧
        ∀ k, stateField k (owner s')
             = match lastSet k entries with Some value => value | None => st k end.
Proof.
  revert s st. induction entries as [|[k value] rest IH]; intros s st Hst.
  - exists s. split; [done|]. split; [by rewrite app_nil_r|].
    intros k. unfold stateField. by rewrite Hst.
  - cbn [pushAll entry_key entry_value]. unfold bind at 1.
    unfold pushToState, bind, get, modify. cbv beta iota. rewrite Hst. cbv beta iota.
    cbn [owner sessionStorage_set].
    destruct (IH (Session (set_state (Some (assign k value st)) (owner s))
                    (sessionStorage_set s ++ [StateEntry k value]))
                 (assign k value st) eq_refl) as (s' & Hrun & Hlog & Hkeys).
    exists s'. split; [exact Hrun|]. split.
    + rewrite Hlog. cbn [sessionStorage_set]. by rewrite <- app_assoc.
    + intros k'. rewrite Hkeys, lastSet_cons.
      destruct (lastSet k' rest); [done|]. apply assign_entryFor.
Qed.

Lemma pushAll_mirrors_witness :
  let s := Session (snd (loadBody Samples.stored_old (Samples.manager_at 2000))) [] in
  let entries := [StateEntry keepSigned (Some false); StateEntry maxSeenMsgId (Some 9);
                  StateEntry keepSigned (Some true)] in
  ∃ s', pushAll entries s = (inl tt, s') ∧
        sessionStorage_set s' = entries ∧
        stateField keepSigned (owner s') = Some true ∧
        stateField maxSeenMsgId (owner s') = Some 9 ∧
        stateField topPeers (owner s') = Some [5; 6].
Proof.
  intros s entries.
  destruct (pushAll_mirrors entries s
              (default empty_state (state (owner s)))) as (s' & Hrun & Hlog & Hkeys).
  - vm_compute. reflexivity.
  - exists s'. split; [exact Hrun|]. split; [exact Hlog|].
    rewrite !Hkeys. repeat split; vm_compute; reflexivity.
Defined.

End SnapshotWrites.

(** ** Promise heap: settled cells stay as they are *)

Section SettledFacts.
Import Promise.
Context {S V H : Type} `{!Handlers S V H}.
Implicit Types (h : list (cell V H)) (p q : pref) (st : pstate V).

Lemma settle_kinds p st h : kind <$> settle p st h = kind <$> h.
Proof.
  unfold settle. destruct (h !! p) as [[k []]|] eqn:Hp; try done.
  rewrite list_fmap_insert. apply list_insert_id.
  by rewrite list_lookup_fmap, Hp.
Qed.

Lemma settle_settled p st h q :
  status_of h q ≠ Pending → status_of (settle p st h) q = status_of h q.
Proof.
  intros Hq. destruct (decide (p = q)) as [->|Hne]; [|by apply status_of_settle_ne].
  unfold settle, status_of in *.
  destruct (h !! q) as [[k []]|] eqn:E; try done; by rewrite E.
Qed.

Lemma app_settled h cells q :
  status_of h q ≠ Pending → status_of (h ++ cells) q = status_of h q.
Proof.
  unfold status_of. destruct (h !! q) as [c|] eqn:Hq; [|done].
  intros _. by rewrite (lookup_app_l_Some _ _ _ _ Hq).
Qed.

Lemma settle_now_settled p st h :
  is_Some (h !! p) → st ≠ Pending → status_of (settle p st h) p ≠ Pending.
Proof.
  intros [[k stp] Hp] Hst.
  destruct stp.
  - by rewrite (status_of_settle_pending _ _ _ _ Hp).
  - rewrite settle_settled; unfold status_of; by rewrite Hp.
  - rewrite settle_settled; unfold status_of; by rewrite Hp.
Qed.

End SettledFacts.


(** ** AppStateManager: the load callback runs once *)

Section LoadOnce.
Import StateStore Promise AppState.
Arguments loadSavedState : simpl never.
Arguments pushLoadPromise : simpl never.
Arguments loadBody : simpl never.
Arguments react : simpl never.
Arguments settle : simpl never.
Implicit Types (w : world) (h : list (cell value handler)) (p q : pref).

(** The two callbacks other than the load callback leave the manager's
    fields alone. *)
Lemma interp_plain hd arg w r w' :
  interp hd arg w = (r, w') → (∀ res, hd ≠ onStored res) → fields w' = fields w.
Proof.
  destruct hd as [res|res|]; simpl; unfold bind, get, ret; intros Hi Hplain.
  - by destruct (Hplain res).
  - revert Hi. destruct (resolveDeferred_run res arg w) as [-> | ->]; simpl;
      by intros [= <- <-].
  - by injection Hi as <- <-.
Qed.

(** A reaction either leaves the published part of the manager alone, or it
    is the reaction of a pending promise that carries the load callback,
    which it settles. *)
Lemma react_effect p w :
  ∃ h1, (h1 = promises w ∨ ∃ q v, h1 = settle q (Fulfilled v) (promises w)) ∧
        (promises (react p w) = h1 ∨
         ∃ st, st ≠ Pending ∧ promises (react p w) = settle p st h1) ∧
        (fields (react p w) = fields w ∨
         ∃ k, promises w !! p = Some (Cell k Pending) ∧ storesState k = true ∧
              ∃ st, st ≠ Pending ∧ promises (react p w) = settle p st h1).
Proof.
  assert (Hrun : ∀ hd arg k,
    promises w !! p = Some (Cell k Pending) →
    ((∀ r, hd ≠ onStored r) ∨ storesState k = true) →
    ∃ h1, (h1 = promises w ∨ ∃ q v, h1 = settle q (Fulfilled v) (promises w)) ∧
          (promises (runReaction p hd arg w) = h1 ∨
           ∃ st, st ≠ Pending ∧ promises (runReaction p hd arg w) = settle p st h1) ∧
          (fields (runReaction p hd arg w) = fields w ∨
           ∃ k, promises w !! p = Some (Cell k Pending) ∧ storesState k = true ∧
                ∃ st, st ≠ Pending ∧ promises (runReaction p hd arg w) = settle p st h1)).
  { intros hd arg k Hp Hkind. unfold runReaction.
    destruct (interp hd arg w) as [[v|e] w'] eqn:Hi;
      (exists (promises w'); split; [by apply interp_effect in Hi as (_ & _ & _ & ?)|]);
      cbn [promises fields];
      (split; [right; eexists; split; [|reflexivity]; done|]);
      (destruct Hkind as [Hplain|Hstores];
       [left; by eapply interp_plain
       |right; exists k; split; [done|]; split; [done|];
        eexists; split; [|reflexivity]; done]). }
  assert (Hsame : ∃ h1, (h1 = promises w ∨ ∃ q v, h1 = settle q (Fulfilled v) (promises w)) ∧
        (promises w = h1 ∨ ∃ st, st ≠ Pending ∧ promises w = settle p st h1) ∧
        (fields w = fields w ∨
         ∃ k, promises w !! p = Some (Cell k Pending) ∧ storesState k = true ∧
              ∃ st, st ≠ Pending ∧ promises w = settle p st h1)).
  { exists (promises w). auto. }
  assert (Hset : ∀ st, st ≠ Pending →
    ∃ h1, (h1 = promises w ∨ ∃ q v, h1 = settle q (Fulfilled v) (promises w)) ∧
        (settle p st (promises w) = h1 ∨
         ∃ st', st' ≠ Pending ∧ settle p st (promises w) = settle p st' h1) ∧
        (fields w = fields w ∨
         ∃ k, promises w !! p = Some (Cell k Pending) ∧ storesState k = true ∧
              ∃ st', st' ≠ Pending ∧ settle p st (promises w) = settle p st' h1)).
  { intros st Hst. exists (promises w). split; [by left|]. split; [right; by exists st|by left]. }
  unfold react.
  destruct (promises w !! p) as [[k stp]|] eqn:Hp; [|done].
  destruct k as [| | |src onF onR|srcs]; try done; destruct stp; try done.
  - destruct (status_of (promises w) src) as [|v|e]; [done| |].
    + destruct onF as [hd|]; [|by apply Hset].
      apply (Hrun hd v _ eq_refl). destruct hd; simpl; auto; left; by intros r0.
    + destruct onR as [hd|]; [|by apply Hset].
      apply (Hrun hd e _ eq_refl).
      destruct hd; simpl; [right; by destruct onF as [[]|]|left; by intros r0..].
  - destruct (firstRejected _ _) as [e|]; [by apply Hset|].
    destruct (allFulfilled _ _); [by apply Hset|done].
Qed.

Lemma react_kinds p w : kind <$> promises (react p w) = kind <$> promises w.
Proof.
  destruct (react_effect p w) as (h1 & Hh1 & Hh2 & _).
  assert (Hk1 : kind <$> h1 = kind <$> promises w).
  { destruct Hh1 as [-> | (q & v & ->)]; [done|apply settle_kinds]. }
  destruct Hh2 as [-> | (st & _ & ->)]; [done|by rewrite settle_kinds].
Qed.

Lemma react_settled p w q :
  status_of (promises w) q ≠ Pending →
  status_of (promises (react p w)) q = status_of (promises w) q.
Proof.
  intros Hq. destruct (react_effect p w) as (h1 & Hh1 & Hh2 & _).
  assert (Hs1 : status_of h1 q = status_of (promises w) q).
  { destruct Hh1 as [-> | (q' & v & ->)]; [done|by apply settle_settled]. }
  destruct Hh2 as [-> | (st & _ & ->)]; [done|].
  rewrite settle_settled; [done|by rewrite Hs1].
Qed.

Lemma react_published p w :
  published (fields (react p w)) = published (fields w) ∨
  ∃ k, promises w !! p = Some (Cell k Pending) ∧ storesState k = true ∧
       status_of (promises (react p w)) p ≠ Pending.
Proof.
  destruct (react_effect p w) as (h1 & Hh1 & _ & [-> | (k & Hp & Hk & st & Hst & ->)]);
    [by left|].
  right. exists k. split; [done|]. split; [done|].
  apply settle_now_settled; [|done].
  destruct Hh1 as [-> | (q' & v & ->)]; [by eexists|].
  destruct (settle_lookup q' (Fulfilled v) _ _ _ Hp) as (c' & Hc' & _). by eexists.
Qed.

(** What one event does to the promise heap of a constructed manager: new
    cells, none of which carries the load callback, or a reaction. *)
Lemma step_effect e w :
  wf w →
  (published (fields (step e w)) = published (fields w) ∧
   ((∃ cells, promises (step e w) = promises w ++ cells ∧
              Forall (λ c, storesState (kind c) = false) cells) ∨
    (∃ p st, promises (step e w) = settle p st (promises w)))) ∨
  (∃ p, e = React p).
Proof.
  intros (Hgood & [l Hl] & pa & src & st & Hpa & Hcell).
  assert (Hnothing : ∀ fs, published fs = published (fields w) →
            published fs = published (fields w) ∧
            ((∃ cells, promises w = promises w ++ cells ∧
                       Forall (λ c, storesState (kind c) = false) cells) ∨
             (∃ p st, promises w = settle p st (promises w)))).
  { intros fs Hfs. split; [done|]. left. exists []. by rewrite app_nil_r. }
  destruct e as [|promise| |peerId type limit|peerId type| |p outcome|p|time]; simpl.
  - left. rewrite (loadSavedState_again _ _ Hpa). by apply Hnothing.
  - left. unfold addLoadPromise, bind, get. simpl. rewrite Hl.
    rewrite pushLoadPromise_run. simpl. split; [done|]. left.
    eexists. split; [reflexivity|]. by repeat constructor.
  - left. unfold getState, bind, get. simpl.
    destruct (state (fields w)).
    + unfold resolved, newPromise. simpl. split; [done|]. left.
      eexists. split; [reflexivity|]. by repeat constructor.
    + rewrite (loadSavedState_again _ _ Hpa). by apply Hnothing.
  - left. unfold onFields, onDemand.
    destruct (PeerDemand.requestPeer _ _ _ _). simpl. by apply Hnothing.
  - left. unfold onFields, onDemand.
    destruct (PeerDemand.keepPeerSingle _ _ _). simpl. by apply Hnothing.
  - left. split; [done|]. left. eexists. split; [reflexivity|]. by repeat constructor.
  - left. unfold settleExternal.
    destruct (promises w !! p) as [[[] []]|] eqn:Hp; try by apply Hnothing.
    simpl. split; [done|]. right. by eexists _, _.
  - right. by exists p.
  - left. by apply Hnothing.
Qed.

Lemma step_settled e w q :
  wf w → status_of (promises w) q ≠ Pending →
  status_of (promises (step e w)) q = status_of (promises w) q.
Proof.
  intros Hwf Hq.
  destruct (step_effect e w Hwf) as [[_ [(cells & -> & _) | (p & st & ->)]] | [p ->]].
  - by apply app_settled.
  - by apply settle_settled.
  - by apply react_settled.
Qed.

Lemma step_kinds e w :
  wf w →
  ∃ ks, kind <$> promises (step e w) = (kind <$> promises w) ++ ks ∧
        Forall (λ k, storesState k = false) ks.
Proof.
  intros Hwf.
  destruct (step_effect e w Hwf) as [[_ [(cells & -> & Hcells) | (p & st & ->)]] | [p ->]].
  - exists (kind <$> cells). split; [apply fmap_app|]. by apply Forall_fmap.
  - exists []. by rewrite settle_kinds, app_nil_r.
  - exists []. cbn [step]. by rewrite react_kinds, app_nil_r.
Qed.

Lemma step_published e w :
  wf w →
  published (fields (step e w)) = published (fields w) ∨
  ∃ p k, promises w !! p = Some (Cell k Pending) ∧ storesState k = true ∧
         status_of (promises (step e w)) p ≠ Pending.
Proof.
  intros Hwf.
  destruct (step_effect e w Hwf) as [[Hsame _] | [p ->]]; [by left|].
  cbn [step]. destruct (react_published p w) as [Hsame | (k & Hp & Hk & Hst)];
    [by left|right; eauto].
Qed.

(** In every future of a constructed manager, the only promise whose
    reaction runs the load callback is the one made by the constructor. *)
Lemma only_body ver t tr q c :
  promises (run tr (boot ver t)) !! q = Some c → storesState (kind c) = true → q = body_p.
Proof.
  assert (Hkinds : ∃ ks, kind <$> promises (run tr (boot ver t))
                         = (kind <$> promises (boot ver t)) ++ ks ∧
                         Forall (λ k, storesState k = false) ks).
  { induction tr as [|e tr IH] using rev_ind.
    - exists []. by rewrite app_nil_r.
    - rewrite run_snoc. destruct IH as (ks & Hks & Hplain).
      destruct (step_kinds e (run tr (boot ver t))) as (ks' & Hks' & Hplain');
        [apply run_wf, boot_wf|].
      exists (ks ++ ks'). split.
      + rewrite Hks'. rewrite Hks. symmetry. apply app_assoc.
      + apply Forall_app. split. * exact Hplain. * exact Hplain'. }
  destruct Hkinds as (ks & Hks & Hplain).
  intros Hq Hstores.
  assert (Hk : (kind <$> promises (run tr (boot ver t))) !! q = Some (kind c))
    by (by rewrite list_lookup_fmap, Hq).
  rewrite Hks in Hk. apply lookup_app_Some in Hk as [Hk | [_ Hk]].
  - assert (Hboot : forallb (λ qk, negb (storesState qk.2) || bool_decide (qk.1 = body_p))
                      (imap pair (kind <$> promises (boot ver t))) = true)
      by (vm_compute; reflexivity).
    rewrite forallb_forall in Hboot.
    assert (Hin : In (q, kind c) (imap pair (kind <$> promises (boot ver t)))).
    { apply list_elem_of_In, list_elem_of_lookup. exists q.
      rewrite list_lookup_imap. by rewrite Hk. }
    apply Hboot in Hin. cbn [fst snd] in Hin. rewrite Hstores in Hin.
    by apply bool_decide_eq_true_1 in Hin.
  - eapply Forall_lookup_1 in Hplain; [|exact Hk]. simpl in Hplain. congruence.
Qed.

Lemma step_until_loaded e w :
  wf w →
  (∀ q c, promises w !! q = Some c → storesState (kind c) = true → q = body_p) →
  status_of (promises (step e w)) body_p = Pending →
  status_of (promises w) body_p = Pending ∧
  published (fields (step e w)) = published (fields w).
Proof.
  intros Hwf Honly Hafter.
  assert (Hbefore : status_of (promises w) body_p = Pending).
  { destruct (status_of (promises w) body_p) eqn:Hs; [reflexivity|..];
      rewrite (step_settled e w body_p Hwf) in Hafter by (rewrite Hs; discriminate);
      congruence. }
  split; [exact Hbefore|].
  destruct (step_published e w Hwf) as [Hsame | (p & k & Hp & Hk & Hst)]; [exact Hsame|].
  assert (p = body_p) as -> by (eapply Honly; [exact Hp|exact Hk]).
  destruct (Hst Hafter).
Qed.

Lemma step_after_loaded e w :
  wf w →
  (∀ q c, promises w !! q = Some c → storesState (kind c) = true → q = body_p) →
  status_of (promises w) body_p ≠ Pending →
  status_of (promises (step e w)) body_p ≠ Pending ∧
  published (fields (step e w)) = published (fields w).
Proof.
  intros Hwf Honly Hst.
  split; [rewrite step_settled; [exact Hst|exact Hwf|exact Hst]|].
  destruct (step_published e w Hwf) as [Hsame | (p & k & Hp & Hk & _)]; [exact Hsame|].
  assert (p = body_p) as -> by (eapply Honly; [exact Hp|exact Hk]).
  destruct Hst. unfold status_of. rewrite Hp. reflexivity.
Qed.

Lemma boot_published ver t :
  published (fields (boot ver t)) = (None, STATE_INIT ver t, None, []).
Proof. vm_compute. reflexivity. Qed.

Lemma published_until_loaded ver t tr :
  status_of (promises (run tr (boot ver t))) body_p = Pending →
  published (fields (run tr (boot ver t))) = (None, STATE_INIT ver t, None, []).
Proof.
  induction tr as [|e tr IH] using rev_ind; [intros _; apply boot_published|].
  rewrite run_snoc. intros Hafter.
  destruct (step_until_loaded e (run tr (boot ver t))) as [Hbefore Hsame].
  - apply run_wf, boot_wf.
  - apply only_body.
  - exact Hafter.
  - rewrite Hsame. exact (IH Hbefore).
Qed.

Lemma published_after_loaded ver t tr tr' :
  status_of (promises (run tr (boot ver t))) body_p ≠ Pending →
  status_of (promises (run (tr ++ tr') (boot ver t))) body_p ≠ Pending ∧
  published (fields (run (tr ++ tr') (boot ver t)))
  = published (fields (run tr (boot ver t))).
Proof.
  intros Hdone. induction tr' as [|e tr' [Hst IH]] using rev_ind.
  - rewrite app_nil_r. split; [exact Hdone|reflexivity].
  - rewrite app_assoc, run_snoc.
    destruct (step_after_loaded e (run (tr ++ tr') (boot ver t))) as [Hst' Hsame].
    + apply run_wf, boot_wf.
    + apply only_body.
    + exact Hst.
    + split; [exact Hst'|]. rewrite Hsame. exact IH.
Qed.

(** X15: once the reaction that carries the load callback has run, whether
    the callback returned or threw, nothing that happens to the manager later
    (calls of [loadSavedState], [addLoadPromise], [getState], [requestPeer]
    and [keepPeerSingle], reactions, settling promises) changes [this.state],
    [STATE_INIT], [rootScope.settings] or the broadcasts: the stored snapshot
    is loaded at most once. *)
Theorem load_callback_runs_once ver t tr tr' :
  let w := run tr (boot ver t) in
  status_of (promises w) body_p ≠ Pending →
  state (fields (run tr' w)) = state (fields w) ∧
  g_STATE_INIT (fields (run tr' w)) = g_STATE_INIT (fields w) ∧
  rootScope_settings (fields (run tr' w)) = rootScope_settings (fields w) ∧
  broadcasts (fields (run tr' w)) = broadcasts (fields w).
Proof.
  intros w Hdone.
  destruct (published_after_loaded ver t tr tr' Hdone) as [_ Hsame].
  rewrite run_app in Hsame. fold w in Hsame. unfold published in Hsame.
  injection Hsame as H1 H2 H3 H4. auto.
Qed.

(** X14: as long as the reaction that carries the load callback has not
    run, [this.state] is [undefined], whatever else has happened to the
    manager (calls of [loadSavedState], [addLoadPromise], [getState],
    [requestPeer] and [keepPeerSingle], reactions, settling promises);
    [setPeer] and [pushToState] called then throw a [TypeError] and
    change nothing (nothing is sent to [sessionStorage]). *)
Theorem state_undefined_until_loaded ver t tr :
  let w := run tr (boot ver t) in
  status_of (promises w) body_p = Pending →
  state (fields w) = None ∧
  (∀ peerId peer, ∃ msg, setPeer peerId peer (fields w) = (inr (TypeError msg), fields w)) ∧
  (∀ k value log, ∃ msg,
     pushToState k value (Session (fields w) log)
     = (inr (TypeError msg), Session (fields w) log)).
Proof.
  intros w Hpending.
  assert (Hstate : state (fields w) = None).
  { pose proof (published_until_loaded ver t tr Hpending) as Hsame.
    fold w in Hsame. unfold published in Hsame. injection Hsame as H1 _ _ _.
    rewrite H1. reflexivity. }
  split; [exact Hstate|]. split.
  - intros peerId peer. unfold setPeer, bind, get. cbv beta iota. rewrite Hstate.
    eexists. reflexivity.
  - intros k value log. unfold pushToState, bind, get. cbv beta iota.
    cbn [owner]. rewrite Hstate. eexists. reflexivity.
Qed.

(** X16: once [this.state] exists, every later [getState] returns a new
    promise that is already fulfilled with the snapshot, and touches nothing
    else: storage is not read again. *)
Theorem getState_after_load ver t tr tr' :
  let w := run tr (boot ver t) in
  is_Some (state (fields w)) →
  let w' := run tr' w in
  getState w' = (inl (length (promises w')),
                 World (fields w') (promises w' ++ [Cell Settled (Fulfilled VSnapshot)])).
Proof.
  intros w [st Hst] w'.
  assert (Hdone : status_of (promises w) body_p ≠ Pending).
  { intros Hpending.
    pose proof (published_until_loaded ver t tr Hpending) as Hsame.
    fold w in Hsame. unfold published in Hsame. injection Hsame as Hnone _ _ _.
    rewrite Hnone in Hst. discriminate Hst. }
  destruct (published_after_loaded ver t tr tr' Hdone) as [_ Hsame].
  rewrite run_app in Hsame. fold w in Hsame. fold w' in Hsame. unfold published in Hsame.
  injection Hsame as Hstate _ _ _.
  unfold getState, bind, get. cbv beta iota. rewrite Hstate, Hst. reflexivity.
Qed.

(** X17: [loadSavedState], and [getState] while the snapshot does not
    exist, return the promise of the latest [addLoadPromise], which also
    waits for the dependencies registered until then; they create nothing. *)
Theorem loadSavedState_returns_latest ver t tr dep :
  let w := run tr (boot ver t) in
  let added := addLoadPromise dep w in
  ∃ q, fst added = inl q ∧
       loadAllPromise (fields (snd added)) = Some q ∧
       loadSavedState (snd added) = (inl q, snd added) ∧
       (state (fields w) = None → getState (snd added) = (inl q, snd added)).
Proof.
  intros w added.
  assert (Hwf : wf w) by apply run_wf, boot_wf.
  pose proof Hwf as (_ & [l Hl] & _).
  assert (Hadd : added = pushLoadPromise dep w).
  { unfold added, addLoadPromise, bind, get. cbv beta iota. by rewrite Hl. }
  pose proof (pushLoadPromise_run dep w) as Hpush. cbv zeta in Hpush.
  rewrite <- Hadd in Hpush. rewrite Hpush. cbn [fst snd].
  eexists. split; [reflexivity|]. split; [reflexivity|]. split.
  - by apply loadSavedState_again.
  - intros Hnone. unfold getState, bind, get. cbv beta iota. cbn [fields state set_loadAllPromise
      set_loadPromises]. rewrite Hnone. by apply loadSavedState_again.
Qed.

Lemma state_undefined_until_loaded_witness :
  let w := run [CallRequestPeer 5 "a" None; Settle (readOf (Some users)) (inl VUndefined);
                CallGetState; Tick 5]
             (boot "0.4.0" 1000) in
  state (fields w) = None ∧
  ∃ msg, setPeer 5 (Some (Payload "user 5")) (fields w) = (inr (TypeError msg), fields w).
Proof.
  intros w.
  destruct (state_undefined_until_loaded "0.4.0" 1000
              [CallRequestPeer 5 "a" None; Settle (readOf (Some users)) (inl VUndefined);
               CallGetState; Tick 5]) as (Hnone & Hpeer & _).
  - vm_compute. reflexivity.
  - split; [exact Hnone|]. apply Hpeer.
Defined.

Lemma load_callback_runs_once_witness :
  let w := run (((λ p, Settle p (inl VUndefined)) <$> reads) ++
                [React reads_p; React body_p])%list (boot "0.4.0" 1000) in
  let w' := run [React body_p; React reads_p; Tick 7; CallGetState; React catch_p;
                 CallAddLoadPromise 0%nat; React loadAll_src; React loadAll_p] w in
  stateField version (fields w') = Some "0.4.0" ∧ state (fields w') = state (fields w).
Proof.
  intros w w'.
  destruct (load_callback_runs_once "0.4.0" 1000
              (((λ p, Settle p (inl VUndefined)) <$> reads) ++
               [React reads_p; React body_p])%list
              [React body_p; React reads_p; Tick 7; CallGetState; React catch_p;
               CallAddLoadPromise 0%nat; React loadAll_src; React loadAll_p])
    as (Hstate & _).
  - vm_compute. discriminate.
  - split; [|exact Hstate]. unfold stateField. fold w w' in Hstate. rewrite Hstate.
    vm_compute. reflexivity.
Defined.

Lemma getState_after_load_witness :
  let w := run (((λ p, Settle p (inl VUndefined)) <$> reads) ++
                [React reads_p; React body_p])%list (boot "0.4.0" 1000) in
  let w' := run [Tick 7; CallAddLoadPromise 0%nat] w in
  fst (getState w') = inl (length (promises w')) ∧
  status_of (promises (snd (getState w'))) (length (promises w')) = Fulfilled VSnapshot.
Proof.
  intros w w'.
  pose proof (getState_after_load "0.4.0" 1000
                (((λ p, Settle p (inl VUndefined)) <$> reads) ++
                 [React reads_p; React body_p])%list
                [Tick 7; CallAddLoadPromise 0%nat]) as Hget.
  cbv zeta in Hget. fold w in Hget. fold w' in Hget.
  rewrite Hget.
  - split; [reflexivity|]. cbn [snd promises]. unfold status_of.
    by rewrite lookup_app_r, Nat.sub_diag.
  - vm_compute. by eexists.
Defined.

End LoadOnce.

(** ** AppDocsManager: what a save leaves behind *)


Ltac in_list := apply (bool_decide_unpack _); vm_compute; exact I.

Section SaveDoc.
Import Promise AppDocs.
Context {env : Environment}.

Lemma manager_eta (m : manager) :
  Manager (docs m) (thumbs m) (objects m) (calls m) (objectURLs m) = m.
Proof. by destruct m. Qed.

(** A save of an id that is not registered, step by step: the context is
    merged into the caller's object, the object is registered, the legacy
    thumbnail is handed to [saveSmallFile], and only then the fields are
    derived; a throw on the thumbnail leaves the object registered as it came. *)
Lemma saveDoc_first m apiDoc ctx a :
  objects m !! apiDoc = Some a →
  docs m !! Doc.id a = None →
  let a' := match ctx with Some c => assignContext a c | None => a end in
  let m1 := Manager (<[ Doc.id a' := apiDoc ]> (docs m)) (thumbs m)
              (<[ apiDoc := a' ]> (objects m))
              (calls m ++ match thumbCall a' with Some c => [c] | None => [] end)
              (objectURLs m) in
  saveDoc apiDoc ctx m
  = match normalizeThumb a' with
    | inl a1 =>
        (inl apiDoc,
         set_objects (λ _, <[ apiDoc := finishDoc (defaultMimeType (applyAttributes a1)) ]>
                             (objects m)) m1)
    | inr e => (inr e, m1)
    end.
Proof.
  intros Ha Hid a' m1.
  assert (Hlt : (apiDoc < length (objects m))%nat) by (by eapply lookup_lt_Some).
  unfold saveDoc, bind, get. rewrite (readObject_run _ _ _ Ha). cbv beta iota.
  rewrite Hid.
  assert (Hctx : (match ctx with
                  | Some c => writeObject apiDoc (λ d, assignContext d c)
                  | None => ret tt
                  end) m
                 = (inl tt, set_objects (λ _, <[ apiDoc := a' ]> (objects m)) m)).
  { destruct ctx as [c|]; unfold writeObject, modify, ret, set_objects; cbv beta iota.
    - by rewrite Ha.
    - unfold a'. by rewrite list_insert_id, manager_eta. }
  rewrite Hctx. cbv beta iota.
  rewrite (readObject_run _ _ a') by (cbn; by apply list_lookup_insert_eq).
  cbv beta iota. unfold modify at 1. cbv beta iota.
  assert (Hlog : (match thumbCall a' with Some c => modify (log c) | None => ret tt end)
                   (set_docs <[Doc.id a':=apiDoc]>
                      (set_objects (λ _, <[apiDoc:=a']> (objects m)) m))
                 = (inl tt, m1)).
  { unfold m1. destruct (thumbCall a'); unfold modify, ret, log, set_docs, set_objects; cbn.
    - done.
    - by rewrite app_nil_r. }
  rewrite Hlog. cbv beta iota.
  destruct (normalizeThumb a') as [a1|e]; cbn [lift]; unfold ret, throw; cbv beta iota;
    [|done].
  unfold writeObject, modify, set_objects. cbn.
  rewrite list_lookup_insert_eq by done. by rewrite list_insert_insert_eq.
Qed.

(** A save of a registered id: only the stored object can change, by the
    thumbnail merge and the context. *)
Lemma saveDoc_known m apiDoc ctx a dref d :
  objects m !! apiDoc = Some a →
  docs m !! Doc.id a = Some dref →
  objects m !! dref = Some d →
  saveDoc apiDoc ctx m
  = match mergeThumbs a d with
    | inl d' =>
        (inl dref,
         set_objects (λ _, <[ dref := match ctx with
                                      | Some c => assignContext d' c
                                      | None => d'
                                      end ]> (objects m)) m)
    | inr e => (inr e, m)
    end.
Proof.
  intros Ha Hid Hd.
  assert (Hlt : (dref < length (objects m))%nat) by (by eapply lookup_lt_Some).
  unfold saveDoc, bind, get. rewrite (readObject_run _ _ _ Ha). cbv beta iota.
  rewrite Hid. rewrite (readObject_run _ _ _ Hd). cbv beta iota.
  destruct (mergeThumbs a d) as [d'|e]; cbn [lift]; unfold ret, throw; cbv beta iota;
    [|done].
  unfold writeObject at 1, modify. cbv beta iota.
  destruct ctx as [c|]; unfold writeObject, modify, ret, set_objects; cbn; rewrite Hd.
  - rewrite list_lookup_insert_eq by done. by rewrite list_insert_insert_eq.
  - done.
Qed.

(** X18: once the first thumbnail of the stored descriptor carries bytes,
    saving that id again (without context) changes nothing in the manager: it
    returns the stored object, or throws when the new descriptor comes with an
    empty thumbnail array, whose first element the merge reads. *)
Theorem saveDoc_known_rich_is_noop m apiDoc a dref d d0 drest bs r m' :
  objects m !! apiDoc = Some a →
  docs m !! Doc.id a = Some dref →
  objects m !! dref = Some d →
  Doc.thumbs d = Some (d0 :: drest) → Photo.bytes d0 = Some bs →
  saveDoc apiDoc None m = (r, m') →
  m' = m ∧ (r = inl dref ∨ (Doc.thumbs a = Some [] ∧ r = inr undefinedError)).
Proof.
  intros Ha Hid Hd Hdt Hd0. rewrite (saveDoc_known _ _ _ _ _ _ Ha Hid Hd).
  assert (Hmerge : mergeThumbs a d = inl d
                   ∨ (Doc.thumbs a = Some [] ∧ mergeThumbs a d = inr undefinedError)).
  { unfold mergeThumbs. rewrite Hdt, Hd0.
    destruct (Doc.thumbs a) as [[|a0 arest]|]; [right; done| |left; done].
    left. destruct (bool_decide (is_Some (Photo.bytes a0))); [|done].
    by rewrite bool_decide_eq_true_2 by by eexists. }
  destruct Hmerge as [-> | [Hempty ->]].
  - intros [= <- <-]. split; [|by left].
    unfold set_objects. rewrite list_insert_id by done. apply manager_eta.
  - intros [= <- <-]. split; [done|]. by right.
Qed.

Lemma applyAttribute_frame d a :
  Doc.id (applyAttribute d a) = Doc.id d ∧ Doc.tag (applyAttribute d a) = Doc.tag d ∧
  Doc.thumb (applyAttribute d a) = Doc.thumb d ∧ Doc.size (applyAttribute d a) = Doc.size d.
Proof. destruct a; cbn; repeat case_match; done. Qed.

Lemma applyAttributes_frame d :
  Doc.id (applyAttributes d) = Doc.id d ∧ Doc.tag (applyAttributes d) = Doc.tag d ∧
  Doc.thumb (applyAttributes d) = Doc.thumb d ∧ Doc.size (applyAttributes d) = Doc.size d ∧
  Doc.mime_type (applyAttributes d) = Doc.mime_type d.
Proof.
  unfold applyAttributes. cbn.
  destruct (foldl_applyAttribute_type d (Doc.attributes d)) as (Hm & _ & _).
  assert (Hframe : ∀ attrs,
    Doc.id (foldl applyAttribute d attrs) = Doc.id d ∧
    Doc.tag (foldl applyAttribute d attrs) = Doc.tag d ∧
    Doc.thumb (foldl applyAttribute d attrs) = Doc.thumb d ∧
    Doc.size (foldl applyAttribute d attrs) = Doc.size d).
  { induction attrs as [|x attrs IH] using rev_ind; [done|].
    rewrite foldl_app. cbn [foldl].
    destruct (applyAttribute_frame (foldl applyAttribute d attrs) x) as (-> & -> & -> & ->).
    exact IH. }
  destruct (Hframe (Doc.attributes d)) as (? & ? & ? & ?). done.
Qed.

Lemma defaultMimeType_frame d :
  truthyString (Doc.mime_type (defaultMimeType d)) = true ∧
  Doc.id (defaultMimeType d) = Doc.id d ∧ Doc.tag (defaultMimeType d) = Doc.tag d ∧
  Doc.thumb (defaultMimeType d) = Doc.thumb d ∧ Doc.size (defaultMimeType d) = Doc.size d.
Proof.
  unfold defaultMimeType. destruct (truthyString (Doc.mime_type d)) eqn:Hm; [done|].
  cbn. repeat case_match; done.
Qed.

Lemma finishDoc_frame d :
  Doc.mime_type (finishDoc d) = Doc.mime_type d ∧ is_Some (Doc.file_name (finishDoc d)) ∧
  Doc.id (finishDoc d) = Doc.id d ∧ Doc.tag (finishDoc d) = Doc.tag d ∧
  Doc.thumb (finishDoc d) = Doc.thumb d ∧
  (Doc.tag d = "documentEmpty" → Doc.size (finishDoc d) = 0).
Proof.
  unfold finishDoc.
  set (d1 := if truthyString (Doc.file_name d) then d else Doc.set_file_name (Some "") d).
  assert (H1 : Doc.mime_type d1 = Doc.mime_type d ∧ is_Some (Doc.file_name d1) ∧
               Doc.id d1 = Doc.id d ∧ Doc.tag d1 = Doc.tag d ∧ Doc.thumb d1 = Doc.thumb d).
  { unfold d1, truthyString. destruct (Doc.file_name d) as [n|] eqn:Hn; cbn.
    - destruct (negb _); cbn; rewrite ?Hn; repeat split; by eexists.
    - repeat split; by eexists. }
  destruct H1 as (Hm & Hn & Hi & Ht & Hth).
  set (d2 := if _ && _ then _ else d1).
  assert (H2 : Doc.mime_type d2 = Doc.mime_type d ∧ is_Some (Doc.file_name d2) ∧
               Doc.id d2 = Doc.id d ∧ Doc.tag d2 = Doc.tag d ∧ Doc.thumb d2 = Doc.thumb d).
  { unfold d2. by destruct (_ && _). }
  destruct H2 as (Hm2 & Hn2 & Hi2 & Ht2 & Hth2).
  destruct (decide (Doc.tag d2 = "documentEmpty")) as [He|He];
    [rewrite (bool_decide_eq_true_2 _ He)|rewrite (bool_decide_eq_false_2 _ He)].
  - cbn. done.
  - repeat split; try done. intros Hempty. destruct He. by rewrite Ht2.
Qed.

Lemma normalizeThumb_thumb a a1 th :
  normalizeThumb a = inl a1 → Doc.thumb a1 = Some th →
  Photo.tag th ≠ "photoCachedSize" ∧ Photo.tag th ≠ "photoSizeEmpty".
Proof.
  unfold normalizeThumb. destruct (Doc.thumb a) as [t|] eqn:Ht.
  - destruct (decide (Photo.tag t = "photoCachedSize")) as [Hc|Hc];
      [rewrite (bool_decide_eq_true_2 _ Hc)|rewrite (bool_decide_eq_false_2 _ Hc)].
    + destruct (Photo.bytes t); [|done]. intros [= <-]. cbn. by intros [= <-].
    + destruct (decide (Photo.tag t = "photoSizeEmpty")) as [He|He];
        [rewrite (bool_decide_eq_true_2 _ He)|rewrite (bool_decide_eq_false_2 _ He)].
      * intros [= <-]. cbn. discriminate.
      * intros [= <-]. rewrite Ht. by intros [= <-].
  - intros [= <-]. rewrite Ht. discriminate.
Qed.

Lemma normalizeThumb_frame a a1 :
  normalizeThumb a = inl a1 → Doc.id a1 = Doc.id a ∧ Doc.tag a1 = Doc.tag a.
Proof. unfold normalizeThumb. intros Hn. repeat case_match; simplify_eq/=; done. Qed.

Lemma saveDoc_first_stored m apiDoc ctx a r m' :
  objects m !! apiDoc = Some a →
  docs m !! Doc.id a = None →
  saveDoc apiDoc ctx m = (inl r, m') →
  ∃ d, r = apiDoc ∧ objects m' !! apiDoc = Some d ∧
       docs m' !! Doc.id d = Some apiDoc ∧
       truthyString (Doc.mime_type d) = true ∧ is_Some (Doc.file_name d) ∧
       (Doc.tag d = "documentEmpty" → Doc.size d = 0) ∧
       (∀ th, Doc.thumb d = Some th →
              Photo.tag th ≠ "photoCachedSize" ∧ Photo.tag th ≠ "photoSizeEmpty").
Proof.
  intros Ha Hid. rewrite (saveDoc_first _ _ ctx _ Ha Hid).
  assert (Hlt : (apiDoc < length (objects m))%nat) by (by eapply lookup_lt_Some).
  set (a' := match ctx with Some c => assignContext a c | None => a end).
  destruct (normalizeThumb a') as [a1|e] eqn:Hn; [|done].
  intros [= <- <-]. eexists. split; [done|]. cbn [objects set_objects docs].
  split; [by apply list_lookup_insert_eq|].
  destruct (finishDoc_frame (defaultMimeType (applyAttributes a1)))
    as (Hmime & Hname & Hfid & Hftag & Hfthumb & Hsize).
  destruct (defaultMimeType_frame (applyAttributes a1)) as (Htruthy & Hdid & Hdtag & Hdthumb & _).
  destruct (applyAttributes_frame a1) as (Haid & Hatag & Hathumb & _).
  destruct (normalizeThumb_frame _ _ Hn) as (Hnid & Hntag).
  split; [|split; [|split; [|split]]].
  - rewrite Hfid, Hdid, Haid, Hnid. apply lookup_insert_eq.
  - by rewrite Hmime.
  - done.
  - rewrite Hftag. exact Hsize.
  - intros th. rewrite Hfthumb, Hdthumb, Hathumb. by apply (normalizeThumb_thumb a').
Qed.

(** X19: whatever the descriptor and the context, a first save that returns
    leaves the caller's object registered under its own id and in normal form:
    a non-empty MIME type, a file name that is a string, size 0 for an empty
    document, and no legacy thumbnail of kind [photoCachedSize] or
    [photoSizeEmpty]. *)
Theorem saveDoc_first_normal_form m apiDoc ctx a r m' :
  objects m !! apiDoc = Some a →
  docs m !! Doc.id a = None →
  saveDoc apiDoc ctx m = (inl r, m') →
  ∃ d, r = apiDoc ∧ objects m' !! apiDoc = Some d ∧
       docs m' !! Doc.id d = Some apiDoc ∧
       truthyString (Doc.mime_type d) = true ∧ is_Some (Doc.file_name d) ∧
       (Doc.tag d = "documentEmpty" → Doc.size d = 0) ∧
       (∀ th, Doc.thumb d = Some th →
              Photo.tag th ≠ "photoCachedSize" ∧ Photo.tag th ≠ "photoSizeEmpty").
Proof. apply saveDoc_first_stored. Qed.

(** X20: a first save whose legacy thumbnail is a [photoCachedSize] without
    bytes throws, but only after the object has been registered and
    [saveSmallFile] has been called: the registry then hands out the
    descriptor as it came, with none of the derived fields. *)
Theorem saveDoc_throw_leaves_registered m apiDoc a th :
  objects m !! apiDoc = Some a →
  docs m !! Doc.id a = None →
  Doc.thumb a = Some th → Photo.tag th = "photoCachedSize" → Photo.bytes th = None →
  ∃ m', saveDoc apiDoc None m = (inr undefinedError, m') ∧
        getDoc (ById (Doc.id a)) m' = Some apiDoc ∧
        objects m' = objects m ∧
        calls m' = calls m ++ [saveSmallFile (Photo.location th) None].
Proof.
  intros Ha Hid Hth Htag Hbytes. rewrite (saveDoc_first _ _ None _ Ha Hid). cbv zeta.
  unfold normalizeThumb, thumbCall. rewrite Hth, Htag, Hbytes.
  rewrite bool_decide_eq_true_2 by done.
  eexists. split; [reflexivity|]. cbn. split; [apply lookup_insert_eq|].
  split; [by apply list_insert_id|done].
Qed.

Lemma typeGiven_no_mime mime hasThumbs a t :
  truthyString mime = false → typeGiven mime hasThumbs a = Some t →
  t ∈ ["voice"; "audio"; "round"; "video"].
Proof.
  intros Hm. assert (Hw : mime ≠ Some "image/webp") by (intros ->; done).
  assert (Hg : mime ≠ Some "image/gif") by (intros ->; done).
  assert (Hv : mime ≠ Some "video/mp4") by (intros ->; done).
  destruct a as [n|dur title perf voice|dur w h round|alt set|w h| |]; cbn;
    rewrite ?(bool_decide_eq_false_2 _ Hw), ?(bool_decide_eq_false_2 _ Hg),
      ?(bool_decide_eq_false_2 _ Hv); try done.
  - intros [= <-]. destruct voice; in_list.
  - intros [= <-]. destruct (hasThumbs && round); in_list.
Qed.

(** X21: a descriptor that arrives without a MIME type and without a type
    is never classified as sticker or gif, whatever its attributes say (both
    tests read the MIME type before the default is filled in): a first save
    that returns leaves one of five type / MIME pairs. *)
Theorem saveDoc_without_mime m apiDoc a r m' :
  objects m !! apiDoc = Some a →
  docs m !! Doc.id a = None →
  truthyString (Doc.mime_type a) = false → Doc.type a = None →
  saveDoc apiDoc None m = (inl r, m') →
  ∃ d, objects m' !! apiDoc = Some d ∧
       (Doc.type d, Doc.mime_type d)
       ∈ [(None, Some "application/octet-stream"); (Some "voice", Some "audio/ogg");
          (Some "audio", Some "audio/mpeg"); (Some "video", Some "video/mp4");
          (Some "round", Some "video/mp4")].
Proof.
  intros Ha Hid Hmime Htype. rewrite (saveDoc_first _ _ None _ Ha Hid). cbv zeta.
  assert (Hlt : (apiDoc < length (objects m))%nat) by (by eapply lookup_lt_Some).
  destruct (normalizeThumb a) as [a1|e] eqn:Hn; [|done].
  intros [= <- <-]. eexists. cbn [objects set_objects].
  split; [by apply list_lookup_insert_eq|].
  destruct (normalizeThumb_keeps _ _ Hn) as (_ & Hm1 & _ & _ & Ht1).
  set (d0 := applyAttributes a1).
  assert (Hd0m : Doc.mime_type d0 = Doc.mime_type a).
  { unfold d0. destruct (applyAttributes_frame a1) as (_ & _ & _ & _ & ->). done. }
  assert (Hd0t : Doc.type d0 ∈ [None; Some "voice"; Some "audio"; Some "round"; Some "video"]).
  { unfold d0, applyAttributes. cbn [Doc.type Doc.set_attributes].
    destruct (foldl_applyAttribute_type a1 (Doc.attributes a1)) as (_ & _ & ->).
    rewrite Hm1, Ht1, Htype.
    destruct (last _) as [t|] eqn:Hlast; [|in_list].
    apply last_Some_elem_of, list_elem_of_omap in Hlast as (x & _ & Hx).
    apply (typeGiven_no_mime _ _ _ _ Hmime) in Hx.
    repeat (apply elem_of_cons in Hx as [-> | Hx]); [..|by apply elem_of_nil in Hx];
      in_list. }
  rewrite finishDoc_type.
  destruct (finishDoc_frame (defaultMimeType d0)) as (-> & _).
  assert (Hdef : Doc.type (defaultMimeType d0) = Doc.type d0 ∧
                 Doc.mime_type (defaultMimeType d0)
                 = Some (match Doc.type d0 with
                         | Some "gif" => "video/mp4"
                         | Some "video" | Some "round" => "video/mp4"
                         | Some "sticker" => "image/webp"
                         | Some "audio" => "audio/mpeg"
                         | Some "voice" => "audio/ogg"
                         | _ => "application/octet-stream"
                         end)).
  { unfold defaultMimeType. rewrite Hd0m, Hmime. done. }
  destruct Hdef as [-> ->].
  repeat (apply elem_of_cons in Hd0t as [-> | Hd0t]); [..|by apply elem_of_nil in Hd0t];
    in_list.
Qed.

End SaveDoc.

Section SaveDocSamples.
Import Promise AppDocs.


Lemma saveDoc_known_rich_is_noop_witness :
  saveDoc 1%nat None (fields Samples.seenTwice) = (inl 0%nat, fields Samples.seenTwice).
Proof.
  destruct (saveDoc_known_rich_is_noop (env := Samples.plain) (fields Samples.seenTwice)
              1%nat Samples.second42 0%nat
              (Doc.set_thumbs (Some [Samples.rich; Samples.placeholder])
                 (Doc.set_file_name (Some "") Samples.first42))
              Samples.rich [Samples.placeholder] [Byte.x01; Byte.x02]
              (fst (saveDoc 1%nat None (fields Samples.seenTwice)))
              (snd (saveDoc 1%nat None (fields Samples.seenTwice))))
    as [Hm [Hr | [Hempty _]]].
  1-6: reflexivity.
  - rewrite (surjective_pairing (saveDoc 1%nat None (fields Samples.seenTwice))).
    by rewrite Hm, Hr.
  - discriminate Hempty.
Defined.

Lemma saveDoc_first_normal_form_witness :
  ∃ d, objects (fields (Samples.savedAlone (Samples.bare "7" None Samples.audioThenVideo)))
         !! 0%nat = Some d ∧
       truthyString (Doc.mime_type d) = true ∧ is_Some (Doc.file_name d).
Proof.
  destruct (saveDoc_first_normal_form (env := Samples.plain)
              (fields (run [NewObject (Samples.bare "7" None Samples.audioThenVideo)] empty))
              0%nat None (Samples.bare "7" None Samples.audioThenVideo) 0%nat
              (fields (Samples.savedAlone (Samples.bare "7" None Samples.audioThenVideo))))
    as (d & _ & Hd & _ & Hmime & Hname & _); try reflexivity.
  by exists d.
Defined.

Lemma saveDoc_throw_leaves_registered_witness :
  ∃ m', saveDoc 0%nat None (fields (run [NewObject Samples.broken] empty))
        = (inr undefinedError, m') ∧
        getDoc (ById "9") m' = Some 0%nat ∧
        Doc.file_name <$> objects m' !! 0%nat = Some None.
Proof.
  destruct (saveDoc_throw_leaves_registered (env := Samples.plain)
              (fields (run [NewObject Samples.broken] empty)) 0%nat Samples.broken
              (Photo.Make "photoCachedSize" "s" "loc" None None))
    as (m' & Hrun & Hget & Hobjs & _); try reflexivity.
  exists m'. split; [exact Hrun|]. split; [exact Hget|]. by rewrite Hobjs.
Defined.

Lemma saveDoc_without_mime_witness :
  ∃ d, objects (fields (Samples.savedAlone Samples.untyped)) !! 0%nat = Some d ∧
       Doc.type d = Some "voice" ∧ Doc.mime_type d = Some "audio/ogg".
Proof.
  destruct (saveDoc_without_mime (env := Samples.plain)
              (fields (run [NewObject Samples.untyped] empty)) 0%nat Samples.untyped 0%nat
              (fields (Samples.savedAlone Samples.untyped)))
    as (d & Hd & _); try reflexivity.
  exists d. split; [exact Hd|].
  assert (Hd' : objects (fields (Samples.savedAlone Samples.untyped)) !! 0%nat = Some d)
    by exact Hd.
  vm_compute in Hd'. injection Hd' as <-. split; reflexivity.
Defined.

End SaveDocSamples.

(** ** AppDocsManager: file names and cache keys *)

Section Names.
Import Promise AppDocs.
Context {env : Environment}.

Lemma splitOn_free c s : free c s = true → splitOn c s = [s].
Proof.
  induction s as [|c' s IH]; [done|]. cbn [free splitOn].
  intros [Hc Hs]%andb_true_iff. apply negb_true_iff in Hc. rewrite Hc.
  by rewrite (IH Hs).
Qed.

Lemma append_nil_l s : String.append "" s = s.
Proof. reflexivity. Qed.

Lemma append_cons c a s : String.append (String c a) s = String c (String.append a s).
Proof. reflexivity. Qed.

Lemma splitOn_app c a b :
  free c a = true → splitOn c (String.append a (String c b)) = a :: splitOn c b.
Proof.
  induction a as [|c' a IH]; cbn [free].
  - intros _. rewrite append_nil_l. cbn [splitOn]. by rewrite bool_decide_eq_true_2.
  - intros [Hc Ha]%andb_true_iff. apply negb_true_iff in Hc.
    rewrite append_cons. cbn [splitOn]. rewrite Hc. by rewrite (IH Ha).
Qed.

Lemma append_inj_l a b c : String.append a b = String.append a c → b = c.
Proof.
  induction a as [|x a IH]; [by rewrite !append_nil_l|].
  rewrite !append_cons. intros [= H]. by apply IH.
Qed.

Lemma append_assoc x y z :
  String.append x (String.append y z) = String.append (String.append x y) z.
Proof.
  induction x as [|c x IH]; [by rewrite !append_nil_l|].
  rewrite !append_cons. by rewrite IH.
Qed.

(** X23: without a file name, [getFileName] builds ['t_' + (type or 'file')
    + id + extension]; for a MIME type [major/minor] the extension is
    ['.' + minor], except ['octet-stream'], which gives none; a MIME type
    without a slash gives the extension ['.undefined']. *)
Theorem getFileName_synthesized doc :
  truthyString (Doc.file_name doc) = false →
  let stem := String.append "t_"
                (String.append (if truthyString (Doc.type doc)
                                then default "" (Doc.type doc) else "file")
                               (Doc.id doc)) in
  (∀ major minor,
     Doc.mime_type doc = Some (String.append major (String.append "/" minor)) →
     free "/" major = true → free "/" minor = true →
     getFileName doc
     = inl (String.append stem
              (if bool_decide (minor = "octet-stream") then ""
               else String.append "." minor))) ∧
  (∀ mime_type,
     Doc.mime_type doc = Some mime_type → free "/" mime_type = true →
     getFileName doc = inl (String.append stem ".undefined")).
Proof.
  intros Hname stem.
  pose proof append_assoc as Hassoc.
  split.
  - intros major minor Hmime Hmajor Hminor.
    unfold getFileName. rewrite Hname, Hmime. unfold mimeExt.
    change (String.append "/" minor) with (String "/" minor).
    rewrite (splitOn_app _ _ _ Hmajor), (splitOn_free _ _ Hminor).
    cbn [lookup list_lookup default from_option id].
    unfold stem. rewrite <- !Hassoc. do 4 f_equal.
    destruct (decide (minor = "octet-stream")) as [->|Hne].
    + by rewrite !bool_decide_eq_true_2.
    + rewrite !bool_decide_eq_false_2; [done..|].
      intros Heq. apply Hne. by apply (append_inj_l ".").
  - intros mime_type Hmime Hfree.
    unfold getFileName. rewrite Hname, Hmime. unfold mimeExt.
    rewrite (splitOn_free _ _ Hfree). cbn [lookup list_lookup default from_option id].
    rewrite bool_decide_eq_false_2 by discriminate.
    unfold stem. by rewrite <- !Hassoc.
Qed.

(** X22: [getFileName] does not throw on a descriptor that a first save has
    stored, and the name is never empty: it is the file name when that is
    non-empty, and a synthesized name otherwise. *)
Theorem getFileName_of_saved m apiDoc ctx a r m' :
  objects m !! apiDoc = Some a →
  docs m !! Doc.id a = None →
  saveDoc apiDoc ctx m = (inl r, m') →
  ∃ d name, objects m' !! r = Some d ∧ getFileName d = inl name ∧ name ≠ "" ∧
            (truthyString (Doc.file_name d) = true → Doc.file_name d = Some name).
Proof.
  intros Ha Hid Hrun.
  destruct (saveDoc_first_stored _ _ _ _ _ _ Ha Hid Hrun)
    as (d & -> & Hd & _ & Hmime & _).
  exists d. unfold getFileName.
  destruct (truthyString (Doc.file_name d)) eqn:Hname.
  - destruct (Doc.file_name d) as [n|]; [|done]. exists n.
    split; [done|]. split; [done|]. split; [|done].
    intros ->. done.
  - destruct (Doc.mime_type d) as [mt|]; [|done].
    eexists. split; [done|]. split; [reflexivity|]. split; [|done].
    rewrite append_cons. discriminate.
Qed.

Lemma thumbKey_inj id1 size1 id2 size2 :
  free "-" id1 = true → free "-" id2 = true →
  thumbKey id1 size1 = thumbKey id2 size2 → id1 = id2 ∧ size1 = size2.
Proof.
  unfold thumbKey. change (String.append "-" size1) with (String "-" size1).
  change (String.append "-" size2) with (String "-" size2). revert id2.
  induction id1 as [|c1 id1 IH]; intros [|c2 id2]; cbn [free];
    rewrite ?append_nil_l, ?append_cons.
  - intros _ _ [= ->]. done.
  - intros _ [Hc _]%andb_true_iff [= <- _]. by rewrite bool_decide_eq_true_2 in Hc.
  - intros [Hc _]%andb_true_iff _ [= -> _]. by rewrite bool_decide_eq_true_2 in Hc.
  - intros [_ H1]%andb_true_iff [_ H2]%andb_true_iff [= -> Heq].
    destruct (IH id2 H1 H2 Heq) as [-> ->]. done.
Qed.

(** X24: with ids that contain no dash, two different (id, size) pairs
    never share a slot of the thumbnail cache: [downloadDocThumb] for one pair
    leaves [hasDownloadedThumb] of every other pair as it was. *)
Theorem thumb_slots_distinct w docID thumbSize transfer r doc id' size' :
  getDoc docID (fields w) = Some r →
  objects (fields w) !! r = Some doc →
  free "-" (Doc.id doc) = true → free "-" id' = true →
  (Doc.id doc, thumbSize) ≠ (id', size') →
  hasDownloadedThumb id' size' (fields (snd (downloadDocThumb docID thumbSize transfer w)))
  = hasDownloadedThumb id' size' (fields w).
Proof.
  intros Hr Hd Hfree Hfree' Hne.
  assert (Hkey : thumbKey (Doc.id doc) thumbSize ≠ thumbKey id' size').
  { intros Heq. apply thumbKey_inj in Heq as [H1 H2]; [|done..].
    apply Hne. by rewrite H1, H2. }
  unfold downloadDocThumb, bind. rewrite (resolveDoc_run _ _ _ _ Hr Hd).
  unfold get. cbv beta iota zeta. cbn [fst snd].
  destruct (thumbs (fields w) !! thumbKey (Doc.id doc) thumbSize); [done|].
  case_bool_decide; [done|].
  unfold hasDownloadedThumb, onFields, modify, transferPromise, then_, newPromise, ret.
  destruct transfer; cbn; by rewrite lookup_insert_ne.
Qed.

End Names.

Section NameSamples.
Import Promise AppDocs.

Lemma getFileName_synthesized_witness :
  getFileName (Samples.bare "7" None []) = inl "t_file7.jpeg".
Proof.
  destruct (getFileName_synthesized (Samples.bare "7" None [])) as [Hext _].
  - reflexivity.
  - apply (Hext "image" "jpeg"); reflexivity.
Defined.

Lemma getFileName_of_saved_witness :
  ∃ d name, objects (fields (Samples.savedAlone Samples.untyped)) !! 0%nat = Some d ∧
            getFileName d = inl name ∧ name ≠ "".
Proof.
  destruct (getFileName_of_saved (env := Samples.plain)
              (fields (run [NewObject Samples.untyped] empty)) 0%nat None Samples.untyped
              0%nat (fields (Samples.savedAlone Samples.untyped)))
    as (d & name & Hd & Hname & Hne & _); try reflexivity.
  by exists d, name.
Defined.

Lemma thumb_slots_distinct_witness :
  hasDownloadedThumb "42" "x"
    (fields (snd (downloadDocThumb (ById "42") "m" None Samples.registered42)))
  = false.
Proof.
  rewrite (thumb_slots_distinct Samples.registered42 (ById "42") "m" None 0%nat
             (Doc.set_file_name (Some "") Samples.first42) "42" "x");
    try reflexivity.
  discriminate.
Defined.

End NameSamples.

(** ** AppDocsManager: the registry over time *)

Section RegistryTraces.
Import Promise AppDocs.
Context {env : Environment}.
Implicit Types (w : world) (p : pref) (r : ref).

(** [Object.assign(doc, context)] with a context that has no [id]. *)
Hypothesis context_keeps_id : ∀ d c, Doc.id (assignContext d c) = Doc.id d.

(** A reaction leaves alone every part of the manager that its callbacks
    leave alone. *)
Lemma react_keeps {X} (proj : manager → X) p w :
  (∀ hd arg, keeps (λ w, proj (fields w)) (interp hd arg)) →
  proj (fields (react p w)) = proj (fields w).
Proof.
  intros Hinterp.
  assert (Hrun : ∀ hd arg, proj (fields (runReaction p hd arg w)) = proj (fields w)).
  { intros hd arg. unfold runReaction.
    destruct (interp hd arg w) as [[v|e] w'] eqn:Hi; simpl;
      by apply (Hinterp hd arg) in Hi. }
  unfold react.
  destruct (promises w !! p) as [[k stp]|]; [|done].
  destruct k as [| | |src onF onR|srcs]; try done; destruct stp; try done.
  - destruct (status_of (promises w) src); [done| |].
    + by destruct onF.
    + by destruct onR.
  - destruct (firstRejected _ _); [done|]. by destruct (allFulfilled _ _).
Qed.

Lemma writeObject_ids r f :
  (∀ d, Doc.id (f d) = Doc.id d) →
  keeps (λ m, Doc.id <$> objects m) (writeObject r f).
Proof.
  intros Hf. apply keeps_modify. intros m. cbn.
  destruct (objects m !! r) as [d|] eqn:Hd; [|done].
  rewrite list_fmap_insert, Hf. apply list_insert_id.
  by rewrite list_lookup_fmap, Hd.
Qed.

Lemma interp_docs hd arg : keeps (λ w, docs (fields w)) (interp hd arg).
Proof.
  destruct hd; simpl; unfold readObject, writeObject, createObjectURL; keeps_steps.
Qed.

Lemma interp_ids hd arg : keeps (λ w, Doc.id <$> objects (fields w)) (interp hd arg).
Proof.
  destruct hd; simpl; unfold readObject, createObjectURL;
    repeat first
      [ apply (keeps_onFields (λ m, Doc.id <$> objects m)), writeObject_ids; by intros []
      | apply keeps_bind; [|intros ?]
      | apply keeps_get
      | apply keeps_ret
      | apply keeps_throw
      | apply (keeps_onFields (λ m, Doc.id <$> objects m))
      | apply keeps_modify; intros ?; reflexivity
      | match goal with
        | |- keeps _ (match ?x with _ => _ end) => destruct x
        end ].
Qed.

Lemma downloadDoc_docs docID toFileEntry cachedBlob transfer :
  keeps (λ w, docs (fields w)) (downloadDoc docID toFileEntry cachedBlob transfer).
Proof.
  unfold downloadDoc, startDownload, transferPromise, then_, resolved, rejected,
    resolveDoc, readObject.
  keeps_steps.
Qed.

Lemma downloadDoc_objects docID toFileEntry cachedBlob transfer :
  keeps (λ w, objects (fields w)) (downloadDoc docID toFileEntry cachedBlob transfer).
Proof.
  unfold downloadDoc, startDownload, transferPromise, then_, resolved, rejected,
    resolveDoc, readObject.
  keeps_steps.
Qed.

Lemma downloadDocThumb_docs docID thumbSize transfer :
  keeps (λ w, docs (fields w)) (downloadDocThumb docID thumbSize transfer).
Proof.
  unfold downloadDocThumb, transferPromise, then_, resolved, rejected,
    resolveDoc, readObject.
  keeps_steps.
Qed.

Lemma downloadDocThumb_objects docID thumbSize transfer :
  keeps (λ w, objects (fields w)) (downloadDocThumb docID thumbSize transfer).
Proof.
  unfold downloadDocThumb, transferPromise, then_, resolved, rejected,
    resolveDoc, readObject.
  keeps_steps.
Qed.

Lemma mergeThumbs_id a d d' : mergeThumbs a d = inl d' → Doc.id d' = Doc.id d.
Proof. unfold mergeThumbs. intros Hm. repeat case_match; simplify_eq/=; done. Qed.

Lemma ids_insert (os : list MTDocument) r d d' :
  os !! r = Some d → Doc.id d' = Doc.id d → Doc.id <$> <[ r := d' ]> os = Doc.id <$> os.
Proof.
  intros Hr Hid. rewrite list_fmap_insert, Hid. apply list_insert_id.
  by rewrite list_lookup_fmap, Hr.
Qed.

(** What a save does to the registry: the ids of the document objects stay,
    and the id map is left alone or gains the entry of the saved object. *)
Lemma saveDoc_registry m apiDoc ctx res m' :
  saveDoc apiDoc ctx m = (res, m') →
  Doc.id <$> objects m' = Doc.id <$> objects m ∧
  (docs m' = docs m ∨
   ∃ a, objects m !! apiDoc = Some a ∧ docs m !! Doc.id a = None ∧
        docs m' = <[ Doc.id a := apiDoc ]> (docs m)).
Proof.
  destruct (objects m !! apiDoc) as [a|] eqn:Ha.
  2:{ unfold saveDoc, readObject, bind, get. cbv beta iota. rewrite Ha.
      intros [= <- <-]. auto. }
  destruct (docs m !! Doc.id a) as [dref|] eqn:Hid.
  - destruct (objects m !! dref) as [d|] eqn:Hd.
    + rewrite (saveDoc_known _ _ _ _ _ _ Ha Hid Hd).
      destruct (mergeThumbs a d) as [d'|e] eqn:Hm; intros [= <- <-]; [|auto].
      split; [|by left]. cbn. apply (ids_insert _ _ d); [done|].
      destruct ctx; rewrite ?context_keeps_id; by apply (mergeThumbs_id a).
    + unfold saveDoc, bind, get. rewrite (readObject_run _ _ _ Ha). cbv beta iota.
      rewrite Hid. unfold readObject, bind, get. cbv beta iota. rewrite Hd.
      intros [= <- <-]. auto.
  - rewrite (saveDoc_first _ _ ctx _ Ha Hid). cbv zeta.
    set (a' := match ctx with Some c => assignContext a c | None => a end).
    assert (Hid' : Doc.id a' = Doc.id a) by (unfold a'; destruct ctx; auto).
    destruct (normalizeThumb a') as [a1|e] eqn:Hn; intros [= <- <-]; cbn.
    + split; [|right; exists a; by rewrite Hid'].
      apply (ids_insert _ _ a); [done|].
      destruct (finishDoc_frame (defaultMimeType (applyAttributes a1))) as (_ & _ & -> & _).
      destruct (defaultMimeType_frame (applyAttributes a1)) as (_ & -> & _).
      destruct (applyAttributes_frame a1) as (-> & _).
      by destruct (normalizeThumb_frame _ _ Hn) as (-> & _).
    + split; [|right; exists a; by rewrite Hid'].
      by apply (ids_insert _ _ a).
Qed.

(** One event: entries of the id map stay, and so does the id of every
    document object. *)
Lemma step_registry e w :
  (∀ id r, docs (fields w) !! id = Some r → docs (fields (step e w)) !! id = Some r) ∧
  (∃ more, Doc.id <$> objects (fields (step e w))
           = (Doc.id <$> objects (fields w)) ++ more) ∧
  (∀ id r, docs (fields w) !! id = None → docs (fields (step e w)) !! id = Some r →
           (Doc.id <$> objects (fields w)) !! r = Some id).
Proof.
  assert (Hsame : ∀ w', docs (fields w') = docs (fields w) →
                        objects (fields w') = objects (fields w) →
    (∀ id r, docs (fields w) !! id = Some r → docs (fields w') !! id = Some r) ∧
    (∃ more, Doc.id <$> objects (fields w') = (Doc.id <$> objects (fields w)) ++ more) ∧
    (∀ id r, docs (fields w) !! id = None → docs (fields w') !! id = Some r →
             (Doc.id <$> objects (fields w)) !! r = Some id)).
  { intros w' -> ->. split; [done|]. split; [exists []; by rewrite app_nil_r|].
    intros id r Hnone Hsome. congruence. }
  destruct e as [doc|apiDoc ctx|docID toFileEntry cachedBlob transfer
                 |docID thumbSize transfer|q outcome|q]; cbn [step].
  - cbn. split; [done|]. split; [exists [Doc.id doc]; by rewrite fmap_app|].
    intros id r Hnone Hsome. congruence.
  - unfold onFields. destruct (saveDoc apiDoc ctx (fields w)) as [res m'] eqn:Hs. cbn.
    destruct (saveDoc_registry _ _ _ _ _ Hs) as [Hids [Hdocs | (a & Ha & Hid & Hdocs)]];
      rewrite Hids, Hdocs.
    + split; [done|]. split; [exists []; by rewrite app_nil_r|].
      intros id r Hnone Hsome. congruence.
    + split; [|split; [exists []; by rewrite app_nil_r|]].
      * intros id r Hr. rewrite lookup_insert_ne; [done|]. intros <-. congruence.
      * intros id r Hnone. destruct (decide (Doc.id a = id)) as [<-|Hne].
        -- rewrite lookup_insert_eq. intros [= <-]. by rewrite list_lookup_fmap, Ha.
        -- rewrite lookup_insert_ne by done. congruence.
  - destruct (downloadDoc _ _ _ _ w) as [r0 w'] eqn:Hs. cbn [snd].
    apply Hsame.
    + by apply (downloadDoc_docs _ _ _ _ _ _ _ Hs).
    + by apply (downloadDoc_objects _ _ _ _ _ _ _ Hs).
  - destruct (downloadDocThumb _ _ _ w) as [r0 w'] eqn:Hs. cbn [snd].
    apply Hsame.
    + by apply (downloadDocThumb_docs _ _ _ _ _ _ Hs).
    + by apply (downloadDocThumb_objects _ _ _ _ _ _ Hs).
  - unfold settleExternal. destruct (promises w !! q) as [[[] []]|]; by apply Hsame.
  - split; [|split].
    + rewrite (react_keeps docs q w interp_docs). done.
    + exists []. rewrite app_nil_r.
      apply (react_keeps (λ m, Doc.id <$> objects m) q w interp_ids).
    + rewrite (react_keeps docs q w interp_docs). congruence.
Qed.

(** X25: an entry of the id map is never removed or redirected: in every
    future of the manager the id leads to the object that was registered
    first (contexts without an [id] property assumed). *)
Theorem registry_entry_stays tr w id r :
  docs (fields w) !! id = Some r → docs (fields (run tr w)) !! id = Some r.
Proof.
  revert w. induction tr as [|e tr IH]; intros w Hr; [done|].
  cbn. apply IH. by apply step_registry.
Qed.



End RegistryTraces.

Section RegistrySamples2.
Import Promise AppDocs.

Lemma registry_entry_stays_witness :
  docs (fields (run (env := Samples.plain)
                  [NewObject Samples.second42; CallSaveDoc 1%nat None;
                   CallDownloadDoc (ById "42") None None None;
                   Settle 0%nat (inl (VBlob (MkBlob [] "image/jpeg"))); React 1%nat]
                  Samples.registered42)) !! "42" = Some 0%nat.
Proof.
  apply (registry_entry_stays (env := Samples.plain) (λ d c, eq_refl)).
  reflexivity.
Defined.


End RegistrySamples2.

(** ** AppDocsManager: what a download leaves behind *)


Section DownloadOutcomes.
Import Promise AppDocs.
Context {env : Environment}.
Implicit Types (w : world) (p : pref) (r : ref) (h : list (cell value handler)).

Lemma lookup_last_0 {A} (l : list A) x rest : (l ++ x :: rest) !! length l = Some x.
Proof. by rewrite lookup_app_r, Nat.sub_diag. Qed.

Lemma lookup_last_1 {A} (l : list A) x y rest :
  (l ++ x :: y :: rest) !! S (length l) = Some y.
Proof.
  rewrite lookup_app_r by lia.
  by replace (S (length l) - length l)%nat with 1%nat by lia.
Qed.

Lemma settle_last_0 h k st rest :
  settle (length h) st (h ++ Cell k Pending :: rest) = h ++ Cell k st :: rest.
Proof.
  unfold settle. rewrite lookup_last_0.
  rewrite insert_app_r_alt by lia. by rewrite Nat.sub_diag.
Qed.

Lemma settle_last_1 h c k st rest :
  settle (S (length h)) st (h ++ c :: Cell k Pending :: rest)
  = h ++ c :: Cell k st :: rest.
Proof.
  unfold settle. rewrite lookup_last_1.
  rewrite insert_app_r_alt by lia.
  by replace (S (length h) - length h)%nat with 1%nat by lia.
Qed.

(** X27: an empty document is never fetched: [downloadDoc], and
    [downloadDocThumb] for a size not yet in the cache, return a new promise
    that is already rejected, call nothing on [apiFileManager] and store
    nothing, so [hasDownloadedThumb] stays false. *)
Theorem documentEmpty_never_fetched w docID r doc :
  getDoc docID (fields w) = Some r →
  objects (fields w) !! r = Some doc →
  Doc.tag doc = "documentEmpty" →
  let refused := (inl (length (promises w)),
                  World (fields w) (promises w ++ [Cell Settled (Rejected VUndefined)])) in
  (∀ toFileEntry cachedBlob transfer,
     downloadDoc docID toFileEntry cachedBlob transfer w = refused) ∧
  (∀ thumbSize transfer,
     thumbs (fields w) !! thumbKey (Doc.id doc) thumbSize = None →
     downloadDocThumb docID thumbSize transfer w = refused).
Proof.
  intros Hr Hd Htag refused. split.
  - intros toFileEntry cachedBlob transfer.
    unfold downloadDoc, bind. rewrite (resolveDoc_run _ _ _ _ Hr Hd). cbn [fst snd].
    by rewrite bool_decide_eq_true_2.
  - intros thumbSize transfer Hnone.
    unfold downloadDocThumb, bind. rewrite (resolveDoc_run _ _ _ _ Hr Hd).
    unfold get. cbv beta iota zeta. cbn [fst snd]. rewrite Hnone.
    by rewrite bool_decide_eq_true_2.
Qed.

(** X30: a downloaded document is served without a call to
    [apiFileManager.downloadFile] when no file entry is given: with an object
    URL the promise is already fulfilled with [null] (the cache is not even
    asked), and without one it is fulfilled with the blob that
    [getCachedFile] returned. *)
Theorem downloaded_served_locally w docID r doc :
  getDoc docID (fields w) = Some r →
  objects (fields w) !! r = Some doc →
  Doc.tag doc ≠ "documentEmpty" → Doc.downloaded doc = true →
  (∀ u cachedBlob transfer,
     Doc.url doc = Some u →
     downloadDoc docID None cachedBlob transfer w
     = (inl (length (promises w)),
        World (fields w) (promises w ++ [Cell Settled (Fulfilled VNull)]))) ∧
  (∀ b transfer,
     Doc.url doc = None →
     downloadDoc docID None (Some b) transfer w
     = (inl (length (promises w)),
        World (fields w) (promises w ++ [Cell Settled (Fulfilled (VBlob b))]))).
Proof.
  intros Hr Hd Htag Hdown. split.
  - intros u cachedBlob transfer Hurl.
    unfold downloadDoc, bind. rewrite (resolveDoc_run _ _ _ _ Hr Hd). cbn [fst snd].
    rewrite bool_decide_eq_false_2 by done. rewrite Hdown, Hurl.
    rewrite !bool_decide_eq_true_2 by (done || by eexists). done.
  - intros b transfer Hurl.
    unfold downloadDoc, bind. rewrite (resolveDoc_run _ _ _ _ Hr Hd). cbn [fst snd].
    rewrite bool_decide_eq_false_2 by done. rewrite Hdown, Hurl.
    rewrite bool_decide_eq_true_2 by done.
    rewrite bool_decide_eq_false_2 by (by intros [? ?]). done.
Qed.

Lemma startDownload_new r doc toFileEntry w :
  startDownload r doc toFileEntry None w
  = (inl (length (promises w)),
     World (log (downloadFile (Doc.dc_id doc) (getInputByID doc None) (Doc.size doc)
                   (if truthyString (Doc.mime_type doc) then default "" (Doc.mime_type doc)
                    else "application/octet-stream")
                   toFileEntry (Doc.sticker doc)) (fields w))
           (promises w ++
              [Cell External Pending;
               Cell (Then (length (promises w)) (Some (onDownloaded r)) (Some onDownloadFailed))
                 Pending])).
Proof.
  unfold startDownload, bind, onFields, modify, transferPromise, then_, newPromise, ret.
  cbn. by rewrite <- app_assoc.
Qed.

Lemma downloadDoc_starts w docID toFileEntry cachedBlob transfer r doc :
  getDoc docID (fields w) = Some r →
  objects (fields w) !! r = Some doc →
  Doc.tag doc ≠ "documentEmpty" → Doc.downloaded doc = false →
  downloadDoc docID toFileEntry cachedBlob transfer w
  = startDownload r doc toFileEntry transfer w.
Proof.
  intros Hr Hd Htag Hdown.
  unfold downloadDoc, bind. rewrite (resolveDoc_run _ _ _ _ Hr Hd). cbn [fst snd].
  rewrite bool_decide_eq_false_2 by done. by rewrite Hdown.
Qed.

(** The callback of a finished transfer, for a blob: the document is marked
    as downloaded, and gets an object URL when it has a type and is not an
    animated sticker. *)
Lemma interp_onDownloaded_blob w r doc b :
  objects (fields w) !! r = Some doc →
  let m := fields w in
  interp (onDownloaded r) (VBlob b) w
  = (inl (VBlob b),
     World (if truthyString (Doc.type doc) && negb (bool_decide (Doc.sticker doc = Some 2))
            then Manager (docs m) (thumbs m)
                   (<[ r := Doc.set_url (Some (objectURLs m)) (Doc.set_downloaded true doc) ]>
                      (objects m))
                   (calls m) (S (objectURLs m))
            else Manager (docs m) (thumbs m)
                   (<[ r := Doc.set_downloaded true doc ]> (objects m))
                   (calls m) (objectURLs m))
           (promises w)).
Proof.
  intros Hd m. subst m.
  assert (Hlt : (r < length (objects (fields w)))%nat) by (by eapply lookup_lt_Some).
  cbn [interp handlers truthy]. unfold bind at 1. unfold bind at 1.
  unfold onFields at 1, writeObject at 1, modify. cbn [fields promises].
  unfold set_objects. cbn [objects]. rewrite Hd. cbv beta iota.
  unfold bind at 1. unfold onFields at 1, readObject, bind, get. cbn [fields promises objects].
  rewrite list_lookup_insert_eq by done. unfold ret at 1. cbv beta iota.
  cbn [Doc.type Doc.set_downloaded Doc.sticker].
  destruct (truthyString (Doc.type doc) && negb (bool_decide (Doc.sticker doc = Some 2))).
  - unfold onFields, createObjectURL, bind, get, modify, ret, writeObject, set_objectURLs,
      set_objects. cbn [fields promises objects objectURLs docs thumbs calls].
    cbv beta iota delta [modify]. cbn [objects objectURLs docs thumbs calls].
    rewrite list_lookup_insert_eq by done.
    by rewrite list_insert_insert_eq.
  - done.
Qed.

(** X28: a transfer started by [downloadDoc] that delivers a blob marks
    the document as downloaded and, for a typed document that is not an
    animated sticker, gives it an object URL; from then on [downloadDoc]
    without a file entry answers with an already fulfilled promise and makes
    no further call to [apiFileManager]. *)
Theorem download_completes_once w docID r doc b :
  getDoc docID (fields w) = Some r →
  objects (fields w) !! r = Some doc →
  Doc.tag doc ≠ "documentEmpty" → Doc.downloaded doc = false →
  let p := length (promises w) in
  let w1 := snd (downloadDoc docID None None None w) in
  let w2 := run [Settle p (inl (VBlob b)); React (S p)] w1 in
  let typed := truthyString (Doc.type doc)
               && negb (bool_decide (Doc.sticker doc = Some 2)) in
  fst (downloadDoc docID None None None w) = inl p ∧
  status_of (promises w2) (S p) = Fulfilled (VBlob b) ∧
  objects (fields w2) !! r
  = Some (if typed
          then Doc.set_url (Some (objectURLs (fields w))) (Doc.set_downloaded true doc)
          else Doc.set_downloaded true doc) ∧
  (typed = true →
   ∀ cachedBlob transfer,
     downloadDoc docID None cachedBlob transfer w2
     = (inl (length (promises w2)),
        World (fields w2) (promises w2 ++ [Cell Settled (Fulfilled VNull)]))).
Proof.
  intros Hr Hd Htag Hdown. cbv zeta.
  assert (Hlt : (r < length (objects (fields w)))%nat) by (by eapply lookup_lt_Some).
  rewrite (downloadDoc_starts _ _ None None None _ _ Hr Hd Htag Hdown).
  rewrite startDownload_new. cbn [fst snd].
  set (typed := truthyString (Doc.type doc)
                && negb (bool_decide (Doc.sticker doc = Some 2))).
  set (m1 := log _ (fields w)).
  assert (Hd1 : objects m1 !! r = Some doc) by exact Hd.
  assert (Hw2 : run [Settle (length (promises w)) (inl (VBlob b));
                     React (S (length (promises w)))]
                  (World m1
                     (promises w ++
                        [Cell External Pending;
                         Cell (Then (length (promises w)) (Some (onDownloaded r))
                                 (Some onDownloadFailed)) Pending]))
                = World (if typed
                         then Manager (docs m1) (thumbs m1)
                                (<[ r := Doc.set_url (Some (objectURLs m1))
                                           (Doc.set_downloaded true doc) ]> (objects m1))
                                (calls m1) (S (objectURLs m1))
                         else Manager (docs m1) (thumbs m1)
                                (<[ r := Doc.set_downloaded true doc ]> (objects m1))
                                (calls m1) (objectURLs m1))
                    (promises w ++
                       [Cell External (Fulfilled (VBlob b));
                        Cell (Then (length (promises w)) (Some (onDownloaded r))
                                (Some onDownloadFailed)) (Fulfilled (VBlob b))])).
  { unfold run. cbn [foldl step].
    unfold settleExternal. cbn [promises fields]. rewrite lookup_last_0.
    rewrite settle_last_0.
    unfold react. cbn [promises fields]. rewrite lookup_last_1.
    unfold status_of at 1. rewrite lookup_last_0. cbn [status].
    unfold runReaction.
    rewrite (interp_onDownloaded_blob _ r doc b) by exact Hd1.
    cbn [fields promises]. by rewrite settle_last_1. }
  rewrite Hw2. clear Hw2. cbn [promises fields].
  split; [done|]. split; [unfold status_of; by rewrite lookup_last_1|].
  split.
  - destruct typed; cbn [objects]; by rewrite list_lookup_insert_eq.
  - intros Htyped cachedBlob transfer. rewrite Htyped.
    unfold downloadDoc, bind.
    rewrite (resolveDoc_run _ _ r
               (Doc.set_url (Some (objectURLs m1)) (Doc.set_downloaded true doc))).
    + cbn [fst snd Doc.tag Doc.set_url Doc.set_downloaded Doc.downloaded Doc.url].
      rewrite bool_decide_eq_false_2 by done.
      rewrite !bool_decide_eq_true_2 by (done || by eexists). done.
    + destruct docID; [done|]. exact Hr.
    + cbn [fields objects]. by rewrite list_lookup_insert_eq.
Qed.

(** X29: when the transfer fails, the promise [downloadDoc] returned (the
    transfer's own) is rejected with the reason, while the manager's own
    bookkeeping promise is fulfilled with [undefined]; the manager's fields are
    as right after the call: the document is not marked as downloaded. *)
Theorem download_failure_reaches_caller w docID r doc reason :
  getDoc docID (fields w) = Some r →
  objects (fields w) !! r = Some doc →
  Doc.tag doc ≠ "documentEmpty" → Doc.downloaded doc = false →
  let p := length (promises w) in
  let w1 := snd (downloadDoc docID None None None w) in
  let w2 := run [Settle p (inr reason); React (S p)] w1 in
  fst (downloadDoc docID None None None w) = inl p ∧
  status_of (promises w2) p = Rejected reason ∧
  status_of (promises w2) (S p) = Fulfilled VUndefined ∧
  fields w2 = fields w1 ∧
  objects (fields w2) !! r = Some doc.
Proof.
  intros Hr Hd Htag Hdown. cbv zeta.
  rewrite (downloadDoc_starts _ _ None None None _ _ Hr Hd Htag Hdown).
  rewrite startDownload_new. cbn [fst snd].
  set (m1 := log _ (fields w)).
  assert (Hw2 : run [Settle (length (promises w)) (inr reason);
                     React (S (length (promises w)))]
                  (World m1
                     (promises w ++
                        [Cell External Pending;
                         Cell (Then (length (promises w)) (Some (onDownloaded r))
                                 (Some onDownloadFailed)) Pending]))
                = World m1
                    (promises w ++
                       [Cell External (Rejected reason);
                        Cell (Then (length (promises w)) (Some (onDownloaded r))
                                (Some onDownloadFailed)) (Fulfilled VUndefined)])).
  { unfold run. cbn [foldl step].
    unfold settleExternal. cbn [promises fields]. rewrite lookup_last_0.
    rewrite settle_last_0.
    unfold react. cbn [promises fields]. rewrite lookup_last_1.
    unfold status_of at 1. rewrite lookup_last_0. cbn [status].
    unfold runReaction. cbn [interp handlers]. unfold ret.
    cbn [fields promises]. by rewrite settle_last_1. }
  rewrite Hw2. clear Hw2. cbn [promises fields].
  split; [done|]. split; [unfold status_of; by rewrite lookup_last_0|].
  split; [unfold status_of; by rewrite lookup_last_1|].
  split; [done|]. exact Hd.
Qed.

End DownloadOutcomes.

Section DownloadOutcomeSamples.
Import Promise AppDocs.

Ltac run_it := vm_compute; first [reflexivity | discriminate].

Lemma documentEmpty_never_fetched_witness :
  let w := Samples.savedAlone Samples.hollow in
  fst (downloadDocThumb (ById "13") "m" None w) = inl 0%nat ∧
  status_of (promises (snd (downloadDocThumb (ById "13") "m" None w))) 0%nat
  = Rejected VUndefined ∧
  hasDownloadedThumb "13" "m" (fields (snd (downloadDocThumb (ById "13") "m" None w))) = false.
Proof.
  intros w.
  destruct (documentEmpty_never_fetched w (ById "13") 0%nat
              (default Samples.hollow (objects (fields w) !! 0%nat))) as [_ Hthumb].
  1-3: run_it.
  rewrite (Hthumb "m" None) by run_it.
  repeat split; run_it.
Defined.

Lemma download_completes_once_witness :
  let w := Samples.video7 in
  let p := length (promises w) in
  let w2 := run (env := Samples.plain) [Settle p (inl (VBlob Samples.blob)); React (S p)]
              (snd (downloadDoc (ById "7") None None None w)) in
  status_of (promises w2) (S p) = Fulfilled (VBlob Samples.blob) ∧
  ∀ cachedBlob transfer,
    downloadDoc (ById "7") None cachedBlob transfer w2
    = (inl (length (promises w2)),
       World (fields w2) (promises w2 ++ [Cell Settled (Fulfilled VNull)])).
Proof.
  intros w p w2.
  destruct (download_completes_once (env := Samples.plain) w (ById "7") 0%nat
              (default Samples.hollow (objects (fields w) !! 0%nat))
              Samples.blob) as (_ & Hst & _ & Hagain).
  1-4: run_it.
  split; [exact Hst|]. apply Hagain. run_it.
Defined.

Lemma downloaded_served_locally_witness :
  let w2 := run (env := Samples.plain)
              [CallDownloadDoc (ById "7") None None None;
               Settle 0%nat (inl (VBlob Samples.blob)); React 1%nat] Samples.video7 in
  fst (downloadDoc (ById "7") None None None w2) = inl 2%nat ∧
  status_of (promises (snd (downloadDoc (ById "7") None None None w2))) 2%nat
  = Fulfilled VNull.
Proof.
  intros w2.
  destruct (downloaded_served_locally w2 (ById "7") 0%nat
              (default Samples.hollow (objects (fields w2) !! 0%nat)))
    as [Hurl _].
  1-4: run_it.
  rewrite (Hurl 0%nat None None) by run_it.
  split; run_it.
Defined.

Lemma download_failure_reaches_caller_witness :
  let w := Samples.video7 in
  let p := length (promises w) in
  let w2 := run (env := Samples.plain)
              [Settle p (inr (VError (ExternalError 404))); React (S p)]
              (snd (downloadDoc (ById "7") None None None w)) in
  status_of (promises w2) p = Rejected (VError (ExternalError 404)) ∧
  status_of (promises w2) (S p) = Fulfilled VUndefined.
Proof.
  intros w p w2.
  destruct (download_failure_reaches_caller (env := Samples.plain) w (ById "7")
              0%nat (default Samples.hollow (objects (fields w) !! 0%nat))
              (VError (ExternalError 404)))
    as (_ & Hp & Hq & _).
  1-4: run_it.
  split; [exact Hp|exact Hq].
Defined.

End DownloadOutcomeSamples.
